(** * Mantra-Baileys: session manager, rate-limited queue and webhook bridge

    A shallow embedding of three event-driven classes of the repository,

    - [RateLimiter]    : class RateLimitedQueue of src/Utils/rate-limiter.ts
    - [SessionManager] : class SessionManager of src/Utils/session-manager.ts
    - [WebhookBridge]  : class WebhookBridge, next to them in src/Utils

    and the properties of them that the specification states.

    The classes run on the Node event loop.  Every piece of code that runs
    between two suspension points ([await], a timer, a transport event) is
    one step of a state machine; the state holds the fields of the class
    together with what the event loop keeps for it: the continuation of a
    suspended [async] function and the pending timers.  Time is the value
    [Date.now()] returns, in milliseconds, and is an input of every step;
    it never runs backwards.  A timer set for [ms] milliseconds at time [t]
    may fire at any time from [t + ms] on (what the runtime does with a
    delay below 1 or above 2^31 - 1 is left out).  Numbers that count or
    measure milliseconds are integers; the two products with a power of 1.5
    or of a random number are rationals.  Callbacks and loggers do not
    throw. *)

From Stdlib Require Import ZArith QArith Qround Lia Lqa List Bool Ascii Sorted.
From stdpp Require Import base option list gmap strings.
From Equations Require Import Equations.

Local Open Scope Z_scope.

(* ===================================================================== *)
(** * JavaScript's Map with string keys                                   *)
(* ===================================================================== *)

(** A [Map] keeps its entries in the order of their first insertion:
    [set] on a key that is present replaces the value where it stands. *)

Fixpoint map_get {A} (k : string) (m : list (string * A)) : option A :=
  match m with
  | [] => None
  | (k', v) :: rest => if String.eqb k k' then Some v else map_get k rest
  end.

Fixpoint map_set {A} (k : string) (v : A) (m : list (string * A)) : list (string * A) :=
  match m with
  | [] => [(k, v)]
  | (k', v') :: rest =>
      if String.eqb k k' then (k, v) :: rest else (k', v') :: map_set k v rest
  end.

Fixpoint map_delete {A} (k : string) (m : list (string * A)) : list (string * A) :=
  match m with
  | [] => []
  | (k', v') :: rest =>
      if String.eqb k k' then rest else (k', v') :: map_delete k rest
  end.

Definition map_has {A} (k : string) (m : list (string * A)) : bool :=
  match map_get k m with Some _ => true | None => false end.

(* ===================================================================== *)
(** * The rate-limited queue (rate-limiter.ts)                            *)
(* ===================================================================== *)

Module RateLimiter.

(** The queue, its two counters, the table of last dispatches, the two
    reset timers and the drain loop [_process]; [destroy], which clears the
    queue and the two intervals, is left out. *)

(** [RateLimiterConfig] with the defaults merged in.  The two optional
    callbacks are observed through the [OnRateLimited] and
    [OnDailyLimitReached] effects below. *)
Record Config := mkConfig {
  messagesPerMinute : Z;
  messagesPerDay : Z;
  minDelayMs : Z;
  maxDelayMs : Z;
  jitterMs : Z;
  perRecipientDelayMs : Z
}.

Definition DEFAULT_CONFIG : Config :=
  {| messagesPerMinute := 20; messagesPerDay := 500; minDelayMs := 800;
     maxDelayMs := 3000; jitterMs := 400; perRecipientDelayMs := 2000 |}.

(** A [QueuedTask].  The closures [fn], [resolve] and [reject] of one call
    of [enqueue] are named by [tid], the number of that call. *)
Record Task := mkTask { jid : string; tid : nat; enqueuedAt : Z }.

(** What a task's promise is rejected with. *)
Inductive Failure :=
| QueueCleared                 (* new Error('Queue cleared') *)
| OpFailed (err : string).     (* the error [task.fn()] rejected with *)

(** What the queue does to the outside, newest first in [effects]. *)
Inductive Effect :=
| OnRateLimited (j : string) (depth : nat)   (* config.onRateLimited?.(...) *)
| OnDailyLimitReached (j : string)           (* config.onDailyLimitReached?.(...) *)
| Invoked (t : Task) (time : Z)              (* task.fn() is called *)
| Resolved (t : Task) (value : string)       (* task.resolve(result) *)
| Rejected (t : Task) (why : Failure).       (* task.reject(...) *)

(** Where [_process] is suspended. *)
Inductive Pc :=
| Idle                                   (* not running: processing = false *)
| WaitMidnight (wake : Z)                (* await this._waitUntilMidnight() *)
| WaitMinute (wake : Z)                  (* await this._sleep(this._nextMinuteMs()) *)
| WaitRecipient (t : Task) (wake : Z)    (* await this._sleep(required - elapsed) *)
| WaitDelay (t : Task) (wake : Z)        (* await this._sleep(delay) *)
| InFlight (t : Task).                   (* await task.fn() *)

Record State := mkState {
  queue : list Task;
  processing : bool;
  sentThisMinute : Z;
  sentToday : Z;
  lastSentAt : gmap string Z;
  minuteResetAt : Z;      (* when the minute timer (timeout, then interval) is due *)
  dayResetAt : Z;         (* when the day timer is due *)
  pc : Pc;
  nextTid : nat;
  clock : Z;              (* the time of the last step *)
  effects : list Effect
}.

Definition set_queue (q : list Task) (s : State) : State :=
  mkState q (processing s) (sentThisMinute s) (sentToday s) (lastSentAt s)
    (minuteResetAt s) (dayResetAt s) (pc s) (nextTid s) (clock s) (effects s).
Definition set_pc (b : bool) (p : Pc) (s : State) : State :=
  mkState (queue s) b (sentThisMinute s) (sentToday s) (lastSentAt s)
    (minuteResetAt s) (dayResetAt s) p (nextTid s) (clock s) (effects s).
Definition set_clock (now : Z) (s : State) : State :=
  mkState (queue s) (processing s) (sentThisMinute s) (sentToday s) (lastSentAt s)
    (minuteResetAt s) (dayResetAt s) (pc s) (nextTid s) now (effects s).
Definition emit (e : Effect) (s : State) : State :=
  mkState (queue s) (processing s) (sentThisMinute s) (sentToday s) (lastSentAt s)
    (minuteResetAt s) (dayResetAt s) (pc s) (nextTid s) (clock s) (e :: effects s).

(** The local calendar is not part of the class: [msToMidnight now] is
    [midnight.getTime() - now.getTime()] after [midnight.setHours(24,0,0,0)]. *)
Record Env := mkEnv { msToMidnight : Z -> Z }.

(** [60_000 - (Date.now() % 60_000)]; [%] truncates, as [Z.rem]. *)
Definition _nextMinuteMs (now : Z) : Z := 60000 - Z.rem now 60000.

(** [Math.round]: the nearest integer, halves towards plus infinity. *)
Definition Math_round (x : Q) : Z := Qfloor (x + (1 # 2))%Q.

(** [_randomDelay], [r1] and [r2] being the two values of [Math.random()]. *)
Definition _randomDelay (c : Config) (r1 r2 : Q) : Z :=
  let base := (inject_Z (minDelayMs c)
               + r1 * inject_Z (maxDelayMs c - minDelayMs c))%Q in
  let jitter := ((r2 - (1 # 2)) * inject_Z (jitterMs c))%Q in
  Z.max 100 (Math_round (base + jitter)%Q).

(** The constructor: no task, both counters at zero, the two reset timers
    armed for the next minute boundary and the next local midnight. *)
Definition init (env : Env) (now : Z) : State :=
  {| queue := []; processing := false; sentThisMinute := 0; sentToday := 0;
     lastSentAt := ∅;
     minuteResetAt := now + (60000 - Z.rem now 60000);
     dayResetAt := now + msToMidnight env now;
     pc := Idle; nextTid := 0; clock := now; effects := [] |}.

Section Steps.
Variable cfg : Config.
Variable env : Env.
(** The step runs at time [now]; [r1], [r2] are what [Math.random()]
    returns if the step reaches [_randomDelay]. *)
Variable now : Z.
Variables r1 r2 : Q.

(** [const delay = this._randomDelay(); await this._sleep(delay)] *)
Definition pace (t : Task) (s : State) : State :=
  set_pc true (WaitDelay t (now + _randomDelay cfg r1 r2)) s.

(** The body of the [while] loop of [_process] from its head to the first
    [await] it reaches, or the exit of the loop. *)
Definition loop_head (s : State) : State :=
  match queue s with
  | [] => set_pc false Idle s
  | t :: rest =>
      if sentToday s >=? messagesPerDay cfg then
        set_pc true (WaitMidnight (now + msToMidnight env now))
          (emit (OnDailyLimitReached (jid t)) s)
      else if sentThisMinute s >=? messagesPerMinute cfg then
        set_pc true (WaitMinute (now + _nextMinuteMs now)) s
      else
        let s1 := set_queue rest s in
        match lastSentAt s !! jid t with
        | Some lastSent =>
            (* [if (lastSent)]: the number 0 is falsy *)
            if negb (lastSent =? 0) && (now - lastSent <? perRecipientDelayMs cfg)
            then set_pc true
                   (WaitRecipient t (now + (perRecipientDelayMs cfg - (now - lastSent)))) s1
            else pace t s1
        | None => pace t s1
        end
  end.

(** [_process()]: returns at once when the loop is already running. *)
Definition _process (s : State) : State :=
  if processing s then s else loop_head (set_pc true (pc s) s).

(** [enqueue(jid, fn)] *)
Definition enqueue (j : string) (s : State) : State :=
  let t := mkTask j (nextTid s) now in
  let s1 := mkState (queue s ++ [t]) (processing s) (sentThisMinute s) (sentToday s)
              (lastSentAt s) (minuteResetAt s) (dayResetAt s) (pc s)
              (S (nextTid s)) (clock s) (effects s) in
  let s2 := emit (OnRateLimited j (length (queue s1))) s1 in
  if processing s2 then s2 else _process s2.

(** [clear()] *)
Definition clear (s : State) : State :=
  let rejected := map (fun t => Rejected t QueueCleared) (queue s) in
  mkState [] (processing s) (sentThisMinute s) (sentToday s) (lastSentAt s)
    (minuteResetAt s) (dayResetAt s) (pc s) (nextTid s) (clock s)
    (rev rejected ++ effects s).

(** The try block after [await task.fn()] fulfilled with [v]. *)
Definition on_success (t : Task) (v : string) (s : State) : State :=
  emit (Resolved t v)
    (mkState (queue s) (processing s) (sentThisMinute s + 1) (sentToday s + 1)
       (<[jid t := now]> (lastSentAt s))
       (minuteResetAt s) (dayResetAt s) (pc s) (nextTid s) (clock s) (effects s)).

(** The catch block. *)
Definition on_failure (t : Task) (err : string) (s : State) : State :=
  emit (Rejected t (OpFailed err)) s.

(** The callbacks of the two reset timers. *)
Definition minute_reset (s : State) : State :=
  mkState (queue s) (processing s) 0 (sentToday s) (lastSentAt s)
    (now + 60000) (dayResetAt s) (pc s) (nextTid s) (clock s) (effects s).
Definition day_reset (s : State) : State :=
  mkState (queue s) (processing s) (sentThisMinute s) 0 (lastSentAt s)
    (minuteResetAt s) (now + 24 * 60 * 60 * 1000) (pc s) (nextTid s) (clock s)
    (effects s).
End Steps.

(** [get queueDepth()] *)
Definition queueDepth (s : State) : nat := length (queue s).

(** What the event loop runs next. *)
Inductive Event :=
| Enqueue (j : string)              (* a caller calls enqueue(j, fn) *)
| Clear                             (* a caller calls clear() *)
| MinuteReset                       (* the minute timer fires *)
| DayReset                          (* the day timer fires *)
| Wake                              (* the timer of the pending _sleep fires *)
| FnDone (r : string + string).     (* task.fn() fulfils (inl) or rejects (inr) *)

Record Input := mkInput { at_ : Z; rnd1 : Q; rnd2 : Q; what : Event }.

(** One step of the event loop.  [None]: the event cannot happen in this
    state (time running backwards, a timer firing early, no sleep or task
    pending). *)
Definition step (cfg : Config) (env : Env) (i : Input) (s : State) : option State :=
  let now := at_ i in
  if now <? clock s then None else
  let s := set_clock now s in
  match what i with
  | Enqueue j => Some (enqueue cfg env now (rnd1 i) (rnd2 i) j s)
  | Clear => Some (clear s)
  | MinuteReset => if minuteResetAt s <=? now then Some (minute_reset now s) else None
  | DayReset => if dayResetAt s <=? now then Some (day_reset now s) else None
  | Wake =>
      match pc s with
      | WaitMidnight w | WaitMinute w =>
          if w <=? now then Some (loop_head cfg env now (rnd1 i) (rnd2 i) s) else None
      | WaitRecipient t w =>
          if w <=? now then Some (pace cfg now (rnd1 i) (rnd2 i) t s) else None
      | WaitDelay t w =>
          if w <=? now then Some (set_pc true (InFlight t) (emit (Invoked t now) s))
          else None
      | Idle | InFlight _ => None
      end
  | FnDone r =>
      match pc s with
      | InFlight t =>
          let s' := match r with
                    | inl v => on_success now t v s
                    | inr e => on_failure t e s
                    end in
          Some (loop_head cfg env now (rnd1 i) (rnd2 i) s')
      | _ => None
      end
  end.

Fixpoint run (cfg : Config) (env : Env) (ins : list Input) (s : State) : option State :=
  match ins with
  | [] => Some s
  | i :: rest =>
      match step cfg env i s with
      | Some s' => run cfg env rest s'
      | None => None
      end
  end.

(** The effects in the order they happened. *)
Definition trace (s : State) : list Effect := rev (effects s).

(** The times at which [task.fn()] was called, oldest first. *)
Definition dispatch_times (s : State) : list Z :=
  omap (fun e => match e with Invoked _ d => Some d | _ => None end) (trace s).

Definition is_invoked (e : Effect) : bool :=
  match e with Invoked _ _ => true | _ => false end.

(** An environment with midnight on multiples of 24 hours (UTC). *)
Definition utc : Env := {| msToMidnight := fun now => 86400000 - Z.rem now 86400000 |}.


(** ** Invariants of the drain loop *)

(** The task the loop has taken off the queue, if it holds one. *)
Definition pc_task (p : Pc) : option Task :=
  match p with
  | WaitRecipient t _ | WaitDelay t _ | InFlight t => Some t
  | Idle | WaitMidnight _ | WaitMinute _ => None
  end.

Definition in_flight (p : Pc) : Z :=
  match p with InFlight _ => 1 | _ => 0 end.

(** The minute counter never leaves [0 .. messagesPerMinute], and is below
    the limit for as long as the loop holds a task. *)
Definition budget_inv (cfg : Config) (s : State) : Prop :=
  0 <= sentThisMinute s /\
  sentThisMinute s <= Z.max 0 (messagesPerMinute cfg) /\
  (forall t, pc_task (pc s) = Some t -> sentThisMinute s < messagesPerMinute cfg).

(** The numbers of the tasks are distinct, and the task the loop holds is
    no longer in the queue. *)
Definition tids_inv (s : State) : Prop :=
  NoDup (map tid (queue s)) /\
  Forall (fun t => (tid t < nextTid s)%nat) (queue s) /\
  (forall t, pc_task (pc s) = Some t ->
     (tid t < nextTid s)%nat /\ ~ In (tid t) (map tid (queue s))).

(** The loop is suspended somewhere exactly when [processing] is set. *)
Definition coherent (s : State) : Prop := processing s = false -> pc s = Idle.

(** The dispatches among some effects. *)
Definition invoked (l : list Effect) : Z := Z.of_nat (length (List.filter is_invoked l)).

(** [settled l t d]: in the effects [l], newest first, the task [t] was
    dispatched at [d] and resolved afterwards. *)
Fixpoint settled (l : list Effect) (t : Task) (d : Z) : Prop :=
  match l with
  | [] => False
  | x :: older =>
      settled older t d \/ ((exists v, x = Resolved t v) /\ In (Invoked t d) older)
  end.

(** [spaced req l]: every dispatch of [l] comes at least [req] after every
    earlier dispatch that was resolved before it, for the same recipient. *)
Fixpoint spaced (req : Z) (l : list Effect) : Prop :=
  match l with
  | [] => True
  | x :: older =>
      match x with
      | Invoked t2 d2 =>
          forall t1 d1, settled older t1 d1 -> jid t1 = jid t2 -> d1 + req <= d2
      | _ => True
      end /\ spaced req older
  end.

(** Neither a dispatch nor a resolution. *)
Definition is_neutral (e : Effect) : bool :=
  match e with Invoked _ _ | Resolved _ _ => false | _ => true end.

(** What the spacing of the dispatches to one recipient rests on: the
    clock is positive and bounds the recorded times, the table holds, for
    a recipient with a resolved dispatch, a time that is not before it, and
    the dispatches so far are spaced. *)
Definition spacing_core (cfg : Config) (s : State) : Prop :=
  0 < clock s /\
  (forall t d, In (Invoked t d) (effects s) -> d <= clock s) /\
  (forall j l, lastSentAt s !! j = Some l -> 0 < l <= clock s) /\
  (forall t d, settled (effects s) t d ->
     exists l, lastSentAt s !! jid t = Some l /\ d <= l) /\
  spaced (perRecipientDelayMs cfg) (effects s).

(** The sleep the loop is in ends late enough for the task it holds. *)
Definition paced (cfg : Config) (s : State) : Prop :=
  forall t w, pc s = WaitRecipient t w \/ pc s = WaitDelay t w ->
    forall l, lastSentAt s !! jid t = Some l -> l + perRecipientDelayMs cfg <= w.

Definition spacing_inv (cfg : Config) (s : State) : Prop :=
  spacing_core cfg s /\ paced cfg s.

(** How the promise of a task is settled by the outcome of its operation. *)
Definition settlement (t : Task) (r : string + string) : Effect :=
  match r with
  | inl v => Resolved t v
  | inr e => Rejected t (OpFailed e)
  end.

(** The dispatches in the 60 seconds that start at [from]. *)
Definition dispatches_in_window (from : Z) (s : State) : nat :=
  length (List.filter (fun d => (from <=? d) && (d <? from + 60000)) (dispatch_times s)).

(** ** Five tasks that resolve at once, two messages per minute *)

Definition two_per_minute : Config :=
  {| messagesPerMinute := 2; messagesPerDay := 500; minDelayMs := 0;
     maxDelayMs := 0; jitterMs := 0; perRecipientDelayMs := 2000 |}.

Definition at_time (t : Z) (e : Event) : Input := mkInput t 0 0 e.

(** The queue is made at 59.000 s; five tasks for five recipients are
    enqueued at 59.850 s; each is resolved in the step after its call. *)
Definition five_instant_tasks : list Input :=
  [ at_time 59850 (Enqueue "a"); at_time 59850 (Enqueue "b"); at_time 59850 (Enqueue "c");
    at_time 59850 (Enqueue "d"); at_time 59850 (Enqueue "e");
    at_time 59950 Wake; at_time 59950 (FnDone (inl "sent"));
    at_time 60000 MinuteReset;
    at_time 60050 Wake; at_time 60050 (FnDone (inl "sent"));
    at_time 60150 Wake; at_time 60150 (FnDone (inl "sent"));
    at_time 120000 MinuteReset; at_time 120000 Wake;
    at_time 120100 Wake; at_time 120100 (FnDone (inl "sent"));
    at_time 120200 Wake; at_time 120200 (FnDone (inl "sent")) ].

(** Three tasks enqueued at 59.900 s, the minute timer, due at 60.000 s,
    running 50 ms late. *)
Definition late_reset : list Input :=
  [ at_time 59900 (Enqueue "a"); at_time 59900 (Enqueue "b"); at_time 59900 (Enqueue "c");
    at_time 60000 Wake; at_time 60000 (FnDone (inl "sent"));
    at_time 60050 MinuteReset;
    at_time 60100 Wake; at_time 60100 (FnDone (inl "sent"));
    at_time 60200 Wake; at_time 60200 (FnDone (inl "sent")) ].

(** Two tasks for one recipient, enqueued one after the other. *)
Definition two_for_one_recipient : list Input :=
  [ at_time 1000 (Enqueue "a"); at_time 1000 (Enqueue "a");
    at_time 2900 Wake; at_time 2950 (FnDone (inl "sent"));
    at_time 4950 Wake; at_time 6850 Wake; at_time 6900 (FnDone (inl "sent")) ].

(** ** The counters a caller can read *)

(** [get stats()] *)
Record Stats := mkStats {
  stats_sentThisMinute : Z;
  stats_sentToday : Z;
  stats_queueDepth : nat;
  rateLimitPerMinute : Z;
  rateLimitPerDay : Z
}.

Definition stats (cfg : Config) (s : State) : Stats :=
  {| stats_sentThisMinute := sentThisMinute s;
     stats_sentToday := sentToday s;
     stats_queueDepth := length (queue s);
     rateLimitPerMinute := messagesPerMinute cfg;
     rateLimitPerDay := messagesPerDay cfg |}.

(** The day counter never leaves [0 .. messagesPerDay], and is below the
    limit for as long as the loop holds a task. *)
Definition day_inv (cfg : Config) (s : State) : Prop :=
  0 <= sentToday s /\
  sentToday s <= Z.max 0 (messagesPerDay cfg) /\
  (forall t, pc_task (pc s) = Some t -> sentToday s < messagesPerDay cfg).

(** ** Where the tasks are *)

(** The number of the task whose promise an effect settles. *)
Definition settled_tid (e : Effect) : option nat :=
  match e with
  | Resolved t _ | Rejected t _ => Some (tid t)
  | _ => None
  end.

Definition settled_tids (l : list Effect) : list nat := omap settled_tid l.

(** The number of the task the loop has taken off the queue. *)
Definition held (p : Pc) : list nat :=
  match pc_task p with Some t => [tid t] | None => [] end.

(** The tasks whose operation was called, oldest first. *)
Definition dispatched (s : State) : list Task :=
  omap (fun e => match e with Invoked t _ => Some t | _ => None end) (trace s).

(** ** The order of the dispatches *)

(** [ordered l]: in the effects [l], newest first, every dispatch is of a
    task enqueued after the tasks of all dispatches before it. *)
Fixpoint ordered (l : list Effect) : Prop :=
  match l with
  | [] => True
  | x :: older =>
      match x with
      | Invoked t _ => forall t' d', In (Invoked t' d') older -> (tid t' < tid t)%nat
      | _ => True
      end /\ ordered older
  end.

(** The queue holds the tasks in the order of their numbers, behind the
    task the loop holds, and all of them were enqueued after every task
    dispatched so far. *)
Definition fifo_inv (s : State) : Prop :=
  StronglySorted lt (map tid (queue s)) /\
  Forall (fun q => (tid q < nextTid s)%nat) (queue s) /\
  (forall t, pc_task (pc s) = Some t ->
     (tid t < nextTid s)%nat /\ Forall (fun q => (tid t < tid q)%nat) (queue s)) /\
  (forall t d, In (Invoked t d) (effects s) ->
     (tid t < nextTid s)%nat /\
     Forall (fun q => (tid t < tid q)%nat) (queue s) /\
     match pc s with
     | WaitRecipient t' _ | WaitDelay t' _ => (tid t < tid t')%nat
     | InFlight t' => (tid t <= tid t')%nat
     | _ => True
     end) /\
  ordered (effects s).

(** ** One task at a time *)

Global Instance Task_eq_dec : EqDecision Task.
Proof. solve_decision. Defined.

(** [bracket cur l] reads the effects [l], oldest first, [cur] being the
    task in flight: a dispatch needs no task in flight, the outcome of an
    operation settles the task in flight.  [None]: [l] breaks this. *)
Fixpoint bracket (cur : option Task) (l : list Effect) : option (option Task) :=
  match l with
  | [] => Some cur
  | Invoked t _ :: l' =>
      match cur with
      | None => bracket (Some t) l'
      | Some _ => None
      end
  | Resolved t _ :: l' | Rejected t (OpFailed _) :: l' =>
      match cur with
      | Some t' => if decide (t = t') then bracket None l' else None
      | None => None
      end
  | _ :: l' => bracket cur l'
  end.

(** The task whose operation is running. *)
Definition flying (p : Pc) : option Task :=
  match p with InFlight t => Some t | _ => None end.

(** Neither a dispatch nor the outcome of an operation. *)
Definition is_quiet (e : Effect) : bool :=
  match e with
  | Invoked _ _ | Resolved _ _ | Rejected _ (OpFailed _) => false
  | _ => true
  end.

(** ** The loop and the queue *)

(** [processing] is set exactly while the loop is suspended somewhere, and
    the loop runs as long as there is a task in the queue. *)
Definition running_inv (s : State) : Prop :=
  (processing s = false -> pc s = Idle) /\
  (pc s = Idle -> processing s = false /\ queue s = []).

(** ** The time between two dispatches *)

(** [apart gap l]: in the effects [l], newest first, every dispatch comes
    at least [gap] after every dispatch before it. *)
Fixpoint apart (gap : Z) (l : list Effect) : Prop :=
  match l with
  | [] => True
  | x :: older =>
      match x with
      | Invoked _ d2 => forall t1 d1, In (Invoked t1 d1) older -> d1 + gap <= d2
      | _ => True
      end /\ apart gap older
  end.

(** No dispatch lies in the future, the pacing sleep the loop is in ends
    100 ms or more after the last dispatch, and the dispatches so far are
    100 ms apart. *)
Definition gap_inv (s : State) : Prop :=
  (forall t d, In (Invoked t d) (effects s) -> d <= clock s) /\
  (forall t w, pc s = WaitDelay t w ->
     forall t' d, In (Invoked t' d) (effects s) -> d + 100 <= w) /\
  apart 100 (effects s).

End RateLimiter.

(* ===================================================================== *)
(** * The session manager (session-manager.ts)                            *)
(* ===================================================================== *)

Module SessionManager.

(** The registry, the table of reconnect attempts, the [connection.update]
    handler that [_boot] installs and the five public operations.  The
    handlers for [creds.update] and [messages.upsert] touch none of this
    and are left out, as are [authDir] and [socketConfig], which only reach
    the transport. *)

Inductive SessionStatus :=
| initializing | qr_ready | connected | disconnected | logged_out.

Definition status_eqb (a b : SessionStatus) : bool :=
  match a, b with
  | initializing, initializing | qr_ready, qr_ready | connected, connected
  | disconnected, disconnected | logged_out, logged_out => true
  | _, _ => false
  end.

Record SessionInfo := mkInfo {
  id : string;
  status : SessionStatus;
  qr : option string;
  phoneNumber : option string;
  name : option string;
  connectedAt : option Z;
  error : option string
}.

(** [SessionInfo] objects are shared and mutated in place: they live in a
    heap, and the registry, the socket handlers and the callers of the
    class hold references into it. *)
Abbreviation ref := nat (only parsing).

(** An [ActiveSession]: the reference to its info object and the number of
    its socket ([saveCreds] belongs to the transport). *)
Record ActiveSession := mkSession { info : ref; sock : nat }.

(** [SessionManagerConfig] with the defaults merged in.  [loggedOutCode] is
    [DisconnectReason.loggedOut], declared in ../Types. *)
Record Config := mkConfig {
  autoReconnect : bool;
  maxReconnectAttempts : Z;
  reconnectDelayMs : Z;
  loggedOutCode : Z
}.

(** What [_boot] leaves behind for one socket: the variables [id] and
    [info] its [connection.update] handler closes over, and whether
    [ws.close()] was called on it. *)
Record Socket := mkSocket { s_session : string; s_info : ref; s_closed : bool }.

(** A pending [setTimeout(() => this._boot(id), delay)]. *)
Record Timer := mkTimer { t_session : string; t_delay : Q; t_setAt : Z; t_pending : bool }.

(** What the promise of [waitForConnected] settles with. *)
Inductive Settled :=
| Fulfilled (i : option ref)    (* resolve(this.getInfo(id)) *)
| Timeout                       (* `Session ${id} did not connect within ...` *)
| LoggedOut.                    (* `Session ${id} was logged out` *)

(** One call of [waitForConnected]: its timer ([w_timer]: still armed), its
    two listeners ([w_onConnected], [w_onStatus]: still subscribed) and the
    state of its promise. *)
Record Waiter := mkWaiter {
  w_session : string;
  w_deadline : Z;
  w_timer : bool;
  w_onConnected : bool;
  w_onStatus : bool;
  w_settled : option Settled
}.

(** The events of [SessionEvents] that the class emits. *)
Inductive Emitted :=
| session_status (i : SessionInfo)              (* the copy { ...info } *)
| session_qr (i q : string)
| session_connected (i phone : string)
| session_disconnected (i reason : string)
| session_destroyed (i : string).

Record State := mkState {
  sessions : list (string * ActiveSession);   (* a Map, in insertion order *)
  reconnectAttempts : gmap string nat;
  heap : list SessionInfo;
  socks : list Socket;
  timers : list Timer;
  waiters : list Waiter;
  emitted : list Emitted                      (* newest first *)
}.

Definition empty : State := mkState [] ∅ [] [] [] [] [].

(** ** The readers *)

(** [getInfo(id)]: [this.sessions.get(id)?.info], the object itself. *)
Definition getInfo (st : State) (i : string) : option ref :=
  info <$> map_get i (sessions st).

(** [getSocket(id)] *)
Definition getSocket (st : State) (i : string) : option nat :=
  sock <$> map_get i (sessions st).

(** [listSessions()] *)
Definition listSessions (st : State) : list ref :=
  map (fun kv => info (snd kv)) (sessions st).

Definition hasSession (st : State) (i : string) : bool := map_has i (sessions st).

(** Reading an object through a reference. *)
Definition deref (st : State) (r : ref) : option SessionInfo := heap st !! r.

(** ** Setters *)

Definition set_sessions (m : list (string * ActiveSession)) (st : State) : State :=
  mkState m (reconnectAttempts st) (heap st) (socks st) (timers st) (waiters st) (emitted st).
Definition set_attempts (m : gmap string nat) (st : State) : State :=
  mkState (sessions st) m (heap st) (socks st) (timers st) (waiters st) (emitted st).
Definition set_heap (h : list SessionInfo) (st : State) : State :=
  mkState (sessions st) (reconnectAttempts st) h (socks st) (timers st) (waiters st) (emitted st).
Definition set_socks (l : list Socket) (st : State) : State :=
  mkState (sessions st) (reconnectAttempts st) (heap st) l (timers st) (waiters st) (emitted st).
Definition set_timers (l : list Timer) (st : State) : State :=
  mkState (sessions st) (reconnectAttempts st) (heap st) (socks st) l (waiters st) (emitted st).
Definition set_waiters (l : list Waiter) (st : State) : State :=
  mkState (sessions st) (reconnectAttempts st) (heap st) (socks st) (timers st) l (emitted st).
Definition log (e : Emitted) (st : State) : State :=
  mkState (sessions st) (reconnectAttempts st) (heap st) (socks st) (timers st) (waiters st)
    (e :: emitted st).

(** [info.f = v] for the object behind [r]. *)
Definition mutate (r : ref) (f : SessionInfo -> SessionInfo) (st : State) : State :=
  match heap st !! r with
  | Some i => set_heap (<[r := f i]> (heap st)) st
  | None => st
  end.

Definition with_status (s : SessionStatus) (i : SessionInfo) : SessionInfo :=
  mkInfo (id i) s (qr i) (phoneNumber i) (name i) (connectedAt i) (error i).
Definition with_qr (q : option string) (i : SessionInfo) : SessionInfo :=
  mkInfo (id i) (status i) q (phoneNumber i) (name i) (connectedAt i) (error i).
Definition with_error (e : option string) (i : SessionInfo) : SessionInfo :=
  mkInfo (id i) (status i) (qr i) (phoneNumber i) (name i) (connectedAt i) e.
Definition with_user (p n : option string) (t : Z) (i : SessionInfo) : SessionInfo :=
  mkInfo (id i) (status i) (qr i) p n (Some t) (error i).

(** ** [waitForConnected]'s listeners and the emitter *)

(** [clearTimeout(timer); cleanup(); resolve/reject(...)]; a promise that
    is settled stays as it is. *)
Definition settle (r : Settled) (w : Waiter) : Waiter :=
  mkWaiter (w_session w) (w_deadline w) false false false
    (match w_settled w with Some old => Some old | None => Some r end).

(** [onConnected(connectedId)] *)
Definition onConnected (st : State) (connectedId : string) (w : Waiter) : Waiter :=
  if w_onConnected w && String.eqb connectedId (w_session w)
  then settle (Fulfilled (getInfo st (w_session w))) w
  else w.

(** [onStatus(info)] *)
Definition onStatus (i : SessionInfo) (w : Waiter) : Waiter :=
  if w_onStatus w && String.eqb (id i) (w_session w) && status_eqb (status i) logged_out
  then settle LoggedOut w
  else w.

(** [this.emit(...)]: the event is recorded and the listeners registered by
    [waitForConnected] run, in the order of their registration. *)
Definition emit (e : Emitted) (st : State) : State :=
  let st := log e st in
  match e with
  | session_connected i _ => set_waiters (map (onConnected st i) (waiters st)) st
  | session_status i => set_waiters (map (onStatus i) (waiters st)) st
  | _ => st
  end.

(** [_updateStatus(id, info)] *)
Definition _updateStatus (i : string) (r : ref) (st : State) : State :=
  let st :=
    match map_get i (sessions st) with
    | Some session => set_sessions (map_set i (mkSession r (sock session)) (sessions st)) st
    | None => st
    end in
  match heap st !! r with
  | Some o => emit (session_status o) st
  | None => st
  end.

(** ** [_boot] *)

(** [_boot(id)], once [useMultiFileAuthState] has resolved. *)
Definition _boot (i : string) (st : State) : State :=
  let sk := length (socks st) in
  let '(r, st) :=
    match map_get i (sessions st) with
    | Some session => (info session, st)
    | None => (length (heap st),
               set_heap (heap st ++ [mkInfo i initializing None None None None None]) st)
    end in
  let st := set_sessions (map_set i (mkSession r sk) (sessions st)) st in
  set_socks (socks st ++ [mkSocket i r false]) st.

(** ** The [connection.update] handler *)

Inductive Connection := conn_open | conn_close | conn_connecting.

(** The fields of a [connection.update] that the handler reads:
    [connection], [qr], the [output.statusCode] and the [message] of
    [lastDisconnect.error], and [sock.user] at that moment. *)
Record Update := mkUpdate {
  u_connection : option Connection;
  u_qr : option string;
  u_statusCode : option Z;
  u_message : option string;
  u_userId : option string;
  u_userName : option string
}.

(** [s.split(':')[0]] *)
Fixpoint before_colon (s : string) : string :=
  match s with
  | EmptyString => EmptyString
  | String c rest =>
      if Ascii.eqb c ":"%char then EmptyString else String c (before_colon rest)
  end.

(** The base of [Math.pow(1.5, attempts - 1)]. *)
Definition backoffMultiplier : Q := 3 # 2.

(** [this.config.reconnectDelayMs * Math.pow(1.5, attempts - 1)], exactly;
    the doubles of the code are exact as long as
    [reconnectDelayMs * 3^(attempts - 1)] is below 2^53. *)
Definition reconnectDelay (cfg : Config) (attempts : nat) : Q :=
  (inject_Z (reconnectDelayMs cfg) * backoffMultiplier ^ (Z.of_nat attempts - 1))%Q.

Section Handler.
Variable cfg : Config.
Variable now : Z.
(** The variables the handler closes over. *)
Variable i : string.
Variable r : ref.

(** [if (qr) { ... }] *)
Definition on_qr (u : Update) (st : State) : State :=
  match u_qr u with
  | Some q =>
      if String.eqb q "" then st else
      let st := mutate r (fun o => with_status qr_ready (with_qr (Some q) o)) st in
      let st := _updateStatus i r st in
      emit (session_qr i q) st
  | None => st
  end.

(** [if (connection === 'open') { ... }] *)
Definition on_open (u : Update) (st : State) : State :=
  match u_connection u with
  | Some conn_open =>
      let phone := before_colon <$> u_userId u in
      let st := mutate r (fun o =>
                  with_error None
                    (with_user phone (u_userName u) now
                       (with_status connected (with_qr None o)))) st in
      let st := set_attempts (<[i := 0%nat]> (reconnectAttempts st)) st in
      let st := _updateStatus i r st in
      emit (session_connected i (default "" phone)) st
  | _ => st
  end.

Definition is_loggedOut (u : Update) : bool :=
  match u_statusCode u with
  | Some c => c =? loggedOutCode cfg
  | None => false
  end.

(** [if (connection === 'close') { ... }] *)
Definition on_close (u : Update) (st : State) : State :=
  match u_connection u with
  | Some conn_close =>
      if is_loggedOut u then
        let st := mutate r (fun o =>
                    with_error (Some "Logged out") (with_status logged_out o)) st in
        let st := _updateStatus i r st in
        emit (session_disconnected i "logged_out") st
      else
        let st := mutate r (fun o =>
                    with_error (u_message u) (with_status disconnected o)) st in
        let st := _updateStatus i r st in
        let st := emit (session_disconnected i (default "unknown" (u_message u))) st in
        if autoReconnect cfg && map_has i (sessions st) then
          let attempts := S (default 0%nat (reconnectAttempts st !! i)) in
          let st := set_attempts (<[i := attempts]> (reconnectAttempts st)) st in
          if Z.of_nat attempts <=? maxReconnectAttempts cfg then
            set_timers (timers st ++ [mkTimer i (reconnectDelay cfg attempts) now true]) st
          else st
        else st
  | _ => st
  end.

Definition on_connection_update (u : Update) (st : State) : State :=
  on_close u (on_open u (on_qr u st)).
End Handler.

(** ** The public operations *)

Inductive Failure := AlreadyExists | NotFound | AuthLoadFailed.

(** [createSession(id)]; [authOk] tells whether [useMultiFileAuthState]
    resolves.  The object of the first [_updateStatus] is not registered
    anywhere: only its copy leaves the function, in the event.  The call is
    suspended at [await useMultiFileAuthState] in [_boot], and once more
    until the promise of [_boot] has resolved; this is the call with
    nothing else running while it is suspended.  Its pieces are
    [createSession_call], [_boot] and [createSession_return]. *)
Definition createSession (i : string) (authOk : bool) (st : State)
  : State * (Failure + option ref) :=
  if map_has i (sessions st) then (st, inl AlreadyExists) else
  let st := emit (session_status (mkInfo i initializing None None None None None)) st in
  if authOk then
    let st := _boot i st in (st, inr (getInfo st i))
  else (st, inl AuthLoadFailed).

(** [createSession(id)] up to its first suspension: the test of
    [sessions.has], the first [_updateStatus], and [_boot] up to
    [await useMultiFileAuthState].  [Some]: the call has thrown; [None]: it
    is suspended.  When the auth state has loaded, [_boot] goes on in the
    state the manager is in by then; when it fails to load, the call throws
    and does nothing more. *)
Definition createSession_call (i : string) (st : State) : State * option Failure :=
  if map_has i (sessions st) then (st, Some AlreadyExists)
  else (emit (session_status (mkInfo i initializing None None None None None)) st, None).

(** [return this.getInfo(id)!], in the state the manager is in when the
    promise of [_boot] has resolved. *)
Definition createSession_return (i : string) (st : State) : option ref := getInfo st i.

(** [destroySession(id)] *)
Definition destroySession (i : string) (st : State) : State * (Failure + unit) :=
  match map_get i (sessions st) with
  | None => (st, inl NotFound)
  | Some session =>
      let st :=
        match socks st !! sock session with
        | Some s => set_socks (<[sock session := mkSocket (s_session s) (s_info s) true]> (socks st)) st
        | None => st
        end in
      let st := set_sessions (map_delete i (sessions st)) st in
      let st := set_attempts (delete i (reconnectAttempts st)) st in
      (emit (session_destroyed i) st, inr tt)
  end.

Definition is_connected (st : State) (r : option ref) : bool :=
  match r with
  | Some l => match heap st !! l with
              | Some o => status_eqb (status o) connected
              | None => false
              end
  | None => false
  end.

(** [waitForConnected(id, timeoutMs)]: the new waiter is the last one of
    [waiters]. *)
Definition waitForConnected (now : Z) (i : string) (timeoutMs : Z) (st : State) : State :=
  let r := getInfo st i in
  if is_connected st r
  then set_waiters (waiters st ++ [mkWaiter i now false false false (Some (Fulfilled r))]) st
  else set_waiters (waiters st ++ [mkWaiter i (now + timeoutMs) true true true None]) st.

(** The callback of a waiter's timer. *)
Definition on_wait_timeout (w : Waiter) : Waiter := settle Timeout w.

(** ** The event loop *)

Inductive Event :=
| CreateSession (i : string) (authOk : bool)
| DestroySession (i : string)
| WaitForConnected (i : string) (timeoutMs : Z)
| WaitTimer (w : nat)                       (* the timer of waiter [w] fires *)
| ConnectionUpdate (sk : nat) (u : Update)  (* socket [sk] emits connection.update *)
| ReconnectTimer (k : nat) (authOk : bool). (* the reconnect timer [k] fires *)

(** One step at time [now].  [None]: the event cannot happen (no such
    socket, a timer that is not armed or not due).  A call that throws
    leaves the state it had reached. *)
Definition step (cfg : Config) (now : Z) (e : Event) (st : State) : option State :=
  match e with
  | CreateSession i authOk => Some (fst (createSession i authOk st))
  | DestroySession i => Some (fst (destroySession i st))
  | WaitForConnected i ms => Some (waitForConnected now i ms st)
  | WaitTimer k =>
      match waiters st !! k with
      | Some w =>
          if w_timer w && (w_deadline w <=? now)
          then Some (set_waiters (<[k := on_wait_timeout w]> (waiters st)) st)
          else None
      | None => None
      end
  | ConnectionUpdate sk u =>
      match socks st !! sk with
      | Some s => Some (on_connection_update cfg now (s_session s) (s_info s) u st)
      | None => None
      end
  | ReconnectTimer k authOk =>
      match timers st !! k with
      | Some t =>
          if t_pending t && Qle_bool (inject_Z (t_setAt t) + t_delay t) (inject_Z now)
          then
            let st := set_timers
                        (<[k := mkTimer (t_session t) (t_delay t) (t_setAt t) false]> (timers st))
                        st in
            Some (if authOk then _boot (t_session t) st else st)
          else None
      | None => None
      end
  end.

Fixpoint run (cfg : Config) (evs : list (Z * Event)) (st : State) : option State :=
  match evs with
  | [] => Some st
  | (now, e) :: rest =>
      match step cfg now e st with
      | Some st' => run cfg rest st'
      | None => None
      end
  end.

(** The status of the object behind a reference. *)
Definition status_at (st : State) (r : ref) : option SessionStatus :=
  status <$> heap st !! r.

Definition DEFAULT_CONFIG : Config :=
  {| autoReconnect := true; maxReconnectAttempts := 5; reconnectDelayMs := 3000;
     loggedOutCode := 401 |}.


(** ** What one [connection.update] does to the info object *)

(** The three blocks of the handler, on the object alone. *)
Definition qr_info (u : Update) (o : SessionInfo) : SessionInfo :=
  match u_qr u with
  | Some q => if String.eqb q "" then o else with_status qr_ready (with_qr (Some q) o)
  | None => o
  end.

Definition open_info (now : Z) (u : Update) (o : SessionInfo) : SessionInfo :=
  match u_connection u with
  | Some conn_open =>
      with_error None
        (with_user (before_colon <$> u_userId u) (u_userName u) now
           (with_status connected (with_qr None o)))
  | _ => o
  end.

Definition close_info (cfg : Config) (u : Update) (o : SessionInfo) : SessionInfo :=
  match u_connection u with
  | Some conn_close =>
      if is_loggedOut cfg u
      then with_error (Some "Logged out") (with_status logged_out o)
      else with_error (u_message u) (with_status disconnected o)
  | _ => o
  end.

Definition update_info (cfg : Config) (now : Z) (u : Update) (o : SessionInfo) : SessionInfo :=
  close_info cfg u (open_info now u (qr_info u o)).

(** A heap after the object behind [r], if there is one, went through [f]. *)
Definition mutate_heap (r : ref) (f : SessionInfo -> SessionInfo) (h : list SessionInfo)
  : list SessionInfo :=
  match h !! r with
  | Some o => <[r := f o]> h
  | None => h
  end.

(** The status the handler leaves, given the status it finds. *)
Definition next_status (cfg : Config) (u : Update) (s : SessionStatus) : SessionStatus :=
  match u_connection u with
  | Some conn_close => if is_loggedOut cfg u then logged_out else disconnected
  | Some conn_open => connected
  | _ =>
      match u_qr u with
      | Some q => if String.eqb q "" then s else qr_ready
      | None => s
      end
  end.


(** ** Some updates and runs *)

Definition qr_update (q : string) : Update := mkUpdate None (Some q) None None None None.
Definition open_update : Update :=
  mkUpdate (Some conn_open) None None None (Some "15551234567:7@s.whatsapp.net") (Some "Ada").
Definition close_update (code : Z) : Update :=
  mkUpdate (Some conn_close) None (Some code) (Some "Connection Closed") None None.

(** A session is created and its socket closes with 428; the reconnect
    timer is pending when the session is destroyed. *)
Definition destroyed_while_reconnecting : list (Z * Event) :=
  [ (0, CreateSession "s1" true);
    (10, ConnectionUpdate 0 (close_update 428));
    (20, DestroySession "s1") ].

(** A session is created, its socket closes with 428 and the reconnect
    timer fires. *)
Definition reconnected : list (Z * Event) :=
  [ (0, CreateSession "s1" true);
    (10, ConnectionUpdate 0 (close_update 428));
    (3010, ReconnectTimer 0 true) ].

(** A session is created and its socket closes with the logout code. *)
Definition logged_out_at_once : list (Z * Event) :=
  [ (0, CreateSession "s1" true);
    (10, ConnectionUpdate 0 (close_update 401)) ].

(** Four closes in a row, each followed by the re-boot it schedules. *)
Definition four_closes : list (Z * Event) :=
  [ (0, CreateSession "s1" true);
    (10, ConnectionUpdate 0 (close_update 428));
    (3010, ReconnectTimer 0 true);
    (3020, ConnectionUpdate 1 (close_update 428));
    (7520, ReconnectTimer 1 true);
    (7530, ConnectionUpdate 2 (close_update 428));
    (14280, ReconnectTimer 2 true);
    (14290, ConnectionUpdate 3 (close_update 428)) ].


(** The state a run from the empty manager ends in. *)
Definition after (cfg : Config) (evs : list (Z * Event)) : State :=
  default empty (run cfg evs empty).

(** ** Invariants of the registry *)

(** The object behind [r] is the info of session [i]. *)
Definition owned (st : State) (r : ref) (i : string) : Prop :=
  exists o, heap st !! r = Some o /\ id o = i.

(** The keys of the registry are distinct; the info object a socket's
    handler holds carries the id the handler holds; and every registered
    session has an info object of its id and a socket of its id on which
    [destroySession] has not called [ws.close()]. *)
Definition wf (st : State) : Prop :=
  NoDup (map fst (sessions st)) /\
  (forall sk s, socks st !! sk = Some s -> owned st (s_info s) (s_session s)) /\
  (forall i a, In (i, a) (sessions st) ->
     owned st (info a) i /\
     exists s, socks st !! sock a = Some s /\ s_session s = i /\ s_closed s = false).

(** Every info object of the registry is the one that the handler of a
    socket of its session closes over. *)
Definition live (st : State) : Prop :=
  forall i a, In (i, a) (sessions st) ->
    exists sk s, socks st !! sk = Some s /\ s_session s = i /\ s_info s = info a.

(** A session is created, destroyed and created again, and then the socket
    of the first one reports that it has closed. *)
Definition old_socket_closes : list (Z * Event) :=
  [ (0, CreateSession "s1" true);
    (10, DestroySession "s1");
    (20, CreateSession "s1" true);
    (30, ConnectionUpdate 0 (close_update 428)) ].

(** [session.info = info] in [_updateStatus], on the registry. *)
Definition redirect (i : string) (r : ref) (m : list (string * ActiveSession))
  : list (string * ActiveSession) :=
  match map_get i m with
  | Some a => map_set i (mkSession r (sock a)) m
  | None => m
  end.

(** ** The promises of [waitForConnected] *)

(** A waiter is pending, with its timer armed and both listeners
    subscribed, or settled, with all three released. *)
Definition waiter_ok (w : Waiter) : Prop :=
  (w_settled w = None /\ w_timer w = true /\ w_onConnected w = true /\ w_onStatus w = true)
  \/ (w_settled w <> None /\ w_timer w = false /\ w_onConnected w = false
      /\ w_onStatus w = false).

(** What a step can do to a waiter: nothing, or settle it. *)
Definition evolves (w w' : Waiter) : Prop := w' = w \/ exists r, w' = settle r w.

(** What an event about session [i] can do to the waiters: settle some of
    those that wait for [i]. *)
Definition touches (i : string) (ws ws' : list Waiter) : Prop :=
  Forall2 (fun w w' => evolves w w' /\ (w_session w <> i -> w' = w)) ws ws'.

(** A timer set by the [close] block: its delay is the one of an attempt
    within the limit. *)
Definition scheduled (cfg : Config) (t : Timer) : Prop :=
  exists k : nat, (1 <= k)%nat /\ Z.of_nat k <= maxReconnectAttempts cfg /\
                  t_delay t = reconnectDelay cfg k.

(** ** The order of the events *)

(** What a [session.status] event with the copy [o] shows, for the event
    emitted right after it. *)
Definition announces (e : Emitted) (o : SessionInfo) : Prop :=
  match e with
  | session_qr i q => id o = i /\ status o = qr_ready /\ qr o = Some q
  | session_connected i p =>
      id o = i /\ status o = connected /\ default "" (phoneNumber o) = p /\
      qr o = None /\ error o = None
  | session_disconnected i why =>
      id o = i /\
      ((status o = logged_out /\ why = "logged_out") \/
       (status o = disconnected /\ default "unknown" (error o) = why))
  | _ => True
  end.

(** [announced l]: in the events [l], newest first, every [session.qr],
    [session.connected] and [session.disconnected] comes right after a
    [session.status] of the same session that shows what it tells. *)
Fixpoint announced (l : list Emitted) : Prop :=
  match l with
  | [] => True
  | e :: older =>
      match e with
      | session_status _ | session_destroyed _ => True
      | _ => match older with
             | session_status o :: _ => announces e o
             | _ => False
             end
      end /\ announced older
  end.

End SessionManager.

(* ===================================================================== *)
(** * The webhook bridge (class WebhookBridge)                            *)
(* ===================================================================== *)

Module WebhookBridge.

(** [WebhookConfig].  [headers] and [secret] only shape the request;
    [retries] counts and is a natural number; [onError] and [onSuccess]
    tell whether the callback is there. *)
Record WebhookConfig := mkConfig {
  url : string;
  events : option (list string);
  timeoutMs : option Z;
  retries : option nat;
  retryDelayMs : option Z;
  onError : bool;
  onSuccess : bool
}.

Definition DEFAULT_EVENTS : list string :=
  [ "messages.upsert"; "messages.update"; "messages.delete"; "message-receipt.update";
    "contacts.upsert"; "contacts.update"; "chats.upsert"; "chats.update";
    "groups.upsert"; "groups.update"; "group-participants.update"; "presence.update";
    "call" ].

(** The registry [configs]. *)
Record State := mkState { configs : list (string * WebhookConfig) }.

Definition or_default {A} (d : A) (o : option A) : option A :=
  match o with Some x => Some x | None => Some d end.

(** [addEndpoint(id, config)]: the defaults, overridden by [config]. *)
Definition addEndpoint (i : string) (c : WebhookConfig) (st : State) : State :=
  mkState (map_set i
    (mkConfig (url c) (or_default DEFAULT_EVENTS (events c)) (or_default 10000 (timeoutMs c))
       (or_default 3%nat (retries c)) (or_default 1000 (retryDelayMs c))
       (onError c) (onSuccess c))
    (configs st)).

(** [removeEndpoint(id)] *)
Definition removeEndpoint (i : string) (st : State) : State * bool :=
  (mkState (map_delete i (configs st)), map_has i (configs st)).

(** What happens to one request. *)
Inductive Response :=
| HttpStatus (code : option Z)      (* the response callback, with res.statusCode *)
| RequestTimeout                    (* the 'timeout' event *)
| RequestError (msg : string).      (* the 'error' event *)

(** What the promise of [_httpPost] is rejected with. *)
Inductive PostError :=
| HttpError (code : option Z)       (* `Webhook HTTP ${res.statusCode ?? 'unknown'}` *)
| TimedOut                          (* 'Webhook request timed out' *)
| NetError (msg : string).

(** [_httpPost]: the status code, or the error. *)
Definition _httpPost (r : Response) : PostError + Z :=
  match r with
  | HttpStatus (Some c) =>
      if negb (c =? 0) && (200 <=? c) && (c <? 300) then inr c else inl (HttpError (Some c))
  | HttpStatus None => inl (HttpError None)
  | RequestTimeout => inl TimedOut
  | RequestError m => inl (NetError m)
  end.

(** The receiving end: how long the request of attempt [n] is pending, in
    milliseconds, and how it ends. *)
Definition Remote := nat -> nat * Response.

(** What one delivery does, in order. *)
Inductive Action :=
| Post (attempt : nat) (start finish : Z)   (* await this._httpPost(...) *)
| Sleep (ms : Z)                            (* await new Promise(r => setTimeout(r, delay)) *)
| OnSuccess (code : Z)                      (* config.onSuccess?.(event, statusCode) *)
| OnError (err : PostError).                (* config.onError?.(event, err) *)

Definition retries_of (c : WebhookConfig) : nat := default 3%nat (retries c).
Definition retryDelay_of (c : WebhookConfig) : Z := default 1000 (retryDelayMs c).

(** [(config.retryDelayMs ?? 1000) * Math.pow(2, attempt)] *)
Definition backoff (c : WebhookConfig) (attempt : nat) : Z :=
  retryDelay_of c * 2 ^ Z.of_nat attempt.

(** [setTimeout(r, delay)]: how many milliseconds later the timer is due.
    Node sets a delay that is not between 1 and 2^31 - 1 to 1. *)
Definition setTimeout_after (delay : Z) : Z :=
  if (1 <=? delay) && (delay <=? 2147483647) then delay else 1.

(** [_sendWithRetry(id, config, event, payload, attempt)], started at time
    [now]: what it does, and the error it throws if it throws. *)
Equations? _sendWithRetry (c : WebhookConfig) (remote : Remote) (now : Z) (attempt : nat)
  : list Action * option PostError by wf (retries_of c - attempt)%nat lt :=
_sendWithRetry c remote now attempt with _httpPost (snd (remote attempt)) => {
  | inr code =>
      (Post attempt now (now + Z.of_nat (fst (remote attempt)))
         :: (if onSuccess c then [OnSuccess code] else []), None)
  | inl err with lt_dec attempt (retries_of c) => {
    | left _ =>
        let finish := now + Z.of_nat (fst (remote attempt)) in
        let delay := backoff c attempt in
        let rest := _sendWithRetry c remote (finish + setTimeout_after delay) (S attempt) in
        (Post attempt now finish :: Sleep delay :: fst rest, snd rest)
    | right _ =>
        ([Post attempt now (now + Z.of_nat (fst (remote attempt)))], Some err) } }.
Proof. lia. Qed.

(** [this._sendWithRetry(id, config, event, payload).catch(err => ...)] *)
Definition deliver (c : WebhookConfig) (remote : Remote) (now : Z) : list Action :=
  let r := _sendWithRetry c remote now 0 in
  match snd r with
  | None => fst r
  | Some err => fst r ++ (if onError c then [OnError err] else [])
  end.

Definition subscribed (c : WebhookConfig) (event : string) : bool :=
  existsb (String.eqb event) (default DEFAULT_EVENTS (events c)).

(** [_dispatch(event, data)] at time [now]: what is done for each endpoint,
    the endpoints in the order of the registry.  The deliveries run
    concurrently, each against its own receiving end. *)
Definition _dispatch (st : State) (remotes : string -> Remote) (event : string) (now : Z)
  : list (string * list Action) :=
  omap (fun kv : string * WebhookConfig =>
          if subscribed (snd kv) event
          then Some (fst kv, deliver (snd kv) (remotes (fst kv)) now)
          else None)
       (configs st).

(** A receiving end that fails every request. *)
Definition always_fails (remote : Remote) : Prop :=
  forall n, exists e, _httpPost (snd (remote n)) = inl e.

(** ** Reading a delivery *)

Definition posts (l : list Action) : list (nat * Z * Z) :=
  omap (fun a => match a with Post n s f => Some (n, s, f) | _ => None end) l.
Definition sleeps (l : list Action) : list Z :=
  omap (fun a => match a with Sleep d => Some d | _ => None end) l.
Definition errors (l : list Action) : list PostError :=
  omap (fun a => match a with OnError e => Some e | _ => None end) l.

(** No request is issued before the one before it has ended. *)
Fixpoint sequential (l : list (nat * Z * Z)) : Prop :=
  match l with
  | [] => True
  | (_, s, f) :: rest =>
      s <= f /\
      match rest with
      | [] => True
      | (_, s', _) :: _ => f <= s'
      end /\ sequential rest
  end.

(** ** An endpoint that answers 500 to every request *)

Definition failing : Remote := fun _ => (5%nat, HttpStatus (Some 500)).
Definition hook : WebhookConfig :=
  mkConfig "http://localhost:9/hook" None None None None true false.
Definition registered : WebhookConfig :=
  mkConfig "http://localhost:9/hook" (Some DEFAULT_EVENTS) (Some 10000) (Some 3%nat)
    (Some 1000) true false.

(** An endpoint for calls only, with five retries that start 250 ms apart,
    and one that retries at once. *)
Definition patient : WebhookConfig :=
  mkConfig "http://localhost:9/calls" (Some ["call"]) None (Some 5%nat) (Some 250) true true.
Definition hasty : WebhookConfig :=
  mkConfig "http://localhost:9/hook" None None None (Some 0) true false.


(** ** More readings of a delivery *)

Definition successes (l : list Action) : list Z :=
  omap (fun a => match a with OnSuccess c => Some c | _ => None end) l.

(** The attempt numbers of the requests of a delivery. *)
Definition attempts (l : list Action) : list nat := map (fun p => fst (fst p)) (posts l).

(** ** The registry over time *)

(** The calls that change the registry. *)
Inductive Op :=
| AddEndpoint (i : string) (c : WebhookConfig)
| RemoveEndpoint (i : string).

Definition apply_op (o : Op) (st : State) : State :=
  match o with
  | AddEndpoint i c => addEndpoint i c st
  | RemoveEndpoint i => fst (removeEndpoint i st)
  end.

(** The bridge after a sequence of calls, the first call first. *)
Definition after_ops (ops : list Op) : State :=
  fold_left (fun st o => apply_op o st) ops (mkState []).

(** What [addEndpoint] stores for [c]. *)
Definition merged (c : WebhookConfig) : WebhookConfig :=
  mkConfig (url c) (Some (default DEFAULT_EVENTS (events c))) (Some (default 10000 (timeoutMs c)))
    (Some (default 3%nat (retries c))) (Some (default 1000 (retryDelayMs c)))
    (onError c) (onSuccess c).

End WebhookBridge.

(* ===================================================================== *)
(** * The REST server's use of the session manager (class ApiServer)      *)
(* ===================================================================== *)

Module ApiServer.
Import SessionManager.

(** [_requireSocket(id, res)]: the socket to send through, or the status
    of the error response, 404 for an id that is not registered and 409
    for a session that is not connected. *)
Definition _requireSocket (st : State) (i : string) : Z + nat :=
  match getSocket st i with
  | None => inl 404
  | Some sk => if is_connected st (getInfo st i) then inr sk else inl 409
  end.

(** [_createSession] under the [try] of [_handleRequest], up to the
    suspension of [createSession]; [i] is the [id] of the body.  [Some]:
    the response, 400 without an id and 500 when the manager throws;
    [None]: the handler is suspended. *)
Definition _createSession_call (st : State) (i : option string) : State * option Z :=
  match i with
  | None => (st, Some 400)
  | Some i =>
      if String.eqb i "" then (st, Some 400) else
      match createSession_call i st with
      | (st', Some _) => (st', Some 500)
      | (st', None) => (st', None)
      end
  end.

(** The rest of the handler, in the state the manager is in when the
    auth state has loaded ([authOk]) or failed to: [_boot] goes on and the
    response is 201, with what [createSession] returns, or [createSession]
    throws and the response is 500. *)
Definition _createSession_resume (st : State) (i : string) (authOk : bool) : State * Z :=
  if authOk then (_boot i st, 201) else (st, 500).

(** [_getSession]: the status of the response and the info it carries. *)
Definition _getSession (st : State) (i : string) : Z * option ref :=
  match getInfo st i with
  | None => (404, None)
  | Some r => (200, Some r)
  end.

(** [_destroySession] under the [try] of [_handleRequest]: 200, or 500 when
    the manager throws. *)
Definition _destroySession (st : State) (i : string) : State * Z :=
  match destroySession i st with
  | (st', inr _) => (st', 200)
  | (st', inl _) => (st', 500)
  end.

End ApiServer.

(* ===================================================================== *)
(** * Properties of the rate-limited queue                                *)
(* ===================================================================== *)

Module RateLimiterSpec.
Import RateLimiter.

Section Runs.
Variable cfg : Config.
Variable env : Env.

Lemma run_app a b s :
  run cfg env (a ++ b) s =
  match run cfg env a s with Some s' => run cfg env b s' | None => None end.
Proof.
  revert s. induction a as [|i a IH]; intros s; simpl; [reflexivity|].
  destruct (step cfg env i s); [apply IH | reflexivity].
Qed.

(** A property that every step keeps holds all along a run. *)
Lemma run_invariant (P : State -> Prop) :
  (forall i s s', P s -> step cfg env i s = Some s' -> P s') ->
  forall ins s s', P s -> run cfg env ins s = Some s' -> P s'.
Proof.
  intros Hstep ins. induction ins as [|i ins IH]; intros s s' HP Hrun; simpl in Hrun.
  - congruence.
  - destruct (step cfg env i s) as [s1|] eqn:E; [|discriminate].
    eapply IH; [|exact Hrun]. eapply Hstep; eassumption.
Qed.
End Runs.

(** ** What [loop_head] leaves *)

Lemma loop_head_cases cfg env now r1 r2 s :
  let s' := loop_head cfg env now r1 r2 s in
  sentThisMinute s' = sentThisMinute s /\ sentToday s' = sentToday s /\
  lastSentAt s' = lastSentAt s /\ clock s' = clock s /\ nextTid s' = nextTid s /\
  minuteResetAt s' = minuteResetAt s /\ dayResetAt s' = dayResetAt s /\
  ( (queue s = [] /\ pc s' = Idle /\ processing s' = false /\ queue s' = [] /\
     effects s' = effects s)
  \/ (exists t rest, queue s = t :: rest /\ processing s' = true /\
      ( (messagesPerDay cfg <= sentToday s /\ queue s' = queue s /\
         pc s' = WaitMidnight (now + msToMidnight env now) /\
         effects s' = OnDailyLimitReached (jid t) :: effects s)
      \/ (sentToday s < messagesPerDay cfg /\ messagesPerMinute cfg <= sentThisMinute s /\
          queue s' = queue s /\ pc s' = WaitMinute (now + _nextMinuteMs now) /\
          effects s' = effects s)
      \/ (sentToday s < messagesPerDay cfg /\ sentThisMinute s < messagesPerMinute cfg /\
          queue s' = rest /\ effects s' = effects s /\
          ( (exists l, lastSentAt s !! jid t = Some l /\ l <> 0 /\
               now - l < perRecipientDelayMs cfg /\
               pc s' = WaitRecipient t (l + perRecipientDelayMs cfg))
          \/ ((forall l, lastSentAt s !! jid t = Some l ->
                 l = 0 \/ l + perRecipientDelayMs cfg <= now) /\
              pc s' = WaitDelay t (now + _randomDelay cfg r1 r2))))))).
Proof.
  unfold loop_head. destruct (queue s) as [|t rest] eqn:Hq; cbn.
  - repeat split; try reflexivity. left. rewrite Hq. repeat split; reflexivity.
  - destruct (Z.geb_spec (sentToday s) (messagesPerDay cfg)).
    { cbn. repeat split; try reflexivity. right. exists t, rest. rewrite Hq.
      repeat split; try reflexivity. left. repeat split; try reflexivity. lia. }
    destruct (Z.geb_spec (sentThisMinute s) (messagesPerMinute cfg)).
    { cbn. repeat split; try reflexivity. right. exists t, rest. rewrite Hq.
      repeat split; try reflexivity. right. left. repeat split; try reflexivity; lia. }
    destruct (lastSentAt s !! jid t) as [l|] eqn:Hl.
    + destruct (Z.eqb_spec l 0); cbn.
      * repeat split; try reflexivity. right. exists t, rest.
        repeat split; try reflexivity. right. right. repeat split; try reflexivity; try lia.
        right. split; [|reflexivity]. intros l' Hl'. rewrite Hl in Hl'. injection Hl' as <-. left; assumption.
      * destruct (Z.ltb_spec (now - l) (perRecipientDelayMs cfg)); cbn.
        -- repeat split; try reflexivity. right. exists t, rest.
           repeat split; try reflexivity. right. right. repeat split; try reflexivity; try lia.
           left. exists l. repeat split; try assumption. f_equal. lia.
        -- repeat split; try reflexivity. right. exists t, rest.
           repeat split; try reflexivity. right. right. repeat split; try reflexivity; try lia.
           right. split; [|reflexivity]. intros l' Hl'. rewrite Hl in Hl'. injection Hl' as <-. right. lia.
    + cbn. repeat split; try reflexivity. right. exists t, rest.
      repeat split; try reflexivity. right. right. repeat split; try reflexivity; try lia.
      right. split; [|reflexivity]. intros l' Hl'. rewrite Hl in Hl'. discriminate.
Qed.

Lemma randomDelay_min cfg r1 r2 : 100 <= _randomDelay cfg r1 r2.
Proof. unfold _randomDelay. lia. Qed.


(** ** The minute budget *)

Lemma budget_loop_head cfg env now r1 r2 s :
  0 <= sentThisMinute s -> sentThisMinute s <= Z.max 0 (messagesPerMinute cfg) ->
  budget_inv cfg (loop_head cfg env now r1 r2 s).
Proof.
  intros H0 H1.
  destruct (loop_head_cases cfg env now r1 r2 s) as (Hm & _ & _ & _ & _ & _ & _ & Hc).
  unfold budget_inv. rewrite Hm. repeat split; try assumption.
  intros t Ht.
  destruct Hc as [(_ & Hpc & _) | (t0 & rest & _ & _ & [Hc | [Hc | Hc]])].
  - rewrite Hpc in Ht. discriminate.
  - destruct Hc as (_ & _ & Hpc & _). rewrite Hpc in Ht. discriminate.
  - destruct Hc as (_ & _ & _ & Hpc & _). rewrite Hpc in Ht. discriminate.
  - destruct Hc as (_ & Hlt & _). exact Hlt.
Qed.

Ltac unfold_step H i s :=
  unfold step in H;
  destruct (Z.ltb_spec (at_ i) (clock s)); [discriminate|];
  destruct (what i) eqn:?.

Lemma budget_step cfg env i s s' :
  budget_inv cfg s -> step cfg env i s = Some s' -> budget_inv cfg s'.
Proof.
  intros (H0 & H1 & H2) H. unfold_step H i s.
  - (* enqueue *)
    injection H as <-. unfold enqueue, _process. cbn.
    destruct (processing s) eqn:Hp; cbn.
    + split; [|split]; cbn; assumption.
    + apply budget_loop_head; cbn; assumption.
  - injection H as <-. split; [|split]; cbn; assumption.
  - cbn in H. destruct (minuteResetAt s <=? at_ i); [|discriminate].
    injection H as <-. split; [|split]; cbn; try lia.
    intros t Ht. specialize (H2 t Ht). lia.
  - cbn in H. destruct (dayResetAt s <=? at_ i); [|discriminate].
    injection H as <-. split; [|split]; cbn; assumption.
  - cbn in H. destruct (pc s) as [|w|w|t w|t w|t] eqn:Hpc; try discriminate;
      destruct (w <=? at_ i); try discriminate; injection H as <-.
    + apply budget_loop_head; cbn; assumption.
    + apply budget_loop_head; cbn; assumption.
    + split; [|split]; cbn; assumption.
    + split; [|split]; cbn; assumption.
  - cbn in H. destruct (pc s) as [|w|w|t w|t w|t] eqn:Hpc; try discriminate.
    injection H as <-. specialize (H2 t eq_refl).
    destruct r as [v|e]; apply budget_loop_head; cbn; lia.
Qed.

(** ** Dispatches between two resets of the minute counter *)

Lemma coherent_loop_head cfg env now r1 r2 s :
  coherent (loop_head cfg env now r1 r2 s).
Proof.
  destruct (loop_head_cases cfg env now r1 r2 s) as (_ & _ & _ & _ & _ & _ & _ & Hc).
  unfold coherent.
  destruct Hc as [(_ & Hpc & _) | (t0 & rest & _ & Hp & _)]; [intros _; exact Hpc|].
  rewrite Hp. discriminate.
Qed.

Lemma coherent_step cfg env i s s' :
  coherent s -> step cfg env i s = Some s' -> coherent s'.
Proof.
  unfold coherent at 1. intros Hc H. unfold_step H i s.
  - injection H as <-. unfold enqueue, _process. cbn.
    destruct (processing s) eqn:Hp; cbn; [discriminate | apply coherent_loop_head].
  - injection H as <-. exact Hc.
  - cbn in H. destruct (minuteResetAt s <=? at_ i); [|discriminate].
    injection H as <-. exact Hc.
  - cbn in H. destruct (dayResetAt s <=? at_ i); [|discriminate].
    injection H as <-. exact Hc.
  - cbn in H. destruct (pc s) as [|w|w|t w|t w|t] eqn:Hpc; try discriminate;
      destruct (w <=? at_ i); try discriminate; injection H as <-;
      try apply coherent_loop_head; discriminate.
  - cbn in H. destruct (pc s) as [|w|w|t w|t w|t] eqn:Hpc; try discriminate.
    injection H as <-. apply coherent_loop_head.
Qed.

Lemma invoked_app a b : invoked (a ++ b) = invoked a + invoked b.
Proof. unfold invoked. rewrite List.filter_app, length_app. lia. Qed.

Lemma invoked_rejected q :
  invoked (rev (map (fun t => Rejected t QueueCleared) q)) = 0.
Proof.
  induction q as [|t q IH]; [reflexivity|].
  simpl. rewrite invoked_app, IH. reflexivity.
Qed.

Lemma loop_head_count cfg env now r1 r2 s :
  let s' := loop_head cfg env now r1 r2 s in
  exists new, effects s' = new ++ effects s /\ invoked new = 0 /\
    in_flight (pc s') = 0 /\ sentThisMinute s' = sentThisMinute s.
Proof.
  destruct (loop_head_cases cfg env now r1 r2 s) as (Hm & _ & _ & _ & _ & _ & _ & Hc).
  cbv zeta.
  destruct Hc as [(_ & Hpc & _ & _ & He) | (t0 & rest & _ & _ & [Hc | [Hc | Hc]])].
  - exists []. rewrite He, Hpc. auto.
  - destruct Hc as (_ & _ & Hpc & He). eexists [_]. rewrite He, Hpc. auto.
  - destruct Hc as (_ & _ & _ & Hpc & He). exists []. rewrite He, Hpc. auto.
  - destruct Hc as (_ & _ & _ & He & [(l & _ & _ & _ & Hpc) | (_ & Hpc)]);
      exists []; rewrite He, Hpc; auto.
Qed.

(** Over a step that is neither a minute reset nor a failure, every new
    dispatch is paid for by the counter or by the task in flight. *)
Lemma budget_step_count cfg env i s s' :
  coherent s ->
  step cfg env i s = Some s' ->
  what i <> MinuteReset -> (forall e, what i <> FnDone (inr e)) ->
  exists new, effects s' = new ++ effects s /\
    sentThisMinute s' + in_flight (pc s') =
    sentThisMinute s + in_flight (pc s) + invoked new.
Proof.
  intros Hc H Hnr Hnf. unfold_step H i s.
  - injection H as <-. unfold enqueue, _process. cbn.
    destruct (processing s) eqn:Hp; cbn.
    + eexists [_]. split; [reflexivity|]. unfold invoked; cbn; lia.
    + rewrite (Hc Hp).
      match goal with |- context [loop_head ?c ?e ?n ?a ?b ?x] =>
        destruct (loop_head_count c e n a b x) as (new & He & Hi & Hf & Hm) end.
      cbv zeta in *. rewrite He, Hf, Hm. cbn.
      eexists (new ++ [_]). rewrite <- app_assoc. split; [reflexivity|].
      rewrite invoked_app, Hi. unfold invoked; cbn; lia.
  - injection H as <-. cbn. eexists. split; [reflexivity|].
    rewrite invoked_rejected. lia.
  - congruence.
  - cbn in H. destruct (dayResetAt s <=? at_ i); [|discriminate].
    injection H as <-. exists []. cbn. split; [reflexivity|]. unfold invoked; cbn; lia.
  - cbn in H. destruct (pc s) as [|w|w|t w|t w|t] eqn:Hpc; try discriminate;
      destruct (w <=? at_ i); try discriminate; injection H as <-.
    1,2: match goal with |- context [loop_head ?c ?e ?n ?a ?b ?x] =>
        destruct (loop_head_count c e n a b x) as (new & He & Hi & Hf & Hm) end;
      cbv zeta in *; rewrite He, Hf, Hm; cbn;
      exists new; split; [reflexivity|]; rewrite Hi; lia.
    + exists []. cbn. split; [reflexivity|]. unfold invoked; cbn; lia.
    + eexists [_]. cbn. split; [reflexivity|]. unfold invoked; cbn; lia.
  - cbn in H. destruct (pc s) as [|w|w|t w|t w|t] eqn:Hpc; try discriminate.
    injection H as <-. destruct r as [v|e]; [|exfalso; eapply Hnf; reflexivity].
    match goal with |- context [loop_head ?c ?e ?n ?a ?b ?x] =>
      destruct (loop_head_count c e n a b x) as (new & He & Hi & Hf & Hm) end.
    cbv zeta in *. rewrite He, Hf, Hm. cbn.
    eexists (new ++ [_]). rewrite <- app_assoc. split; [reflexivity|].
    rewrite invoked_app, Hi. unfold invoked; cbn; lia.
Qed.

Lemma budget_run_count cfg env seg : forall s s',
  coherent s ->
  run cfg env seg s = Some s' ->
  Forall (fun i => what i <> MinuteReset /\ forall e, what i <> FnDone (inr e)) seg ->
  exists new, effects s' = new ++ effects s /\
    sentThisMinute s' + in_flight (pc s') =
    sentThisMinute s + in_flight (pc s) + invoked new.
Proof.
  induction seg as [|i seg IH]; intros s s' Hc Hrun Hall; simpl in Hrun.
  - injection Hrun as <-. exists []. split; [reflexivity|]. unfold invoked; cbn; lia.
  - destruct (step cfg env i s) as [s1|] eqn:E; [|discriminate].
    apply Forall_cons in Hall. destruct Hall as ((Hnr & Hnf) & Hall).
    destruct (budget_step_count cfg env i s s1 Hc E Hnr Hnf) as (n1 & He1 & Hm1).
    destruct (IH s1 s' (coherent_step _ _ _ _ _ Hc E) Hrun Hall) as (n2 & He2 & Hm2).
    exists (n2 ++ n1). rewrite He2, He1, app_assoc. split; [reflexivity|].
    rewrite invoked_app. lia.
Qed.

Lemma init_budget cfg env now0 : budget_inv cfg (init env now0) /\ coherent (init env now0).
Proof.
  split; [|intros _; reflexivity].
  split; [|split]; cbn; try lia. discriminate.
Qed.

Lemma reachable_budget cfg env now0 ins s :
  run cfg env ins (init env now0) = Some s -> budget_inv cfg s /\ coherent s.
Proof.
  apply (run_invariant cfg env (fun s => budget_inv cfg s /\ coherent s)).
  - intros i s0 s1 (Hb & Hc) Hs. split.
    + eapply budget_step; eassumption.
    + eapply coherent_step; eassumption.
  - apply init_budget.
Qed.

(** The first reset of the minute counter is due at the next minute
    boundary of the clock, and each later one 60 seconds after the one
    before it ran ([minute_reset]). *)
Lemma first_reset_at_minute_boundary env now0 :
  0 <= now0 ->
  exists m, minuteResetAt (init env now0) = 60000 * m /\
    now0 < 60000 * m <= now0 + 60000.
Proof.
  intros H0. cbn. exists (now0 ÷ 60000 + 1).
  pose proof (Z.quot_rem' now0 60000) as Hq.
  pose proof (Z.rem_bound_pos now0 60000 H0 ltac:(lia)) as Hr.
  lia.
Qed.

(** Only the minute timer moves the time at which it is due next. *)
Lemma minuteResetAt_step cfg env i s s' :
  step cfg env i s = Some s' -> what i <> MinuteReset ->
  minuteResetAt s' = minuteResetAt s.
Proof.
  intros H Hnr. unfold_step H i s.
  - injection H as <-. unfold enqueue, _process. cbn.
    destruct (processing s); cbn; [reflexivity|].
    match goal with |- context [loop_head ?c ?e ?n ?a ?b ?x] =>
      destruct (loop_head_cases c e n a b x) as (_ & _ & _ & _ & _ & Hm & _) end.
    rewrite Hm. reflexivity.
  - injection H as <-. reflexivity.
  - congruence.
  - cbn in H. destruct (dayResetAt s <=? at_ i); [|discriminate].
    injection H as <-. reflexivity.
  - cbn in H. destruct (pc s) as [|w|w|t w|t w|t] eqn:Hpc; try discriminate;
      destruct (w <=? at_ i); try discriminate; injection H as <-; try reflexivity;
      match goal with |- context [loop_head ?c ?e ?n ?a ?b ?x] =>
        destruct (loop_head_cases c e n a b x) as (_ & _ & _ & _ & _ & Hm & _) end;
      rewrite Hm; reflexivity.
  - cbn in H. destruct (pc s) as [|w|w|t w|t w|t] eqn:Hpc; try discriminate.
    injection H as <-.
    match goal with |- context [loop_head ?c ?e ?n ?a ?b ?x] =>
      destruct (loop_head_cases c e n a b x) as (_ & _ & _ & _ & _ & Hm & _) end.
    rewrite Hm. destruct r; reflexivity.
Qed.

Lemma minuteResetAt_run cfg env seg : forall s s',
  run cfg env seg s = Some s' ->
  Forall (fun i => what i <> MinuteReset) seg ->
  minuteResetAt s' = minuteResetAt s.
Proof.
  induction seg as [|i seg IH]; intros s s' Hrun Hall; simpl in Hrun.
  - injection Hrun as <-. reflexivity.
  - destruct (step cfg env i s) as [s1|] eqn:E; [|discriminate].
    apply Forall_cons in Hall. destruct Hall as (Hnr & Hall).
    rewrite (IH s1 s' Hrun Hall). eapply minuteResetAt_step; eassumption.
Qed.

(** C3, as the code has it: between two resets of the minute counter no
    more than [messagesPerMinute] = 2 tasks are dispatched when every
    dispatched task resolves.  [pre] is any run of the queue up to some
    state, [seg] any continuation in which the minute timer does not fire.
    The resets are made by the minute timer: the first is due at the next
    minute boundary of the clock, nothing but the timer moves the time it
    is due, and each time it runs, at its due time or later, it puts the
    counter back to 0, dispatches nothing and is due again 60 seconds after
    it ran. *)
Theorem two_dispatches_between_minute_resets cfg env now0 pre seg s s' :
  messagesPerMinute cfg = 2 ->
  0 <= now0 ->
  run cfg env pre (init env now0) = Some s ->
  run cfg env seg s = Some s' ->
  Forall (fun i => what i <> MinuteReset /\ forall e, what i <> FnDone (inr e)) seg ->
  (exists new, effects s' = new ++ effects s /\
     (length (List.filter is_invoked new) <= 2)%nat) /\
  (exists m, minuteResetAt (init env now0) = 60000 * m /\
     now0 < 60000 * m <= now0 + 60000) /\
  minuteResetAt s' = minuteResetAt s /\
  (forall i s'', what i = MinuteReset -> step cfg env i s' = Some s'' ->
     minuteResetAt s' <= at_ i /\ sentThisMinute s'' = 0 /\
     minuteResetAt s'' = at_ i + 60000 /\ effects s'' = effects s').
Proof.
  intros Hlim Hnow Hpre Hseg Hall.
  refine (conj _ (conj (first_reset_at_minute_boundary env now0 Hnow) (conj _ _))).
  - destruct (reachable_budget _ _ _ _ _ Hpre) as ((H0 & _ & _) & Hc).
    assert (Hfull : run cfg env (pre ++ seg) (init env now0) = Some s')
      by (rewrite run_app, Hpre; exact Hseg).
    destruct (reachable_budget _ _ _ _ _ Hfull) as ((_ & H1 & H2) & _).
    destruct (budget_run_count cfg env seg s s' Hc Hseg Hall) as (new & He & Hm).
    exists new. split; [exact He|].
    assert (sentThisMinute s' + in_flight (pc s') <= 2).
    { destruct (pc s') as [|w|w|t w|t w|t] eqn:Hpc; cbn; try lia.
      specialize (H2 t eq_refl). lia. }
    assert (0 <= in_flight (pc s)) by (destruct (pc s); cbn; lia).
    unfold invoked in Hm. lia.
  - apply (minuteResetAt_run cfg env seg); [exact Hseg|].
    eapply Forall_impl; [exact Hall|]. cbn. tauto.
  - intros i s'' Hi Hstep. unfold step in Hstep. rewrite Hi in Hstep.
    destruct (Z.ltb_spec (at_ i) (clock s')); [discriminate|]. cbn in Hstep.
    destruct (Z.leb_spec (minuteResetAt s') (at_ i)); [|discriminate].
    injection Hstep as <-. cbn. auto.
Qed.

Lemma two_dispatches_between_minute_resets_witness :
  let s := default (init utc 59000)
             (run two_per_minute utc (firstn 8 five_instant_tasks) (init utc 59000)) in
  let s' := default (init utc 59000)
              (run two_per_minute utc (firstn 12 five_instant_tasks) (init utc 59000)) in
  (exists new, effects s' = new ++ effects s /\
     (length (List.filter is_invoked new) <= 2)%nat) /\
  (exists m, minuteResetAt (init utc 59000) = 60000 * m /\
     59000 < 60000 * m <= 59000 + 60000) /\
  minuteResetAt s' = minuteResetAt s /\
  (forall i s'', what i = MinuteReset -> step two_per_minute utc i s' = Some s'' ->
     minuteResetAt s' <= at_ i /\ sentThisMinute s'' = 0 /\
     minuteResetAt s'' = at_ i + 60000 /\ effects s'' = effects s').
Proof.
  apply (two_dispatches_between_minute_resets two_per_minute utc 59000
           (firstn 8 five_instant_tasks) (skipn 8 (firstn 12 five_instant_tasks))).
  - reflexivity.
  - vm_compute. discriminate.
  - vm_compute. reflexivity.
  - vm_compute. reflexivity.
  - repeat constructor; cbn; congruence.
Defined.

(** C3, as the specification has it, fails: the five tasks of
    [five_instant_tasks] are dispatched at 59.950 s, 60.050 s and 60.150 s,
    on both sides of the reset at 60.000 s, and then at 120.100 s and
    120.200 s: three dispatches in the 60 seconds from 59.950 s on. *)
Lemma three_dispatches_in_a_rolling_minute :
  exists s,
    run two_per_minute utc five_instant_tasks (init utc 59000) = Some s /\
    dispatch_times s = [59950; 60050; 60150; 120100; 120200] /\
    queue s = [] /\
    ~ (forall from, (dispatches_in_window from s <= 2)%nat).
Proof.
  eexists. split; [vm_compute; reflexivity|].
  split; [vm_compute; reflexivity|].
  split; [reflexivity|].
  intros H. specialize (H 59950). vm_compute in H. lia.
Qed.

(** Nor does a wall-clock minute hold two dispatches at most once the
    minute timer has run late: with the reset of 60.000 s made at 60.050 s,
    three tasks are dispatched at 60.000 s, 60.100 s and 60.200 s. *)
Lemma three_dispatches_in_a_wall_clock_minute :
  exists s,
    run two_per_minute utc late_reset (init utc 59000) = Some s /\
    minuteResetAt (init utc 59000) = 60000 /\
    dispatch_times s = [60000; 60100; 60200] /\
    dispatches_in_window 60000 s = 3%nat.
Proof.
  eexists. split; [vm_compute; reflexivity|].
  split; [reflexivity|]. split; vm_compute; reflexivity.
Qed.

(** ** [clear] and the task in flight *)

Lemma tids_loop_head cfg env now r1 r2 s :
  NoDup (map tid (queue s)) ->
  Forall (fun t => (tid t < nextTid s)%nat) (queue s) ->
  tids_inv (loop_head cfg env now r1 r2 s).
Proof.
  intros Hnd Hall.
  destruct (loop_head_cases cfg env now r1 r2 s) as (_ & _ & _ & _ & Hn & _ & _ & Hc).
  cbv zeta in Hc. unfold tids_inv. rewrite Hn.
  destruct Hc as [(_ & Hpc & _ & Hq & _) | (t0 & rest & Hq0 & _ & [Hc | [Hc | Hc]])].
  - rewrite Hq, Hpc. repeat split; try constructor; discriminate.
  - destruct Hc as (_ & Hq & Hpc & _). rewrite Hq, Hpc. repeat split; try assumption; discriminate.
  - destruct Hc as (_ & _ & Hq & Hpc & _). rewrite Hq, Hpc.
    repeat split; try assumption; discriminate.
  - destruct Hc as (_ & _ & Hq & _ & Hpc). rewrite Hq.
    rewrite Hq0 in Hnd, Hall. simpl in Hnd.
    apply NoDup_cons in Hnd. destruct Hnd as (Hni & Hnd).
    apply Forall_cons in Hall. destruct Hall as (Ht0 & Hall).
    assert (Hpt : pc_task (pc (loop_head cfg env now r1 r2 s)) = Some t0).
    { destruct Hpc as [(l & _ & _ & _ & Hpc) | (_ & Hpc)]; rewrite Hpc; reflexivity. }
    split; [exact Hnd|]. split; [exact Hall|].
    intros t Ht. rewrite Hpt in Ht. injection Ht as <-.
    split; [exact Ht0|]. rewrite <- list_elem_of_In. exact Hni.
Qed.

Lemma tids_step cfg env i s s' :
  tids_inv s -> step cfg env i s = Some s' -> tids_inv s'.
Proof.
  intros (Hnd & Hall & Hpc) H. unfold_step H i s.
  - injection H as <-. unfold enqueue, _process. cbn.
    assert (Hnd' : NoDup (map tid (queue s ++ [mkTask j (nextTid s) (at_ i)]))).
    { rewrite map_app. apply NoDup_app. split; [exact Hnd|]. split.
      - intros x Hx Hx'. apply list_elem_of_In in Hx'. simpl in Hx'.
        destruct Hx' as [<-|[]].
        apply list_elem_of_In, in_map_iff in Hx. destruct Hx as (t & Ht & Hin).
        rewrite Forall_forall in Hall. apply list_elem_of_In, Hall in Hin. cbn in Ht. lia.
      - simpl. apply NoDup_singleton. }
    assert (Hall' : Forall (fun t => (tid t < S (nextTid s))%nat)
                      (queue s ++ [mkTask j (nextTid s) (at_ i)])).
    { apply Forall_app. split.
      - eapply Forall_impl; [exact Hall|]. cbn. intros; lia.
      - constructor; [cbn; lia | constructor]. }
    destruct (processing s) eqn:Hp; cbn.
    + split; [exact Hnd'|]. split; [exact Hall'|]. cbn.
      intros t Ht. destruct (Hpc t Ht) as (Hlt & Hni). split; [lia|].
      rewrite map_app, in_app_iff. intros [Hin | [Heq | []]]; [tauto|]. cbn in Heq. lia.
    + apply tids_loop_head; cbn; assumption.
  - injection H as <-. split; [|split]; cbn; [constructor | constructor |].
    intros t Ht. destruct (Hpc t Ht) as (Hlt & _). split; [exact Hlt | tauto].
  - cbn in H. destruct (minuteResetAt s <=? at_ i); [|discriminate].
    injection H as <-. split; [|split]; cbn; assumption.
  - cbn in H. destruct (dayResetAt s <=? at_ i); [|discriminate].
    injection H as <-. split; [|split]; cbn; assumption.
  - cbn in H. destruct (pc s) as [|w|w|t w|t w|t] eqn:Hpcs; try discriminate;
      destruct (w <=? at_ i); try discriminate; injection H as <-;
      try (apply tids_loop_head; cbn; assumption);
      (split; [|split]; cbn; assumption).
  - cbn in H. destruct (pc s) as [|w|w|t w|t w|t] eqn:Hpcs; try discriminate.
    injection H as <-. destruct r as [v|e]; apply tids_loop_head; cbn; assumption.
Qed.

Lemma reachable_tids cfg env now0 ins s :
  run cfg env ins (init env now0) = Some s -> tids_inv s.
Proof.
  apply (run_invariant cfg env tids_inv).
  - intros i s0 s1. apply tids_step.
  - split; [|split]; cbn; [constructor | constructor | discriminate].
Qed.

(** C7, as the specification has it, fails: a task that the loop has taken
    off the queue and that waits in the pacing sleep before its call is not
    yet dispatched, and [clear()] does not reject it.  Task [a] is enqueued
    at 59.850 s and [clear()] is called at 59.860 s: nothing is rejected,
    and [a] is dispatched at 59.950 s and resolved. *)
Lemma clear_leaves_the_task_in_the_pacing_sleep :
  exists s s' s'',
    run two_per_minute utc [at_time 59850 (Enqueue "a")] (init utc 59000) = Some s /\
    queue s = [] /\
    pc s = WaitDelay (mkTask "a" 0 59850) 59950 /\
    dispatched s = [] /\
    step two_per_minute utc (at_time 59860 Clear) s = Some s' /\
    trace s' = trace s /\
    run two_per_minute utc [at_time 59950 Wake; at_time 59950 (FnDone (inl "sent"))] s'
      = Some s'' /\
    trace s'' = [ OnRateLimited "a" 1; Invoked (mkTask "a" 0 59850) 59950;
                  Resolved (mkTask "a" 0 59850) "sent" ] /\
    ~ In (Rejected (mkTask "a" 0 59850) QueueCleared) (trace s'').
Proof.
  eexists. eexists. eexists.
  split; [vm_compute; reflexivity|].
  split; [reflexivity|].
  split; [reflexivity|].
  split; [reflexivity|].
  split; [vm_compute; reflexivity|].
  split; [reflexivity|].
  split; [vm_compute; reflexivity|].
  split; [reflexivity|].
  intros [H | [H | [H | []]]]; discriminate.
Qed.

(** C7, as the code has it: in every state the queue can reach, [clear()]
    rejects each task that is still in the queue with 'Queue cleared', does
    nothing else, and leaves the queue empty.  The task the loop has taken
    off the queue is not among the rejected and stays where it is: one that
    waits in a sleep before its call goes on to be dispatched when its
    sleeps have ended (the pacing sleep, after the wait for its recipient if
    it is in that), and the promise of one in flight is settled by the
    outcome of its own operation. *)
Theorem clear_rejects_queued_tasks_only cfg env now0 ins s i :
  run cfg env ins (init env now0) = Some s ->
  what i = Clear -> clock s <= at_ i ->
  exists s', step cfg env i s = Some s' /\
    queueDepth s' = 0%nat /\
    trace s' = trace s ++ map (fun t => Rejected t QueueCleared) (queue s) /\
    pc s' = pc s /\
    (forall t, pc_task (pc s) = Some t -> ~ In t (queue s)) /\
    (forall t w, pc s = WaitRecipient t w ->
       forall j, what j = Wake -> at_ i <= at_ j -> w <= at_ j ->
         exists s'', step cfg env j s' = Some s'' /\
           trace s'' = trace s' /\
           pc s'' = WaitDelay t (at_ j + _randomDelay cfg (rnd1 j) (rnd2 j)) /\
           forall j2, what j2 = Wake ->
             at_ j + _randomDelay cfg (rnd1 j) (rnd2 j) <= at_ j2 ->
             exists s3, step cfg env j2 s'' = Some s3 /\
               trace s3 = trace s' ++ [Invoked t (at_ j2)] /\ pc s3 = InFlight t) /\
    (forall t w, pc s = WaitDelay t w ->
       forall j, what j = Wake -> at_ i <= at_ j -> w <= at_ j ->
         exists s'', step cfg env j s' = Some s'' /\
           trace s'' = trace s' ++ [Invoked t (at_ j)] /\ pc s'' = InFlight t) /\
    forall t, pc s = InFlight t ->
      forall j r, what j = FnDone r -> at_ i <= at_ j ->
        exists s'', step cfg env j s' = Some s'' /\
          trace s'' = trace s' ++ [settlement t r] /\ queueDepth s'' = 0%nat.
Proof.
  intros Hrun Hw Hclk. pose proof (reachable_tids _ _ _ _ _ Hrun) as (_ & _ & Hpc).
  unfold step. rewrite Hw. destruct (Z.ltb_spec (at_ i) (clock s)); [lia|].
  eexists. split; [reflexivity|]. cbn.
  split; [reflexivity|].
  split. { unfold trace. cbn. rewrite rev_app_distr, rev_involutive. reflexivity. }
  split; [reflexivity|].
  split; [|split; [|split]].
  - intros t Ht Hin. destruct (Hpc t Ht) as (_ & Hni). apply Hni, in_map, Hin.
  - intros t w Ht j Hj Hle Hdue. unfold step. rewrite Hj. cbn.
    destruct (Z.ltb_spec (at_ j) (at_ i)); [lia|]. rewrite Ht.
    destruct (Z.leb_spec w (at_ j)); [|lia].
    eexists. split; [reflexivity|]. split; [reflexivity|]. split; [reflexivity|].
    intros j2 Hj2 Hdue2. rewrite Hj2. cbn.
    pose proof (randomDelay_min cfg (rnd1 j) (rnd2 j)) as Hrd.
    destruct (Z.ltb_spec (at_ j2) (at_ j)); [lia|].
    destruct (Z.leb_spec (at_ j + _randomDelay cfg (rnd1 j) (rnd2 j)) (at_ j2)); [|lia].
    eexists. split; [reflexivity|]. split; reflexivity.
  - intros t w Ht j Hj Hle Hdue. unfold step. rewrite Hj. cbn.
    destruct (Z.ltb_spec (at_ j) (at_ i)); [lia|]. rewrite Ht.
    destruct (Z.leb_spec w (at_ j)); [|lia].
    eexists. split; [reflexivity|]. split; reflexivity.
  - intros t Ht j r Hj Hle. unfold step. rewrite Hj. cbn.
    destruct (Z.ltb_spec (at_ j) (at_ i)); [lia|]. rewrite Ht.
    eexists. split; [reflexivity|].
    destruct r as [v|e]; unfold trace; cbn; split; reflexivity.
Qed.

Lemma clear_rejects_queued_tasks_only_witness :
  let s := default (init utc 59000)
             (run two_per_minute utc (firstn 5 five_instant_tasks) (init utc 59000)) in
  let i := at_time 59860 Clear in
  exists s', step two_per_minute utc i s = Some s' /\
    queueDepth s' = 0%nat /\
    trace s' = trace s ++ map (fun t => Rejected t QueueCleared) (queue s) /\
    pc s' = pc s /\
    (forall t, pc_task (pc s) = Some t -> ~ In t (queue s)) /\
    (forall t w, pc s = WaitRecipient t w ->
       forall j, what j = Wake -> at_ i <= at_ j -> w <= at_ j ->
         exists s'', step two_per_minute utc j s' = Some s'' /\
           trace s'' = trace s' /\
           pc s'' = WaitDelay t (at_ j + _randomDelay two_per_minute (rnd1 j) (rnd2 j)) /\
           forall j2, what j2 = Wake ->
             at_ j + _randomDelay two_per_minute (rnd1 j) (rnd2 j) <= at_ j2 ->
             exists s3, step two_per_minute utc j2 s'' = Some s3 /\
               trace s3 = trace s' ++ [Invoked t (at_ j2)] /\ pc s3 = InFlight t) /\
    (forall t w, pc s = WaitDelay t w ->
       forall j, what j = Wake -> at_ i <= at_ j -> w <= at_ j ->
         exists s'', step two_per_minute utc j s' = Some s'' /\
           trace s'' = trace s' ++ [Invoked t (at_ j)] /\ pc s'' = InFlight t) /\
    forall t, pc s = InFlight t ->
      forall j r, what j = FnDone r -> at_ i <= at_ j ->
        exists s'', step two_per_minute utc j s' = Some s'' /\
          trace s'' = trace s' ++ [settlement t r] /\ queueDepth s'' = 0%nat.
Proof.
  apply (clear_rejects_queued_tasks_only two_per_minute utc 59000
           (firstn 5 five_instant_tasks)
           (default (init utc 59000)
              (run two_per_minute utc (firstn 5 five_instant_tasks) (init utc 59000)))
           (at_time 59860 Clear)).
  - vm_compute. reflexivity.
  - reflexivity.
  - vm_compute. discriminate.
Defined.

(** What [clear()] does in the state of the witness: the four tasks in the
    queue are rejected, the first one sleeps on and is dispatched. *)
Lemma clear_while_a_task_sleeps :
  exists s',
    run two_per_minute utc
      (firstn 5 five_instant_tasks ++ [at_time 59860 Clear; at_time 59950 Wake])
      (init utc 59000) = Some s' /\
    skipn 5 (trace s')
    = [ Rejected (mkTask "b" 1 59850) QueueCleared; Rejected (mkTask "c" 2 59850) QueueCleared;
        Rejected (mkTask "d" 3 59850) QueueCleared; Rejected (mkTask "e" 4 59850) QueueCleared;
        Invoked (mkTask "a" 0 59850) 59950 ].
Proof. eexists. split; vm_compute; reflexivity. Qed.

(** ** A task whose operation fails *)

(** C10: when the operation of the task in flight rejects, the two counters
    and the table of last dispatches stay as they are, the promise of the
    task is rejected with the error of the operation, and the loop goes on:
    it stops if the queue is empty, and otherwise keeps running and, the
    budgets allowing, takes the next task off the queue. *)
Theorem failed_task_leaves_budget_and_loop_goes_on cfg env i s t e :
  pc s = InFlight t -> what i = FnDone (inr e) -> clock s <= at_ i ->
  exists s', step cfg env i s = Some s' /\
    sentThisMinute s' = sentThisMinute s /\
    sentToday s' = sentToday s /\
    lastSentAt s' = lastSentAt s /\
    (exists more, trace s' = trace s ++ Rejected t (OpFailed e) :: more /\
       forall x, In x more -> exists j, x = OnDailyLimitReached j) /\
    (queue s = [] -> pc s' = Idle /\ processing s' = false) /\
    (forall t2 rest, queue s = t2 :: rest ->
       processing s' = true /\
       (sentToday s < messagesPerDay cfg -> sentThisMinute s < messagesPerMinute cfg ->
        queue s' = rest /\ pc_task (pc s') = Some t2)).
Proof.
  intros Hpc Hw Hclk. unfold step. rewrite Hw.
  destruct (Z.ltb_spec (at_ i) (clock s)); [lia|]. cbn. rewrite Hpc.
  eexists. split; [reflexivity|].
  match goal with |- context [loop_head ?c ?e ?n ?a ?b ?x] =>
    destruct (loop_head_cases c e n a b x) as (Hm & Hd & Hl & _ & _ & _ & _ & Hc) end.
  cbv zeta in *. rewrite Hm, Hd, Hl. cbn in Hc |- *.
  split; [reflexivity|]. split; [reflexivity|]. split; [reflexivity|].
  unfold trace.
  destruct Hc as [(Hq & Hpc' & Hp' & _ & He) | (t0 & rest & Hq & Hp' & Hc)].
  - rewrite He. split; [|split].
    + exists []. split; [reflexivity|]. intros x [].
    + intros _. split; assumption.
    + intros t2 rest Hq2. congruence.
  - split; [|split].
    + destruct Hc as [(_ & _ & _ & He) | [(_ & _ & _ & _ & He) | (_ & _ & _ & He & _)]];
        rewrite He; cbn.
      * eexists [_]. rewrite <- app_assoc. split; [reflexivity|].
        intros x [<-|[]]. eexists; reflexivity.
      * exists []. split; [reflexivity|]. intros x [].
      * exists []. split; [reflexivity|]. intros x [].
    + intros Hq2. congruence.
    + intros t2 rest2 Hq2. rewrite Hq in Hq2. injection Hq2 as <- <-.
      split; [exact Hp'|]. intros Hday Hmin.
      destruct Hc as [(Hge & _) | [(_ & Hge & _) | (_ & _ & Hq' & _ & Hpc')]]; try lia.
      split; [exact Hq'|].
      destruct Hpc' as [(l & _ & _ & _ & Hpc') | (_ & Hpc')]; rewrite Hpc'; reflexivity.
Qed.

Lemma failed_task_leaves_budget_and_loop_goes_on_witness :
  exists s',
    step two_per_minute utc (at_time 59950 (FnDone (inr "send failed")))
      (default (init utc 59000)
         (run two_per_minute utc (firstn 6 five_instant_tasks) (init utc 59000))) = Some s' /\
    sentThisMinute s' = 0 /\
    sentToday s' = 0 /\
    lastSentAt s' = ∅ /\
    (exists more,
       trace s' =
         trace (default (init utc 59000)
           (run two_per_minute utc (firstn 6 five_instant_tasks) (init utc 59000)))
         ++ Rejected (mkTask "a" 0 59850) (OpFailed "send failed") :: more /\
       forall x, In x more -> exists j, x = OnDailyLimitReached j) /\
    (queue (default (init utc 59000)
         (run two_per_minute utc (firstn 6 five_instant_tasks) (init utc 59000))) = [] ->
       pc s' = Idle /\ processing s' = false) /\
    (forall t2 rest,
       queue (default (init utc 59000)
         (run two_per_minute utc (firstn 6 five_instant_tasks) (init utc 59000))) = t2 :: rest ->
       processing s' = true /\
       (0 < 500 -> 0 < 2 -> queue s' = rest /\ pc_task (pc s') = Some t2)).
Proof.
  apply (failed_task_leaves_budget_and_loop_goes_on two_per_minute utc
           (at_time 59950 (FnDone (inr "send failed")))
           (default (init utc 59000)
              (run two_per_minute utc (firstn 6 five_instant_tasks) (init utc 59000)))
           (mkTask "a" 0 59850) "send failed").
  - vm_compute. reflexivity.
  - reflexivity.
  - vm_compute. discriminate.
Defined.

(** ** Spacing of the dispatches to one recipient *)

Lemma settled_neutral new l t d :
  Forall (fun x => is_neutral x = true) new ->
  settled (new ++ l) t d -> settled l t d.
Proof.
  induction 1 as [|x new Hx _ IH]; simpl; [tauto|].
  intros [H | ((v & ->) & _)]; [auto | discriminate].
Qed.

Lemma spaced_neutral req new l :
  Forall (fun x => is_neutral x = true) new ->
  spaced req l -> spaced req (new ++ l).
Proof.
  induction 1 as [|x new Hx _ IH]; simpl; [tauto|].
  intros H. split; [|auto]. destruct x; try exact I; discriminate.
Qed.

Lemma settled_between mid t d v older :
  In (Resolved t v) mid -> settled (mid ++ Invoked t d :: older) t d.
Proof.
  induction mid as [|x mid IH]; simpl; [tauto|].
  intros [-> | Hin].
  - right. split; [eauto|]. apply in_or_app. right. left. reflexivity.
  - left. auto.
Qed.

Lemma spaced_split req newer : forall t2 d2 mid t1 d1 older v,
  spaced req (newer ++ Invoked t2 d2 :: mid ++ Invoked t1 d1 :: older) ->
  In (Resolved t1 v) mid -> jid t1 = jid t2 -> d1 + req <= d2.
Proof.
  induction newer as [|x newer IH]; intros t2 d2 mid t1 d1 older v; simpl.
  - intros (H & _) Hin Hj. apply (H t1 d1); [|exact Hj].
    eapply settled_between; eassumption.
  - intros (_ & H). eapply IH. exact H.
Qed.

Lemma core_frame cfg s s' new :
  spacing_core cfg s ->
  effects s' = new ++ effects s ->
  Forall (fun x => is_neutral x = true) new ->
  lastSentAt s' = lastSentAt s ->
  clock s <= clock s' ->
  spacing_core cfg s'.
Proof.
  intros (H1 & H2 & H3 & H4 & H6) He Hn Hl Hc. unfold spacing_core.
  rewrite He, Hl. split; [lia|]. split; [|split; [|split]].
  - intros t d Hin. apply in_app_or in Hin. destruct Hin as [Hin | Hin].
    + rewrite Forall_forall in Hn. apply list_elem_of_In, Hn in Hin. discriminate.
    + specialize (H2 t d Hin). lia.
  - intros j l Hj. specialize (H3 j l Hj). lia.
  - intros t d Hs. apply H4. eapply settled_neutral; eassumption.
  - apply spaced_neutral; assumption.
Qed.

Lemma core_loop_head cfg env now r1 r2 s :
  spacing_core cfg s -> spacing_core cfg (loop_head cfg env now r1 r2 s).
Proof.
  intros H.
  destruct (loop_head_cases cfg env now r1 r2 s) as (_ & _ & Hl & Hclk & _ & _ & _ & Hc).
  cbv zeta in Hc.
  assert (exists new, effects (loop_head cfg env now r1 r2 s) = new ++ effects s /\
                      Forall (fun x => is_neutral x = true) new) as (new & He & Hn).
  { destruct Hc as [(_ & _ & _ & _ & He) | (t0 & rest & _ & _ & [Hc | [Hc | Hc]])].
    - exists []. split; [exact He | constructor].
    - destruct Hc as (_ & _ & _ & He). eexists [_]. split; [exact He|].
      constructor; [reflexivity | constructor].
    - destruct Hc as (_ & _ & _ & _ & He). exists []. split; [exact He | constructor].
    - destruct Hc as (_ & _ & _ & He & _). exists []. split; [exact He | constructor]. }
  eapply core_frame; try eassumption. lia.
Qed.

Lemma paced_loop_head cfg env now r1 r2 s :
  (forall j l, lastSentAt s !! j = Some l -> 0 < l) ->
  paced cfg (loop_head cfg env now r1 r2 s).
Proof.
  intros Hpos.
  destruct (loop_head_cases cfg env now r1 r2 s) as (_ & _ & Hl & _ & _ & _ & _ & Hc).
  cbv zeta in Hc. unfold paced. rewrite Hl.
  pose proof (randomDelay_min cfg r1 r2) as Hd.
  destruct Hc as [(_ & Hpc & _) | (t0 & rest & _ & _ & [Hc | [Hc | Hc]])].
  - rewrite Hpc. intros t w [?|?]; discriminate.
  - destruct Hc as (_ & _ & Hpc & _). rewrite Hpc. intros t w [?|?]; discriminate.
  - destruct Hc as (_ & _ & _ & Hpc & _). rewrite Hpc. intros t w [?|?]; discriminate.
  - destruct Hc as (_ & _ & _ & _ & [(l & Hl0 & _ & _ & Hpc) | (Hl0 & Hpc)]);
      rewrite Hpc; intros t w [Heq | Heq]; try discriminate; injection Heq as <- <-;
      intros l' Hl'.
    + rewrite Hl0 in Hl'. injection Hl' as <-. lia.
    + destruct (Hl0 l' Hl') as [-> | Hle]; [|lia].
      specialize (Hpos _ _ Hl'). lia.
Qed.

Lemma spacing_step cfg env i s s' :
  spacing_inv cfg s -> step cfg env i s = Some s' -> spacing_inv cfg s'.
Proof.
  intros (Hcore & Hpaced) H.
  assert (Hpos : forall j l, lastSentAt s !! j = Some l -> 0 < l).
  { intros j l Hj. destruct Hcore as (_ & _ & H3 & _). apply (H3 j l Hj). }
  unfold_step H i s.
  - (* enqueue *)
    injection H as <-. unfold enqueue, _process. cbn.
    match goal with |- context [emit ?e ?x] =>
      assert (Hc1 : spacing_core cfg (emit e x)) end.
    { eapply core_frame with (new := [_]); [exact Hcore | reflexivity | | reflexivity | cbn; lia].
      constructor; [reflexivity | constructor]. }
    destruct (processing s) eqn:Hp; cbn.
    + split; [exact Hc1|]. exact Hpaced.
    + split.
      * apply core_loop_head. eapply core_frame with (new := []);
          [exact Hc1 | reflexivity | constructor | reflexivity | cbn; lia].
      * apply paced_loop_head. exact Hpos.
  - (* clear *)
    injection H as <-. split; [|exact Hpaced].
    eapply core_frame; [exact Hcore | reflexivity | | reflexivity | cbn; lia].
    apply Forall_forall. intros x Hx.
    apply list_elem_of_In, in_rev, in_map_iff in Hx. destruct Hx as (t & <- & _). reflexivity.
  - cbn in H. destruct (minuteResetAt s <=? at_ i); [|discriminate].
    injection H as <-. split; [|exact Hpaced].
    eapply core_frame with (new := []);
      [exact Hcore | reflexivity | constructor | reflexivity | cbn; lia].
  - cbn in H. destruct (dayResetAt s <=? at_ i); [|discriminate].
    injection H as <-. split; [|exact Hpaced].
    eapply core_frame with (new := []);
      [exact Hcore | reflexivity | constructor | reflexivity | cbn; lia].
  - (* a sleep ends *)
    cbn in H. destruct (pc s) as [|w|w|t w|t w|t] eqn:Hpc; try discriminate;
      destruct (Z.leb_spec w (at_ i)); try discriminate; injection H as <-.
    + split; [|apply paced_loop_head; exact Hpos].
      apply core_loop_head. eapply core_frame with (new := []);
        [exact Hcore | reflexivity | constructor | reflexivity | cbn; lia].
    + split; [|apply paced_loop_head; exact Hpos].
      apply core_loop_head. eapply core_frame with (new := []);
        [exact Hcore | reflexivity | constructor | reflexivity | cbn; lia].
    + split.
      * eapply core_frame with (new := []);
          [exact Hcore | reflexivity | constructor | reflexivity | cbn; lia].
      * intros t' w' [Heq | Heq]; cbn in Heq; try discriminate.
        injection Heq as <- <-. intros l Hl. cbn in Hl.
        pose proof (Hpaced t w (or_introl Hpc) l Hl).
        pose proof (randomDelay_min cfg (rnd1 i) (rnd2 i)). lia.
    + (* the dispatch *)
      split; [|intros t' w' [Heq | Heq]; discriminate].
      destruct Hcore as (C1 & H2 & H3 & H4 & H6). unfold spacing_core. cbn.
      split; [lia|]. split; [|split; [|split]].
      * intros t' d [Heq | Hin]; [injection Heq as <- <-; lia|].
        specialize (H2 t' d Hin). lia.
      * intros j l Hj. specialize (H3 j l Hj). lia.
      * intros t' d [Hs | ((v & Hv) & _)]; [auto | discriminate].
      * split; [|exact H6]. intros t1 d1 Hs Hj.
        destruct (H4 t1 d1 Hs) as (l & Hl & Hle). rewrite Hj in Hl.
        pose proof (Hpaced t w (or_intror Hpc) l Hl). lia.
  - (* the operation settles *)
    cbn in H. destruct (pc s) as [|w|w|t w|t w|t] eqn:Hpc; try discriminate.
    injection H as <-. destruct r as [v|e].
    + assert (Hc1 : spacing_core cfg (on_success (at_ i) t v (set_clock (at_ i) s))).
      { destruct Hcore as (C1 & H2 & H3 & H4 & H6). unfold spacing_core. cbn.
        split; [lia|]. split; [|split; [|split]].
        - intros t' d [Heq | Hin]; [discriminate|]. specialize (H2 t' d Hin). lia.
        - intros j l Hj. destruct (decide (jid t = j)) as [<- | Hne].
          + rewrite lookup_insert_eq in Hj. injection Hj as <-. lia.
          + rewrite lookup_insert_ne in Hj by exact Hne. specialize (H3 j l Hj). lia.
        - intros t' d Hs.
          assert (Hd : d <= at_ i).
          { destruct Hs as [Hs | (_ & Hin)].
            - destruct (H4 t' d Hs) as (l & Hl & Hle). specialize (H3 _ _ Hl). lia.
            - specialize (H2 t' d Hin). lia. }
          destruct (decide (jid t = jid t')) as [Heq | Hne].
          + exists (at_ i). rewrite Heq, lookup_insert_eq. split; [reflexivity | exact Hd].
          + rewrite lookup_insert_ne by exact Hne.
            destruct Hs as [Hs | ((v' & Hv') & _)]; [auto|].
            injection Hv' as <- _. congruence.
        - split; [exact I | exact H6]. }
      split; [apply core_loop_head; exact Hc1|].
      apply paced_loop_head. intros j l Hj.
      destruct Hc1 as (_ & _ & H3 & _). apply (H3 j l Hj).
    + split; [|apply paced_loop_head; exact Hpos].
      apply core_loop_head. eapply core_frame with (new := [_]);
        [exact Hcore | reflexivity | | reflexivity | cbn; lia].
      constructor; [reflexivity | constructor].
Qed.

Lemma reachable_spacing cfg env now0 ins s :
  0 < now0 -> run cfg env ins (init env now0) = Some s -> spacing_inv cfg s.
Proof.
  intros Hpos. apply (run_invariant cfg env (spacing_inv cfg)).
  - intros i s0 s1. apply spacing_step.
  - split.
    + unfold spacing_core. cbn. split; [exact Hpos|].
      split; [intros t d []|]. split; [intros j l Hj; rewrite lookup_empty in Hj; discriminate|].
      split; [intros t d []| exact I].
    + intros t w [Heq | Heq]; discriminate.
Qed.

(** C9: along every run of the queue on a clock that shows positive times,
    two dispatches for the same recipient, the first of which was resolved
    before the second was made, are at least [perRecipientDelayMs] apart.
    Two tasks for one recipient that are enqueued one after the other are
    dispatched one after the other, the first settling in between. *)
Theorem same_recipient_dispatches_are_spaced cfg env now0 ins s
    pre t1 d1 mid t2 d2 post v :
  0 < now0 ->
  run cfg env ins (init env now0) = Some s ->
  trace s = pre ++ Invoked t1 d1 :: mid ++ Invoked t2 d2 :: post ->
  In (Resolved t1 v) mid ->
  jid t1 = jid t2 ->
  d1 + perRecipientDelayMs cfg <= d2.
Proof.
  intros Hpos Hrun Htr Hin Hj.
  destruct (reachable_spacing cfg env now0 ins s Hpos Hrun) as ((_ & _ & _ & _ & H6) & _).
  assert (He : effects s = rev post ++ Invoked t2 d2 :: rev mid ++ Invoked t1 d1 :: rev pre).
  { rewrite <- (rev_involutive (effects s)). fold (trace s). rewrite Htr.
    rewrite rev_app_distr. simpl. rewrite rev_app_distr. simpl.
    rewrite <- !app_assoc. reflexivity. }
  rewrite He in H6. eapply spaced_split; [exact H6 | | exact Hj].
  apply in_rev in Hin. exact Hin.
Qed.

Lemma same_recipient_dispatches_are_spaced_witness : 2900 + 2000 <= 6850.
Proof.
  apply (same_recipient_dispatches_are_spaced DEFAULT_CONFIG utc 500 two_for_one_recipient
           (default (init utc 500) (run DEFAULT_CONFIG utc two_for_one_recipient (init utc 500)))
           [OnRateLimited "a" 1; OnRateLimited "a" 1]
           (mkTask "a" 0 1000) 2900
           [Resolved (mkTask "a" 0 1000) "sent"]
           (mkTask "a" 1 1000) 6850
           [Resolved (mkTask "a" 1 1000) "sent"] "sent").
  - lia.
  - vm_compute. reflexivity.
  - vm_compute. reflexivity.
  - left. reflexivity.
  - reflexivity.
Defined.
End RateLimiterSpec.

(* ===================================================================== *)
(** * Properties of the session manager                                   *)
(* ===================================================================== *)

Module SessionManagerSpec.
Import SessionManager.

Ltac conjs := repeat match goal with |- _ /\ _ => split end.

(** ** The Map *)

Lemma map_get_set_eq {A} k (v : A) m : map_get k (map_set k v m) = Some v.
Proof.
  induction m as [|[k' v'] m IH]; simpl.
  - rewrite String.eqb_refl. reflexivity.
  - destruct (String.eqb k k') eqn:E; simpl; rewrite ?String.eqb_refl, ?E; auto.
Qed.

Lemma map_has_set {A} k k' (v : A) m :
  map_has k' (map_set k v m) = String.eqb k' k || map_has k' m.
Proof.
  unfold map_has. induction m as [|[k0 v0] m IH]; simpl.
  - destruct (String.eqb k' k); reflexivity.
  - destruct (String.eqb k k0) eqn:E; simpl.
    + apply String.eqb_eq in E. subst k0.
      destruct (String.eqb k' k); reflexivity.
    + destruct (String.eqb k' k0) eqn:E'; [|exact IH].
      destruct (String.eqb k' k); reflexivity.
Qed.

Lemma map_set_same {A} k (v : A) m : map_get k m = Some v -> map_set k v m = m.
Proof.
  induction m as [|[k' v'] m IH]; simpl; [discriminate|].
  destruct (String.eqb k k') eqn:E.
  - apply String.eqb_eq in E. subst k'. intros [= ->]. reflexivity.
  - intros H. rewrite (IH H). reflexivity.
Qed.

(** ** What the pieces of the handler leave alone *)

Lemma emit_frame e st :
  sessions (emit e st) = sessions st /\
  reconnectAttempts (emit e st) = reconnectAttempts st /\
  heap (emit e st) = heap st /\
  socks (emit e st) = socks st /\
  timers (emit e st) = timers st /\
  emitted (emit e st) = e :: emitted st.
Proof. destruct e; conjs; reflexivity. Qed.

Lemma updateStatus_frame i r st :
  reconnectAttempts (_updateStatus i r st) = reconnectAttempts st /\
  heap (_updateStatus i r st) = heap st /\
  socks (_updateStatus i r st) = socks st /\
  timers (_updateStatus i r st) = timers st /\
  map_has i (sessions (_updateStatus i r st)) = map_has i (sessions st) /\
  (getInfo st i = Some r -> sessions (_updateStatus i r st) = sessions st) /\
  exists new, emitted (_updateStatus i r st) = new ++ emitted st.
Proof.
  unfold _updateStatus.
  destruct (map_get i (sessions st)) as [session|] eqn:Hg; cbn.
  - assert (Hhas : map_has i (map_set i (mkSession r (sock session)) (sessions st))
                   = map_has i (sessions st)).
    { rewrite map_has_set, String.eqb_refl. unfold map_has. rewrite Hg. reflexivity. }
    assert (Hsame : getInfo st i = Some r ->
                    map_set i (mkSession r (sock session)) (sessions st) = sessions st).
    { unfold getInfo. rewrite Hg. cbn. intros [= <-]. apply map_set_same.
      rewrite Hg. destruct session; reflexivity. }
    destruct (heap st !! r) as [o|]; cbn; conjs; try reflexivity; try assumption.
    + exists [session_status o]. reflexivity.
    + exists []. reflexivity.
  - destruct (heap st !! r) as [o|]; cbn; conjs; try reflexivity.
    + exists [session_status o]. reflexivity.
    + exists []. reflexivity.
Qed.

Lemma mutate_frame r f st :
  sessions (mutate r f st) = sessions st /\
  reconnectAttempts (mutate r f st) = reconnectAttempts st /\
  heap (mutate r f st) = mutate_heap r f (heap st) /\
  socks (mutate r f st) = socks st /\
  timers (mutate r f st) = timers st /\
  waiters (mutate r f st) = waiters st /\
  emitted (mutate r f st) = emitted st.
Proof. unfold mutate, mutate_heap. destruct (heap st !! r); conjs; reflexivity. Qed.

Lemma mutate_heap_id r f h : (forall o, f o = o) -> mutate_heap r f h = h.
Proof.
  intros Hf. unfold mutate_heap. destruct (h !! r) as [o|] eqn:E; [|reflexivity].
  rewrite Hf. apply list_insert_id, E.
Qed.

Lemma mutate_heap_compose r f g h :
  mutate_heap r g (mutate_heap r f h) = mutate_heap r (fun o => g (f o)) h.
Proof.
  unfold mutate_heap. destruct (h !! r) as [o|] eqn:E.
  - rewrite list_lookup_insert_eq by (eapply lookup_lt_Some; exact E).
    apply list_insert_insert_eq.
  - rewrite E. reflexivity.
Qed.

Lemma mutate_heap_lookup r f h l :
  mutate_heap r f h !! l =
  if decide (r = l) then f <$> h !! l else h !! l.
Proof.
  unfold mutate_heap. destruct (h !! r) as [o|] eqn:E.
  - case_decide as Hd.
    + subst l. rewrite E. cbn. apply list_lookup_insert_eq. eapply lookup_lt_Some; exact E.
    + apply list_lookup_insert_ne. exact Hd.
  - case_decide as Hd; [|reflexivity]. subst l. rewrite E. reflexivity.
Qed.

(** The block [if (qr)]. *)
Lemma on_qr_frame i r u st :
  reconnectAttempts (on_qr i r u st) = reconnectAttempts st /\
  heap (on_qr i r u st) = mutate_heap r (qr_info u) (heap st) /\
  socks (on_qr i r u st) = socks st /\
  timers (on_qr i r u st) = timers st /\
  map_has i (sessions (on_qr i r u st)) = map_has i (sessions st) /\
  (getInfo st i = Some r -> sessions (on_qr i r u st) = sessions st) /\
  exists new, emitted (on_qr i r u st) = new ++ emitted st.
Proof.
  unfold on_qr, qr_info.
  destruct (u_qr u) as [q|]; [destruct (String.eqb q "")|].
  1,3: rewrite mutate_heap_id by reflexivity; conjs; try reflexivity; exists []; reflexivity.
  match goal with |- context [_updateStatus i r ?x] =>
    destruct (updateStatus_frame i r x) as (Ha & Hh & Hs & Ht & Hm & Hg & (new & He));
    destruct (emit_frame (session_qr i q) (_updateStatus i r x))
      as (Es & Ea & Eh & Esk & Et & Ee);
    destruct (mutate_frame r (fun o => with_status qr_ready (with_qr (Some q) o)) st)
      as (Ms & Ma & Mh & Msk & Mt & Mw & Me)
  end.
  rewrite Ea, Eh, Esk, Et, Es, Ee, Ha, Hh, Hs, Ht, Hm, He, Ma, Mh, Msk, Mt, Ms, Me.
  conjs; try reflexivity.
  - intros H. rewrite Hg; [exact Ms|]. unfold getInfo. rewrite Ms. exact H.
  - exists (session_qr i q :: new). reflexivity.
Qed.

(** The block [if (connection === 'open')]. *)
Lemma on_open_frame now i r u st :
  heap (on_open now i r u st) = mutate_heap r (open_info now u) (heap st) /\
  socks (on_open now i r u st) = socks st /\
  timers (on_open now i r u st) = timers st /\
  map_has i (sessions (on_open now i r u st)) = map_has i (sessions st) /\
  (getInfo st i = Some r -> sessions (on_open now i r u st) = sessions st) /\
  (u_connection u = Some conn_open ->
     reconnectAttempts (on_open now i r u st) = <[i := 0%nat]> (reconnectAttempts st)) /\
  (u_connection u <> Some conn_open ->
     reconnectAttempts (on_open now i r u st) = reconnectAttempts st) /\
  exists new, emitted (on_open now i r u st) = new ++ emitted st.
Proof.
  unfold on_open, open_info.
  destruct (u_connection u) as [[| |]|];
    try (rewrite mutate_heap_id by reflexivity; conjs; try reflexivity;
         try (intros; congruence); exists []; reflexivity).
  match goal with |- context [_updateStatus i r ?x] =>
    destruct (updateStatus_frame i r x) as (Ha & Hh & Hs & Ht & Hm & Hg & (new & He));
    match goal with |- context [emit ?e (_updateStatus i r x)] =>
      destruct (emit_frame e (_updateStatus i r x)) as (Es & Ea & Eh & Esk & Et & Ee) end
  end.
  match goal with |- context [mutate r ?f0 st] =>
    set (f := f0) in *;
    destruct (mutate_frame r f st) as (Ms & Ma & Mh & Msk & Mt & Mw & Me) end.
  assert (Hsess : getInfo st i = Some r ->
            sessions (_updateStatus i r
               (set_attempts (<[i:=0%nat]> (reconnectAttempts (mutate r f st))) (mutate r f st)))
            = sessions st).
  { intros H. rewrite Hg; [exact Ms|]. unfold getInfo.
    cbn [set_attempts sessions]. rewrite Ms. exact H. }
  rewrite Ea, Eh, Esk, Et, Es, Ee, Ha, Hh, Hs, Ht, Hm, He.
  cbn [set_attempts reconnectAttempts heap socks timers sessions emitted].
  rewrite Ma, Mh, Msk, Mt, Ms, Me.
  conjs; try reflexivity.
  - intros H. rewrite <- (Hsess H). rewrite Ma. reflexivity.
  - intros H. congruence.
  - eexists (_ :: new). reflexivity.
Qed.

(** The block [if (connection === 'close')]. *)
Lemma on_close_frame cfg now i r u st :
  heap (on_close cfg now i r u st) = mutate_heap r (close_info cfg u) (heap st) /\
  socks (on_close cfg now i r u st) = socks st /\
  map_has i (sessions (on_close cfg now i r u st)) = map_has i (sessions st) /\
  (getInfo st i = Some r -> sessions (on_close cfg now i r u st) = sessions st) /\
  (exists new, emitted (on_close cfg now i r u st) = new ++ emitted st) /\
  (u_connection u <> Some conn_close \/ is_loggedOut cfg u = true
   \/ autoReconnect cfg && map_has i (sessions st) = false ->
     reconnectAttempts (on_close cfg now i r u st) = reconnectAttempts st /\
     timers (on_close cfg now i r u st) = timers st) /\
  (u_connection u = Some conn_close -> is_loggedOut cfg u = false ->
   autoReconnect cfg && map_has i (sessions st) = true ->
     let attempts := S (default 0%nat (reconnectAttempts st !! i)) in
     reconnectAttempts (on_close cfg now i r u st) = <[i := attempts]> (reconnectAttempts st) /\
     timers (on_close cfg now i r u st) =
       if Z.of_nat attempts <=? maxReconnectAttempts cfg
       then timers st ++ [mkTimer i (reconnectDelay cfg attempts) now true]
       else timers st).
Proof.
  unfold on_close, close_info.
  destruct (u_connection u) as [[| |]|];
    try (rewrite mutate_heap_id by reflexivity; conjs; try reflexivity;
         [exists []; reflexivity | intros _; split; reflexivity | intros; congruence]).
  destruct (is_loggedOut cfg u) eqn:Hlo.
  - match goal with |- context [_updateStatus i r (mutate r ?f0 st)] =>
      set (f := f0) in *;
      destruct (mutate_frame r f st) as (Ms & Ma & Mh & Msk & Mt & Mw & Me);
      destruct (updateStatus_frame i r (mutate r f st))
        as (Ha & Hh & Hs & Ht & Hm & Hg & (new & He));
      match goal with |- context [emit ?e (_updateStatus i r (mutate r f st))] =>
        destruct (emit_frame e (_updateStatus i r (mutate r f st)))
          as (Es & Ea & Eh & Esk & Et & Ee) end
    end.
    assert (Hsess : getInfo st i = Some r ->
                    sessions (_updateStatus i r (mutate r f st)) = sessions st).
    { intros H. rewrite Hg; [exact Ms|]. unfold getInfo. rewrite Ms. exact H. }
    rewrite Ea, Eh, Esk, Et, Es, Ee, Ha, Hh, Hs, Ht, Hm, He, Ma, Mh, Msk, Mt, Ms, Me.
    conjs; try reflexivity; try assumption.
    + eexists (_ :: new). reflexivity.
    + intros _. split; reflexivity.
    + intros; congruence.
  - match goal with |- context [_updateStatus i r (mutate r ?f0 st)] =>
      set (f := f0) in *;
      destruct (mutate_frame r f st) as (Ms & Ma & Mh & Msk & Mt & Mw & Me);
      destruct (updateStatus_frame i r (mutate r f st))
        as (Ha & Hh & Hs & Ht & Hm & Hg & (new & He));
      match goal with |- context [emit ?e (_updateStatus i r (mutate r f st))] =>
        set (st1 := emit e (_updateStatus i r (mutate r f st))) in *;
        destruct (emit_frame e (_updateStatus i r (mutate r f st)))
          as (Es & Ea & Eh & Esk & Et & Ee) end
    end.
    fold st1 in Es, Ea, Eh, Esk, Et, Ee.
    assert (Hsess : getInfo st i = Some r -> sessions st1 = sessions st).
    { intros H. rewrite Es, Hg; [exact Ms|]. unfold getInfo. rewrite Ms. exact H. }
    assert (Hhas : map_has i (sessions st1) = map_has i (sessions st))
      by (rewrite Es, Hm, Ms; reflexivity).
    assert (Hat : reconnectAttempts st1 = reconnectAttempts st)
      by (rewrite Ea, Ha, Ma; reflexivity).
    assert (Htm : timers st1 = timers st) by (rewrite Et, Ht, Mt; reflexivity).
    assert (Hhp : heap st1 = mutate_heap r f (heap st)) by (rewrite Eh, Hh, Mh; reflexivity).
    assert (Hsk : socks st1 = socks st) by (rewrite Esk, Hs, Msk; reflexivity).
    assert (Hem : exists new', emitted st1 = new' ++ emitted st).
    { eexists (_ :: new). rewrite Ee, He, Me. reflexivity. }
    rewrite Hhas, Hat.
    destruct (autoReconnect cfg && map_has i (sessions st)) eqn:Hre.
    + destruct (Z.of_nat (S (default 0%nat (reconnectAttempts st !! i)))
                <=? maxReconnectAttempts cfg) eqn:Hmax;
        cbn [set_timers set_attempts reconnectAttempts heap socks timers sessions emitted];
        rewrite ?Htm; conjs; try assumption; try reflexivity;
        try (intros [? | [? | ?]]; congruence);
        intros _ _ _; cbv zeta; rewrite ?Hmax; split; reflexivity.
    + conjs; try assumption; try reflexivity.
      * intros _. split; assumption.
      * intros; congruence.
Qed.

(** The whole handler. *)
Lemma handler_frame cfg now i r u st :
  let st' := on_connection_update cfg now i r u st in
  heap st' = mutate_heap r (update_info cfg now u) (heap st) /\
  socks st' = socks st /\
  map_has i (sessions st') = map_has i (sessions st) /\
  (getInfo st i = Some r -> sessions st' = sessions st) /\
  (exists new, emitted st' = new ++ emitted st) /\
  (u_connection u = Some conn_open ->
     reconnectAttempts st' = <[i := 0%nat]> (reconnectAttempts st) /\ timers st' = timers st) /\
  (u_connection u = Some conn_close -> is_loggedOut cfg u = true ->
     reconnectAttempts st' = reconnectAttempts st /\ timers st' = timers st) /\
  (u_connection u = Some conn_close -> is_loggedOut cfg u = false ->
   autoReconnect cfg && map_has i (sessions st) = true ->
     let attempts := S (default 0%nat (reconnectAttempts st !! i)) in
     reconnectAttempts st' = <[i := attempts]> (reconnectAttempts st) /\
     timers st' =
       if Z.of_nat attempts <=? maxReconnectAttempts cfg
       then timers st ++ [mkTimer i (reconnectDelay cfg attempts) now true]
       else timers st).
Proof.
  cbv zeta. unfold on_connection_update.
  destruct (on_qr_frame i r u st) as (Qa & Qh & Qs & Qt & Qm & Qg & (qn & Qe)).
  set (st1 := on_qr i r u st) in *.
  destruct (on_open_frame now i r u st1) as (Oh & Os & Ot & Om & Og & Oa1 & Oa2 & (on & Oe)).
  set (st2 := on_open now i r u st1) in *.
  destruct (on_close_frame cfg now i r u st2) as (Ch & Cs & Cm & Cg & (cn & Ce) & Ca1 & Ca2).
  set (st3 := on_close cfg now i r u st2) in *.
  assert (G1 : getInfo st i = Some r -> getInfo st1 i = Some r)
    by (intros H; unfold getInfo; rewrite (Qg H); exact H).
  assert (G2 : getInfo st i = Some r -> getInfo st2 i = Some r)
    by (intros H; unfold getInfo; rewrite (Og (G1 H)), (Qg H); exact H).
  conjs.
  - rewrite Ch, Oh, Qh, !mutate_heap_compose. reflexivity.
  - rewrite Cs, Os, Qs. reflexivity.
  - rewrite Cm, Om, Qm. reflexivity.
  - intros H. rewrite (Cg (G2 H)), (Og (G1 H)), (Qg H). reflexivity.
  - exists (cn ++ on ++ qn). rewrite Ce, Oe, Qe, <- !app_assoc. reflexivity.
  - intros Ho. destruct Ca1 as (-> & ->); [left; congruence|].
    rewrite (Oa1 Ho), Qa, Ot, Qt. split; reflexivity.
  - intros Hc Hlo. destruct Ca1 as (-> & ->); [right; left; exact Hlo|].
    rewrite Oa2 by congruence. rewrite Qa, Ot, Qt. split; reflexivity.
  - intros Hc Hlo Hre. rewrite <- Qm, <- Om in Hre.
    destruct (Ca2 Hc Hlo Hre) as (-> & ->).
    rewrite Oa2 by congruence. rewrite Qa, Ot, Qt. split; reflexivity.
Qed.

Lemma update_info_status cfg now u o :
  status (update_info cfg now u o) = next_status cfg u (status o).
Proof.
  unfold update_info, close_info, open_info, qr_info, next_status.
  destruct (u_connection u) as [[| |]|]; [reflexivity | destruct (is_loggedOut cfg u); reflexivity | |];
    (destruct (u_qr u) as [q|]; [destruct (String.eqb q "")|]; reflexivity).
Qed.


Lemma getInfo_listed st i r : getInfo st i = Some r -> In r (listSessions st).
Proof.
  unfold getInfo, listSessions. induction (sessions st) as [|[k v] m IH]; cbn; [discriminate|].
  destruct (String.eqb i k); cbn; [intros [= <-]; left; reflexivity | auto].
Qed.

Lemma boot_heap i st r o :
  heap st !! r = Some o -> heap (_boot i st) !! r = Some o.
Proof.
  intros H. unfold _boot. destruct (map_get i (sessions st)); cbn; [exact H|].
  apply lookup_app_l_Some, H.
Qed.

Lemma boot_registers i st :
  hasSession (_boot i st) i = true /\ length (socks (_boot i st)) = S (length (socks st)) /\
  timers (_boot i st) = timers st.
Proof.
  unfold _boot, hasSession.
  destruct (map_get i (sessions st)); cbn;
    rewrite map_has_set, String.eqb_refl, length_app; cbn; (split; [reflexivity|split; [lia|reflexivity]]).
Qed.

(** ** C5: the delay of a reconnect *)

(** C5: when the socket of a registered session closes with another code
    than the logout code, [autoReconnect] is set and the incremented number
    of attempts [k] is within [maxReconnectAttempts], the re-boot is
    scheduled after [reconnectDelayMs * 1.5^(k-1)], computed from the
    incremented number, which is what the table of attempts then holds;
    the next update with connection 'open' puts the number back to 0. *)
Theorem reconnect_delay_is_exponential cfg now sk s u st k :
  socks st !! sk = Some s ->
  hasSession st (s_session s) = true ->
  autoReconnect cfg = true ->
  u_connection u = Some conn_close ->
  is_loggedOut cfg u = false ->
  S (default 0%nat (reconnectAttempts st !! s_session s)) = k ->
  Z.of_nat k <= maxReconnectAttempts cfg ->
  exists st',
    step cfg now (ConnectionUpdate sk u) st = Some st' /\
    reconnectAttempts st' !! s_session s = Some k /\
    timers st' = timers st ++
      [mkTimer (s_session s)
         (inject_Z (reconnectDelayMs cfg) * backoffMultiplier ^ (Z.of_nat k - 1))%Q
         now true] /\
    forall now' sk' s' u',
      socks st' !! sk' = Some s' -> s_session s' = s_session s ->
      u_connection u' = Some conn_open ->
      exists st'', step cfg now' (ConnectionUpdate sk' u') st' = Some st'' /\
        reconnectAttempts st'' !! s_session s = Some 0%nat /\
        timers st'' = timers st'.
Proof.
  intros Hs Hhas Hauto Hc Hlo Hk Hmax. cbn. rewrite Hs.
  eexists. split; [reflexivity|].
  destruct (handler_frame cfg now (s_session s) (s_info s) u st)
    as (_ & _ & _ & _ & _ & _ & _ & Hcl).
  cbv zeta in Hcl. unfold hasSession in Hhas.
  destruct (Hcl Hc Hlo) as (Ha & Ht); [rewrite Hauto, Hhas; reflexivity|].
  rewrite Hk in Ha, Ht.
  destruct (Z.leb_spec (Z.of_nat k) (maxReconnectAttempts cfg)); [|lia].
  split; [rewrite Ha; apply lookup_insert_eq|].
  split; [exact Ht|].
  intros now' sk' s' u' Hs' Hid Ho. cbn. rewrite Hs'.
  eexists. split; [reflexivity|].
  match goal with |- context [on_connection_update cfg now' ?a ?b u' ?x] =>
    destruct (handler_frame cfg now' a b u' x) as (_ & _ & _ & _ & _ & Hop & _) end.
  cbv zeta in Hop. destruct (Hop Ho) as (Ha' & Ht').
  split; [rewrite Ha', Hid; apply lookup_insert_eq | exact Ht'].
Qed.

Lemma reconnect_delay_is_exponential_witness :
  exists st',
    step DEFAULT_CONFIG 3020 (ConnectionUpdate 1 (close_update 428))
      (after DEFAULT_CONFIG reconnected) = Some st' /\
    reconnectAttempts st' !! "s1" = Some 2%nat /\
    timers st' = timers (after DEFAULT_CONFIG reconnected) ++
      [mkTimer "s1" (inject_Z 3000 * backoffMultiplier ^ (Z.of_nat 2 - 1))%Q 3020 true] /\
    forall now' sk' s' u',
      socks st' !! sk' = Some s' -> s_session s' = "s1" ->
      u_connection u' = Some conn_open ->
      exists st'', step DEFAULT_CONFIG now' (ConnectionUpdate sk' u') st' = Some st'' /\
        reconnectAttempts st'' !! "s1" = Some 0%nat /\
        timers st'' = timers st'.
Proof.
  apply (reconnect_delay_is_exponential DEFAULT_CONFIG 3020 1
           (mkSocket "s1" 0 false) (close_update 428) (after DEFAULT_CONFIG reconnected) 2).
  - reflexivity.
  - reflexivity.
  - reflexivity.
  - reflexivity.
  - reflexivity.
  - vm_compute. reflexivity.
  - vm_compute. discriminate.
Defined.

(** The delays of attempts 1 to 4 with the default 3000 ms. *)
Lemma four_reconnect_delays :
  map (fun t => Qred (t_delay t)) (timers (after DEFAULT_CONFIG four_closes))
  = [3000 # 1; 4500 # 1; 6750 # 1; 10125 # 1]%Q.
Proof. vm_compute. reflexivity. Qed.


(** ** C1: a reconnect that is pending when the session is destroyed *)

(** [destroySession] leaves the timers as they are, and a re-boot registers
    its session whatever the registry holds. *)
Lemma destroySession_keeps_timers i st :
  timers (fst (destroySession i st)) = timers st.
Proof.
  unfold destroySession. destruct (map_get i (sessions st)) as [session|]; [|reflexivity].
  destruct (socks st !! sock session); reflexivity.
Qed.

Lemma pending_reconnect_boots cfg now k t st :
  timers st !! k = Some t -> t_pending t = true ->
  (inject_Z (t_setAt t) + t_delay t <= inject_Z now)%Q ->
  exists st', step cfg now (ReconnectTimer k true) st = Some st' /\
    hasSession st' (t_session t) = true /\
    length (socks st') = S (length (socks st)).
Proof.
  intros Ht Hp Hdue. cbn. rewrite Ht, Hp. apply Qle_bool_iff in Hdue. rewrite Hdue. cbn.
  eexists. split; [reflexivity|].
  match goal with |- context [_boot ?i ?x] => destruct (boot_registers i x) as (H1 & H2 & _) end.
  split; [exact H1 | exact H2].
Qed.

(** C1, on the code: the session "s1" is created, its socket closes with
    428, which schedules a re-boot in 3000 ms, and the session is destroyed
    at 20 ms.  The session is then gone and the timer still pending; when
    the timer fires at 3010 ms, [_boot] runs and registers "s1" again, in
    status initializing and with a second socket. *)
Theorem reconnect_fires_after_destroy :
  let st := after DEFAULT_CONFIG destroyed_while_reconnecting in
  run DEFAULT_CONFIG destroyed_while_reconnecting empty = Some st /\
  hasSession st "s1" = false /\
  map (fun t => (t_session t, t_pending t)) (timers st) = [("s1", true)] /\
  exists st',
    step DEFAULT_CONFIG 3010 (ReconnectTimer 0 true) st = Some st' /\
    hasSession st' "s1" = true /\
    length (socks st') = 2%nat /\
    (getInfo st' "s1" ≫= status_at st') = Some initializing.
Proof.
  cbv zeta. split; [vm_compute; reflexivity|].
  split; [vm_compute; reflexivity|].
  split; [vm_compute; reflexivity|].
  eexists. split; [vm_compute; reflexivity|].
  split; [vm_compute; reflexivity|].
  split; vm_compute; reflexivity.
Qed.

(** ** C2: what [getInfo] and [listSessions] return *)

(** C2, as the specification has it, fails: the object that [getInfo] and
    [listSessions] return for "s1" after its creation reads initializing
    then, and connected after the socket reported 'open'. *)
Lemma getInfo_returns_the_object_the_handler_mutates :
  let st1 := after DEFAULT_CONFIG [(0, CreateSession "s1" true)] in
  exists st2 r,
    getInfo st1 "s1" = Some r /\
    listSessions st1 = [r] /\
    step DEFAULT_CONFIG 10 (ConnectionUpdate 0 open_update) st1 = Some st2 /\
    status_at st1 r = Some initializing /\
    status_at st2 r = Some connected /\
    deref st2 r <> deref st1 r.
Proof.
  cbv zeta. eexists. exists 0%nat.
  split; [vm_compute; reflexivity|].
  split; [vm_compute; reflexivity|].
  split; [vm_compute; reflexivity|].
  split; [vm_compute; reflexivity|].
  split; [vm_compute; reflexivity|].
  vm_compute. discriminate.
Qed.

(** When the registry holds the object of a socket's handler, a
    [connection.update] of that socket leaves it in the registry and
    changes it in place: read through the same reference it is the updated
    one, its status being the one the update leads to.  What the manager
    has emitted, the copies carried by [session.status] among it, is only
    added to. *)
Lemma registered_object_is_updated_in_place cfg now sk s u st o :
  socks st !! sk = Some s ->
  getInfo st (s_session s) = Some (s_info s) ->
  deref st (s_info s) = Some o ->
  exists st',
    step cfg now (ConnectionUpdate sk u) st = Some st' /\
    getInfo st' (s_session s) = Some (s_info s) /\
    listSessions st' = listSessions st /\
    In (s_info s) (listSessions st') /\
    deref st' (s_info s) = Some (update_info cfg now u o) /\
    status_at st' (s_info s) = Some (next_status cfg u (status o)) /\
    exists new, emitted st' = new ++ emitted st.
Proof.
  intros Hs Hg Ho. cbn. rewrite Hs. eexists. split; [reflexivity|].
  destruct (handler_frame cfg now (s_session s) (s_info s) u st)
    as (Hh & _ & _ & Hsess & Hem & _).
  cbv zeta in *. specialize (Hsess Hg).
  assert (Hd : deref (on_connection_update cfg now (s_session s) (s_info s) u st) (s_info s)
               = Some (update_info cfg now u o)).
  { unfold deref in *. rewrite Hh, mutate_heap_lookup.
    case_decide; [|congruence]. rewrite Ho. reflexivity. }
  conjs.
  - unfold getInfo. rewrite Hsess. exact Hg.
  - unfold listSessions. rewrite Hsess. reflexivity.
  - unfold listSessions. rewrite Hsess. eapply getInfo_listed, Hg.
  - exact Hd.
  - unfold status_at. unfold deref in Hd. rewrite Hd. cbn.
    rewrite update_info_status. reflexivity.
  - exact Hem.
Qed.

(** ** C4: how the status of a session changes *)

(** Every step leaves an object of the heap as it is, unless it is an
    update from a socket whose handler holds this object. *)
Lemma step_heap cfg now e st st' r o :
  step cfg now e st = Some st' -> deref st r = Some o ->
  deref st' r = Some o \/
  exists sk s u, e = ConnectionUpdate sk u /\ socks st !! sk = Some s /\ s_info s = r /\
    deref st' r = Some (update_info cfg now u o).
Proof.
  unfold deref. intros H Ho. destruct e as [i ok|i|i ms|k|sk u|k ok]; cbn in H.
  - injection H as <-. left. unfold createSession.
    destruct (map_has i (sessions st)); [exact Ho|].
    destruct ok; cbn; [apply boot_heap|]; exact Ho.
  - injection H as <-. left. unfold destroySession.
    destruct (map_get i (sessions st)) as [session|]; [|exact Ho].
    destruct (socks st !! sock session); exact Ho.
  - injection H as <-. left. unfold waitForConnected.
    destruct (is_connected st (getInfo st i)); exact Ho.
  - destruct (waiters st !! k) as [w|]; [|discriminate].
    destruct (w_timer w && (w_deadline w <=? now)); [|discriminate].
    injection H as <-. left. exact Ho.
  - destruct (socks st !! sk) as [s|] eqn:Hs; [|discriminate]. injection H as <-.
    destruct (handler_frame cfg now (s_session s) (s_info s) u st) as (Hh & _).
    cbv zeta in Hh. rewrite Hh, mutate_heap_lookup. case_decide as Hd.
    + right. exists sk, s, u. rewrite Ho. auto.
    + left. exact Ho.
  - destruct (timers st !! k) as [t|]; [|discriminate].
    destruct (t_pending t && Qle_bool (inject_Z (t_setAt t) + t_delay t) (inject_Z now));
      [|discriminate].
    injection H as <-. left. destruct ok; [apply boot_heap|]; exact Ho.
Qed.




(** ** C6: [waitForConnected] *)

(** Whatever settles the promise releases the timer and both listeners. *)
Lemma settle_releases r w :
  w_timer (settle r w) = false /\ w_onConnected (settle r w) = false /\
  w_onStatus (settle r w) = false /\
  (w_settled w = None -> w_settled (settle r w) = Some r).
Proof. unfold settle. conjs; try reflexivity. intros ->. reflexivity. Qed.

(** The waiter that waits for [i] is fulfilled by [session.connected] for
    [i], with what [getInfo] returns then. *)
Lemma waiter_fulfilled_when_connected st w :
  w_onConnected w = true -> w_settled w = None ->
  onConnected st (w_session w) w
  = mkWaiter (w_session w) (w_deadline w) false false false
      (Some (Fulfilled (getInfo st (w_session w)))).
Proof.
  intros H1 H2. unfold onConnected, settle. rewrite H1, String.eqb_refl, H2. reflexivity.
Qed.

(** It is rejected with LoggedOut by a [session.status] for [i] that shows
    logged_out. *)
Lemma waiter_rejected_when_logged_out o w :
  w_onStatus w = true -> w_settled w = None ->
  id o = w_session w -> status o = logged_out ->
  onStatus o w = mkWaiter (w_session w) (w_deadline w) false false false (Some LoggedOut).
Proof.
  intros H1 H2 H3 H4. unfold onStatus, settle. rewrite H1, H3, H4, String.eqb_refl, H2.
  reflexivity.
Qed.

(** It is rejected with Timeout by its timer. *)
Lemma waiter_rejected_by_timer w :
  w_settled w = None ->
  on_wait_timeout w = mkWaiter (w_session w) (w_deadline w) false false false (Some Timeout).
Proof. intros H. unfold on_wait_timeout, settle. rewrite H. reflexivity. Qed.

(** Unless the session is connected at the call, whatever else its status
    is, the call only arms the timer and subscribes the two listeners. *)
Lemma waitForConnected_subscribes now i ms st :
  is_connected st (getInfo st i) = false ->
  waiters (waitForConnected now i ms st)
  = waiters st ++ [mkWaiter i (now + ms) true true true None].
Proof. intros H. unfold waitForConnected. rewrite H. reflexivity. Qed.

(** A session that is connected fulfils the promise at once, one that
    connects or is logged out while it is waited for settles it then. *)
Lemma waitForConnected_paths :
  let created := after DEFAULT_CONFIG [(0, CreateSession "s1" true)] in
  (exists st, run DEFAULT_CONFIG
                [(10, ConnectionUpdate 0 open_update); (20, WaitForConnected "s1" 5000)]
                created = Some st /\
     waiters st = [mkWaiter "s1" 20 false false false (Some (Fulfilled (Some 0%nat)))]) /\
  (exists st, run DEFAULT_CONFIG
                [(10, WaitForConnected "s1" 5000); (20, ConnectionUpdate 0 open_update)]
                created = Some st /\
     waiters st = [mkWaiter "s1" 5010 false false false (Some (Fulfilled (Some 0%nat)))]) /\
  (exists st, run DEFAULT_CONFIG
                [(10, WaitForConnected "s1" 5000); (20, ConnectionUpdate 0 (close_update 401))]
                created = Some st /\
     waiters st = [mkWaiter "s1" 5010 false false false (Some LoggedOut)]) /\
  (exists st, run DEFAULT_CONFIG
                [(10, WaitForConnected "s1" 5000); (5010, WaitTimer 0)]
                created = Some st /\
     waiters st = [mkWaiter "s1" 5010 false false false (Some Timeout)]).
Proof.
  cbv zeta. conjs; eexists; split; vm_compute; reflexivity.
Qed.

(** C6, on the code: the session "s1" is logged out at 10 ms; a call of
    [waitForConnected("s1", 5000)] at 20 ms is not rejected: its promise
    stays pending, timer and listeners in place, until the timer fires at
    5020 ms or later, which rejects it with the timeout error, not with
    the logged-out error. *)
Theorem waitForConnected_after_logout_times_out :
  let st := after DEFAULT_CONFIG logged_out_at_once in
  (getInfo st "s1" ≫= status_at st) = Some logged_out /\
  let st1 := waitForConnected 20 "s1" 5000 st in
  waiters st1 = [mkWaiter "s1" 5020 true true true None] /\
  forall now, 5020 <= now ->
    exists st2, step DEFAULT_CONFIG now (WaitTimer 0) st1 = Some st2 /\
      waiters st2 = [mkWaiter "s1" 5020 false false false (Some Timeout)].
Proof.
  cbv zeta. split; [vm_compute; reflexivity|].
  split; [vm_compute; reflexivity|].
  intros now Hnow.
  remember (waitForConnected 20 "s1" 5000 (after DEFAULT_CONFIG logged_out_at_once)) as st1
    eqn:Hst1.
  assert (Hw : waiters st1 = [mkWaiter "s1" 5020 true true true None])
    by (rewrite Hst1; vm_compute; reflexivity).
  unfold step. rewrite Hw. cbn [lookup list_lookup w_timer w_deadline andb].
  destruct (Z.leb_spec 5020 now); [|lia].
  eexists. split; [reflexivity|].
  reflexivity.
Qed.
End SessionManagerSpec.

(* ===================================================================== *)
(** * Properties of the webhook bridge                                    *)
(* ===================================================================== *)

Module WebhookBridgeSpec.
Import WebhookBridge.

Lemma send_unfold c remote now a :
  _sendWithRetry c remote now a =
  let finish := now + Z.of_nat (fst (remote a)) in
  match _httpPost (snd (remote a)) with
  | inr code => (Post a now finish :: (if onSuccess c then [OnSuccess code] else []), None)
  | inl err =>
      if decide (a < retries_of c)%nat then
        let rest := _sendWithRetry c remote (finish + setTimeout_after (backoff c a)) (S a) in
        (Post a now finish :: Sleep (backoff c a) :: fst rest, snd rest)
      else ([Post a now finish], Some err)
  end.
Proof.
  simp _sendWithRetry.
  destruct (_httpPost (snd (remote a))) as [e|code]; simpl.
  - destruct (lt_dec a (retries_of c)); simpl; case_decide; try lia; reflexivity.
  - reflexivity.
Qed.

Lemma setTimeout_after_pos d : 1 <= setTimeout_after d.
Proof.
  unfold setTimeout_after. destruct (1 <=? d) eqn:E; cbn; [|lia].
  destruct (d <=? 2147483647); lia.
Qed.

Lemma posts_Post n s f l : posts (Post n s f :: l) = (n, s, f) :: posts l.
Proof. reflexivity. Qed.
Lemma posts_Sleep d l : posts (Sleep d :: l) = posts l.
Proof. reflexivity. Qed.
Lemma sleeps_Post n s f l : sleeps (Post n s f :: l) = sleeps l.
Proof. reflexivity. Qed.
Lemma sleeps_Sleep d l : sleeps (Sleep d :: l) = d :: sleeps l.
Proof. reflexivity. Qed.
Lemma errors_Post n s f l : errors (Post n s f :: l) = errors l.
Proof. reflexivity. Qed.
Lemma errors_Sleep d l : errors (Sleep d :: l) = errors l.
Proof. reflexivity. Qed.

Lemma backoff_lt c a b :
  0 < retryDelay_of c -> (a < b)%nat -> backoff c a < backoff c b.
Proof.
  intros Hd Hab. unfold backoff.
  apply Z.mul_lt_mono_pos_l; [exact Hd|].
  apply Z.pow_lt_mono_r; lia.
Qed.

Lemma backoff_sorted c a n :
  0 < retryDelay_of c -> StronglySorted Z.lt (map (backoff c) (seq a n)).
Proof.
  intros Hd. revert a. induction n as [|n IH]; intros a; simpl.
  - constructor.
  - constructor; [apply IH|].
    apply Forall_forall. intros x Hx.
    apply list_elem_of_In, in_map_iff in Hx. destruct Hx as (b & <- & Hb).
    apply in_seq in Hb. apply backoff_lt; [exact Hd | lia].
Qed.

(** The shape of a retry sequence against a receiving end that fails every
    request, from attempt [a] on. *)
Lemma send_always_fails c remote :
  always_fails remote ->
  forall k a now, (retries_of c - a)%nat = k -> (a <= retries_of c)%nat ->
    let r := _sendWithRetry c remote now a in
    (exists e, snd r = Some e) /\
    map (fun p => fst (fst p)) (posts (fst r)) = seq a (S k) /\
    sleeps (fst r) = map (backoff c) (seq a k) /\
    errors (fst r) = [] /\
    (exists f rest, posts (fst r) = (a, now, f) :: rest) /\
    sequential (posts (fst r)).
Proof.
  intros Hf k. induction k as [|k IH]; intros a now Hk Ha; cbv zeta;
    rewrite send_unfold; cbv zeta; destruct (Hf a) as [e He]; rewrite He;
    case_decide; try lia.
  - simpl. repeat split; eauto; lia.
  - destruct (IH (S a) (now + Z.of_nat (fst (remote a)) + setTimeout_after (backoff c a))) as
      (He' & Hp & Hs & Herr & (f & rest & Hhd) & Hseq); [lia | lia |].
    cbn [fst snd]. rewrite !posts_Post, !posts_Sleep, sleeps_Post, sleeps_Sleep,
      errors_Post, errors_Sleep.
    repeat split.
    + exact He'.
    + simpl. f_equal. exact Hp.
    + simpl. f_equal. exact Hs.
    + exact Herr.
    + eauto.
    + lia.
    + rewrite Hhd. pose proof (setTimeout_after_pos (backoff c a)). lia.
    + exact Hseq.
Qed.

Lemma posts_app l1 l2 : posts (l1 ++ l2) = posts l1 ++ posts l2.
Proof. apply omap_app. Qed.
Lemma sleeps_app l1 l2 : sleeps (l1 ++ l2) = sleeps l1 ++ sleeps l2.
Proof. apply omap_app. Qed.
Lemma errors_app l1 l2 : errors (l1 ++ l2) = errors l1 ++ errors l2.
Proof. apply omap_app. Qed.

Lemma dispatch_delivers st remotes event now i c :
  In (i, c) (configs st) -> subscribed c event = true ->
  In (i, deliver c (remotes i) now) (_dispatch st remotes event now).
Proof.
  intros Hin Hsub. apply list_elem_of_In. unfold _dispatch.
  apply list_elem_of_omap. exists (i, c). split.
  - apply list_elem_of_In, Hin.
  - simpl. rewrite Hsub. reflexivity.
Qed.

Lemma sorted_short (l : list Z) : (length l <= 1)%nat -> StronglySorted Z.lt l.
Proof.
  destruct l as [|x [|y l]]; cbn; intros H; [constructor | | lia].
  constructor; [constructor | constructor].
Qed.

(** When the delays double from a first one [d], they grow strictly only
    for a positive [d], unless there are fewer than two of them. *)
Lemma doubling_sorted d n :
  StronglySorted Z.lt (map (fun attempt => d * 2 ^ Z.of_nat attempt) (seq 0 n))
  <-> 0 < d \/ (n <= 1)%nat.
Proof.
  split.
  - intros Hs. destruct n as [|[|n]]; [right; lia | right; lia | left].
    change (seq 0 (S (S n))) with (0 :: 1 :: seq 2 n)%nat in Hs. cbn [map] in Hs.
    apply StronglySorted_inv in Hs. destruct Hs as (_ & Hall).
    apply Forall_cons in Hall. destruct Hall as (Hlt & _).
    change (2 ^ Z.of_nat 0) with 1 in Hlt. change (2 ^ Z.of_nat 1) with 2 in Hlt. lia.
  - intros [Hd | Hn].
    + generalize 0%nat. induction n as [|n IH]; intros a; cbn; constructor; [apply IH|].
      apply Forall_forall. intros x Hx.
      apply list_elem_of_In, in_map_iff in Hx. destruct Hx as (b & <- & Hb).
      apply in_seq in Hb. apply Z.mul_lt_mono_pos_l; [exact Hd|].
      apply Z.pow_lt_mono_r; lia.
    + apply sorted_short. rewrite length_map, length_seq. exact Hn.
Qed.

(** C8, as the specification has it, fails: an endpoint registered with
    [retryDelayMs] 0 and the default three retries, whose every request
    fails, is posted to four times with the delays 0, 0 and 0 between the
    requests, which do not increase. *)
Lemma zero_retry_delay_does_not_increase :
  exists acts,
    In ("a", acts)
       (_dispatch (addEndpoint "a" hasty (mkState [])) (fun _ => failing) "messages.upsert" 0) /\
    length (posts acts) = 4%nat /\
    sleeps acts = [0; 0; 0] /\
    ~ StronglySorted Z.lt (sleeps acts).
Proof.
  eexists. split; [left; reflexivity|].
  split; [vm_compute; reflexivity|].
  split; [vm_compute; reflexivity|].
  intros Hs. replace (sleeps _) with [0; 0; 0] in Hs by (vm_compute; reflexivity).
  apply StronglySorted_inv in Hs. destruct Hs as (_ & Hall).
  apply Forall_cons in Hall. destruct Hall as (Hlt & _). lia.
Qed.

(** C8, as the code has it: an endpoint whose every request fails is
    posted to [retries + 1] times for one event ([retries] being 3 when the
    endpoint gives none), attempts 0 to [retries], none started before the
    one before it has failed and the delay has passed; the delays between
    them are [retryDelayMs * 2^attempt] ([retryDelayMs] being 1000 when the
    endpoint gives none), and they increase strictly exactly when
    [retryDelayMs] is positive or there are fewer than two of them; then
    [onError], if the endpoint has one, is called, once, as the last thing
    done. *)
Theorem failing_endpoint_exhausts_retries st remotes event now i c :
  In (i, c) (configs st) ->
  subscribed c event = true ->
  always_fails (remotes i) ->
  exists acts e,
    In (i, acts) (_dispatch st remotes event now) /\
    acts = deliver c (remotes i) now /\
    length (posts acts) = S (default 3%nat (retries c)) /\
    map (fun p => fst (fst p)) (posts acts) = seq 0 (S (default 3%nat (retries c))) /\
    sleeps acts = map (fun attempt => default 1000 (retryDelayMs c) * 2 ^ Z.of_nat attempt)
                    (seq 0 (default 3%nat (retries c))) /\
    (StronglySorted Z.lt (sleeps acts)
     <-> 0 < default 1000 (retryDelayMs c) \/ (default 3%nat (retries c) <= 1)%nat) /\
    sequential (posts acts) /\
    errors acts = (if onError c then [e] else []) /\
    (onError c = true -> last acts = Some (OnError e)).
Proof.
  intros Hin Hsub Hf.
  destruct (send_always_fails c (remotes i) Hf (retries_of c) 0%nat now)
    as ((e & He) & Hp & Hs & Herr & _ & Hseq); [lia | lia |].
  cbv zeta in *.
  assert (Hdel : deliver c (remotes i) now
                 = fst (_sendWithRetry c (remotes i) now 0)
                   ++ (if onError c then [OnError e] else [])).
  { unfold deliver. rewrite He. reflexivity. }
  exists (deliver c (remotes i) now), e.
  split; [apply dispatch_delivers; assumption|].
  split; [reflexivity|].
  rewrite Hdel, posts_app, sleeps_app, errors_app.
  assert (Hcb : posts (if onError c then [OnError e] else []) = [] /\
                sleeps (if onError c then [OnError e] else []) = [] /\
                errors (if onError c then [OnError e] else [])
                = if onError c then [e] else [])
    by (destruct (onError c); auto).
  destruct Hcb as (-> & -> & ->). rewrite !app_nil_r.
  unfold retries_of in Hp, Hs. unfold backoff, retryDelay_of in Hs.
  assert (Hlen : length (posts (_sendWithRetry c (remotes i) now 0).1)
                 = S (default 3%nat (retries c))).
  { rewrite <- (length_map (fun p => fst (fst p))), Hp, length_seq. reflexivity. }
  repeat match goal with |- _ /\ _ => split end.
  - exact Hlen.
  - exact Hp.
  - exact Hs.
  - rewrite Hs. apply doubling_sorted.
  - exact Hseq.
  - rewrite Herr. reflexivity.
  - intros ->. apply last_snoc.
Qed.

Lemma failing_endpoint_exhausts_retries_witness :
  exists acts e,
    In ("calls", acts)
       (_dispatch (addEndpoint "calls" patient (mkState [])) (fun _ => failing) "call" 0) /\
    acts = deliver (merged patient) failing 0 /\
    length (posts acts) = 6%nat /\
    map (fun p => fst (fst p)) (posts acts) = [0; 1; 2; 3; 4; 5]%nat /\
    sleeps acts = [250; 500; 1000; 2000; 4000] /\
    (StronglySorted Z.lt (sleeps acts) <-> 0 < 250 \/ (5 <= 1)%nat) /\
    sequential (posts acts) /\
    errors acts = [e] /\
    (true = true -> last acts = Some (OnError e)).
Proof.
  apply (failing_endpoint_exhausts_retries
           (addEndpoint "calls" patient (mkState [])) (fun _ => failing) "call" 0
           "calls" (merged patient)).
  - simpl. left. reflexivity.
  - reflexivity.
  - intros n. eexists. reflexivity.
Defined.

(** What the endpoint of the witness goes through, at 5 ms a request. *)
Lemma patient_endpoint_trace :
  deliver (merged patient) failing 0
  = [ Post 0 0 5; Sleep 250; Post 1 255 260; Sleep 500; Post 2 760 765; Sleep 1000;
      Post 3 1765 1770; Sleep 2000; Post 4 3770 3775; Sleep 4000; Post 5 7775 7780;
      OnError (HttpError (Some 500)) ].
Proof. vm_compute. reflexivity. Qed.

(** What an endpoint with the defaults goes through. *)
Lemma failing_endpoint_trace :
  deliver registered failing 0
  = [ Post 0 0 5; Sleep 1000; Post 1 1005 1010; Sleep 2000; Post 2 3010 3015; Sleep 4000;
      Post 3 7015 7020; OnError (HttpError (Some 500)) ].
Proof. vm_compute. reflexivity. Qed.

End WebhookBridgeSpec.

(* ===================================================================== *)
(** * More on the rate-limited queue                                      *)
(* ===================================================================== *)

Module RateLimiterMore.
Import RateLimiter RateLimiterSpec.

(** ** No task is lost, none is settled twice *)

Lemma settled_tids_rejected q :
  settled_tids (rev (map (fun t => Rejected t QueueCleared) q)) = rev (map tid q).
Proof.
  unfold settled_tids. induction q as [|t q IH]; [reflexivity|].
  simpl. rewrite omap_app, IH. reflexivity.
Qed.

Lemma conserve_loop_head cfg env now r1 r2 s :
  seq 0 (nextTid s) ≡ₚ map tid (queue s) ++ settled_tids (effects s) ->
  seq 0 (nextTid (loop_head cfg env now r1 r2 s))
  ≡ₚ map tid (queue (loop_head cfg env now r1 r2 s))
     ++ held (pc (loop_head cfg env now r1 r2 s))
     ++ settled_tids (effects (loop_head cfg env now r1 r2 s)).
Proof.
  intros H.
  destruct (loop_head_cases cfg env now r1 r2 s) as (_ & _ & _ & _ & Hn & _ & _ & Hc).
  cbv zeta in Hc. rewrite Hn.
  destruct Hc as [(Hq0 & Hpc & _ & Hq & He) | (t0 & rest & Hq0 & _ & [Hc | [Hc | Hc]])].
  - rewrite Hpc, He, Hq. rewrite Hq0 in H. exact H.
  - destruct Hc as (_ & Hq & Hpc & He). rewrite Hq, Hpc, He. exact H.
  - destruct Hc as (_ & _ & Hq & Hpc & He). rewrite Hq, Hpc, He. exact H.
  - destruct Hc as (_ & _ & Hq & He & Hpc). rewrite Hq, He.
    assert (Hh : held (pc (loop_head cfg env now r1 r2 s)) = [tid t0]).
    { destruct Hpc as [(l & _ & _ & _ & Hpc) | (_ & Hpc)]; rewrite Hpc; reflexivity. }
    rewrite Hh, H, Hq0. cbn. apply Permutation_middle.
Qed.

Lemma conserve_step cfg env i s s' :
  coherent s ->
  seq 0 (nextTid s) ≡ₚ map tid (queue s) ++ held (pc s) ++ settled_tids (effects s) ->
  step cfg env i s = Some s' ->
  seq 0 (nextTid s') ≡ₚ map tid (queue s') ++ held (pc s') ++ settled_tids (effects s').
Proof.
  intros Hco H Hs. unfold_step Hs i s.
  - injection Hs as <-. unfold enqueue, _process. cbn.
    assert (H1 : seq 0 (S (nextTid s))
                 ≡ₚ map tid (queue s ++ [mkTask j (nextTid s) (at_ i)])
                    ++ held (pc s) ++ settled_tids (effects s)).
    { rewrite seq_S, map_app, H. cbn. solve_Permutation. }
    destruct (processing s) eqn:Hp; cbn.
    + exact H1.
    + apply conserve_loop_head. cbn. rewrite (Hco Hp) in H1. exact H1.
  - injection Hs as <-. cbn. unfold settled_tids. rewrite omap_app.
    fold (settled_tids (rev (map (fun t => Rejected t QueueCleared) (queue s)))).
    rewrite settled_tids_rejected. fold (settled_tids (effects s)).
    rewrite H, <- Permutation_rev. solve_Permutation.
  - cbn in Hs. destruct (minuteResetAt s <=? at_ i); [|discriminate].
    injection Hs as <-. exact H.
  - cbn in Hs. destruct (dayResetAt s <=? at_ i); [|discriminate].
    injection Hs as <-. exact H.
  - cbn in Hs. destruct (pc s) as [|w|w|t w|t w|t] eqn:Hpc; try discriminate;
      destruct (w <=? at_ i); try discriminate; injection Hs as <-.
    + apply conserve_loop_head. exact H.
    + apply conserve_loop_head. exact H.
    + exact H.
    + exact H.
  - cbn in Hs. destruct (pc s) as [|w|w|t w|t w|t] eqn:Hpc; try discriminate.
    injection Hs as <-. apply conserve_loop_head.
    destruct r as [v|e]; cbn; rewrite H; reflexivity.
Qed.

(** Every task enqueued so far, numbered from 0 in the order of the calls
    of [enqueue], is in one place and one only: in the queue, in the hands
    of the loop, or settled, by its operation or by [clear].  So no promise
    is left out and none is settled twice.  (Here and below the two
    callbacks of the configuration return: one that throws leaves
    [enqueue] or the loop where it is.) *)
Theorem every_task_is_in_one_place cfg env now0 ins s :
  run cfg env ins (init env now0) = Some s ->
  seq 0 (nextTid s) ≡ₚ map tid (queue s) ++ held (pc s) ++ settled_tids (effects s) /\
  NoDup (map tid (queue s) ++ held (pc s) ++ settled_tids (effects s)).
Proof.
  intros Hrun.
  assert (H : coherent s /\
              seq 0 (nextTid s)
              ≡ₚ map tid (queue s) ++ held (pc s) ++ settled_tids (effects s)).
  { revert Hrun.
    apply (run_invariant cfg env (fun s => coherent s /\
             seq 0 (nextTid s)
             ≡ₚ map tid (queue s) ++ held (pc s) ++ settled_tids (effects s))).
    - intros i s0 s1 (Hc & Hp) Hs. split.
      + eapply coherent_step; eassumption.
      + eapply conserve_step; eassumption.
    - split; [intros _; reflexivity | reflexivity]. }
  destruct H as (_ & H). split; [exact H|].
  rewrite <- H. apply NoDup_seq.
Qed.

Lemma every_task_is_in_one_place_witness :
  let s := default (init utc 59000)
             (run two_per_minute utc (firstn 7 five_instant_tasks) (init utc 59000)) in
  seq 0 (nextTid s) ≡ₚ map tid (queue s) ++ held (pc s) ++ settled_tids (effects s) /\
  NoDup (map tid (queue s) ++ held (pc s) ++ settled_tids (effects s)).
Proof.
  apply (every_task_is_in_one_place two_per_minute utc 59000 (firstn 7 five_instant_tasks)).
  vm_compute. reflexivity.
Defined.

(** ** One task at a time *)

Lemma bracket_app c l1 l2 :
  bracket c (l1 ++ l2) = bracket c l1 ≫= fun c' => bracket c' l2.
Proof.
  revert c. induction l1 as [|x l1 IH]; intros c; [reflexivity|].
  destruct x as [j n|j|t d|t v|t [|e]]; cbn; try apply IH.
  - destruct c; [reflexivity | apply IH].
  - destruct c as [t'|]; [|reflexivity]. case_decide; [apply IH | reflexivity].
  - destruct c as [t'|]; [|reflexivity]. case_decide; [apply IH | reflexivity].
Qed.

Lemma bracket_quiet c l :
  Forall (fun x => is_quiet x = true) l -> bracket c l = Some c.
Proof.
  induction 1 as [|x l Hx _ IH]; [reflexivity|].
  destruct x as [j n|j|t d|t v|t [|e]]; try discriminate; exact IH.
Qed.

Lemma trace_loop_head cfg env now r1 r2 s :
  exists q, trace (loop_head cfg env now r1 r2 s) = trace s ++ q /\
    Forall (fun x => is_quiet x = true) q /\
    flying (pc (loop_head cfg env now r1 r2 s)) = None.
Proof.
  destruct (loop_head_cases cfg env now r1 r2 s) as (_ & _ & _ & _ & _ & _ & _ & Hc).
  cbv zeta in Hc. unfold trace.
  destruct Hc as [(_ & Hpc & _ & _ & He) | (t0 & rest & _ & _ & [Hc | [Hc | Hc]])].
  - exists []. rewrite He, Hpc, app_nil_r. auto.
  - destruct Hc as (_ & _ & Hpc & He). eexists [_]. rewrite He, Hpc. cbn.
    split; [reflexivity|]. split; [|reflexivity]. constructor; [reflexivity | constructor].
  - destruct Hc as (_ & _ & _ & Hpc & He). exists []. rewrite He, Hpc, app_nil_r. auto.
  - destruct Hc as (_ & _ & _ & He & [(l & _ & _ & _ & Hpc) | (_ & Hpc)]);
      exists []; rewrite He, Hpc, app_nil_r; auto.
Qed.

Lemma bracket_loop_head cfg env now r1 r2 s c :
  bracket None (trace s) = Some c ->
  bracket c [] = Some None ->
  bracket None (trace (loop_head cfg env now r1 r2 s))
  = Some (flying (pc (loop_head cfg env now r1 r2 s))).
Proof.
  intros H Hc. destruct (trace_loop_head cfg env now r1 r2 s) as (q & -> & Hq & ->).
  rewrite bracket_app, H. cbn. rewrite (bracket_quiet _ _ Hq). exact Hc.
Qed.

Lemma bracket_step cfg env i s s' :
  coherent s ->
  bracket None (trace s) = Some (flying (pc s)) ->
  step cfg env i s = Some s' ->
  bracket None (trace s') = Some (flying (pc s')).
Proof.
  intros Hco H Hs. unfold_step Hs i s.
  - injection Hs as <-. unfold enqueue, _process. cbn.
    destruct (processing s) eqn:Hp; cbn.
    + unfold trace in *. cbn. rewrite bracket_app, H. reflexivity.
    + eapply bracket_loop_head with (c := None); [|reflexivity].
      unfold trace in *. cbn. rewrite bracket_app, H, (Hco Hp). reflexivity.
  - injection Hs as <-. unfold trace in *. cbn.
    rewrite rev_app_distr, rev_involutive, bracket_app, H. cbn.
    apply bracket_quiet, Forall_forall. intros x Hx.
    apply list_elem_of_In, in_map_iff in Hx. destruct Hx as (t & <- & _). reflexivity.
  - cbn in Hs. destruct (minuteResetAt s <=? at_ i); [|discriminate].
    injection Hs as <-. exact H.
  - cbn in Hs. destruct (dayResetAt s <=? at_ i); [|discriminate].
    injection Hs as <-. exact H.
  - cbn in Hs. destruct (pc s) as [|w|w|t w|t w|t] eqn:Hpc; try discriminate;
      destruct (w <=? at_ i); try discriminate; injection Hs as <-.
    + eapply bracket_loop_head with (c := None); [exact H | reflexivity].
    + eapply bracket_loop_head with (c := None); [exact H | reflexivity].
    + exact H.
    + unfold trace in *. cbn. rewrite bracket_app, H. reflexivity.
  - cbn in Hs. destruct (pc s) as [|w|w|t w|t w|t] eqn:Hpc; try discriminate.
    injection Hs as <-.
    destruct r as [v|e]; (eapply bracket_loop_head with (c := None); [|reflexivity]);
      unfold trace in *; cbn; rewrite bracket_app, H; cbn; case_decide; congruence.
Qed.

Lemma reachable_bracket cfg env now0 ins s :
  run cfg env ins (init env now0) = Some s ->
  bracket None (trace s) = Some (flying (pc s)).
Proof.
  intros Hrun.
  enough (coherent s /\ bracket None (trace s) = Some (flying (pc s))) by tauto.
  revert Hrun.
  apply (run_invariant cfg env
           (fun s => coherent s /\ bracket None (trace s) = Some (flying (pc s)))).
  - intros i s0 s1 (Hc & Hb) Hs. split.
    + eapply coherent_step; eassumption.
    + eapply bracket_step; eassumption.
  - split; [intros _; reflexivity | reflexivity].
Qed.

Lemma bracket_settles_before_next t1 mid : forall t2 d2 post x,
  bracket (Some t1) (mid ++ Invoked t2 d2 :: post) = Some x ->
  exists r, In (settlement t1 r) mid.
Proof.
  induction mid as [|e mid IH]; intros t2 d2 post x; cbn; [discriminate|].
  destruct e as [j n|j|t d|t v|t [|e]]; cbn.
  - intros H. destruct (IH _ _ _ _ H) as (r & Hr). eauto.
  - intros H. destruct (IH _ _ _ _ H) as (r & Hr). eauto.
  - discriminate.
  - case_decide as Heq; [|discriminate]. subst t. intros _. exists (inl v). left. reflexivity.
  - intros H. destruct (IH _ _ _ _ H) as (r & Hr). eauto.
  - case_decide as Heq; [|discriminate]. subst t. intros _. exists (inr e). left. reflexivity.
Qed.

Lemma bracket_flying_was_dispatched l : forall c t,
  bracket c l = Some (Some t) -> c = Some t \/ exists d, In (Invoked t d) l.
Proof.
  induction l as [|e l IH]; intros c t; cbn.
  - intros [= ->]. left. reflexivity.
  - destruct e as [j n|j|t0 d|t0 v|t0 [|e]]; cbn.
    + intros H. destruct (IH _ _ H) as [-> | (d & Hd)]; eauto.
    + intros H. destruct (IH _ _ H) as [-> | (d & Hd)]; eauto.
    + destruct c; [discriminate|]. intros H.
      destruct (IH _ _ H) as [[= ->] | (d' & Hd)]; eauto.
    + destruct c as [t'|]; [|discriminate]. case_decide; [|discriminate]. intros Hb.
      destruct (IH _ _ Hb) as [[=] | (d' & Hd)]; eauto.
    + intros H. destruct (IH _ _ H) as [-> | (d & Hd)]; eauto.
    + destruct c as [t'|]; [|discriminate]. case_decide; [|discriminate]. intros Hb.
      destruct (IH _ _ Hb) as [[=] | (d' & Hd)]; eauto.
Qed.

(** One task executes at a time: along every run, between two calls of an
    operation the promise of the first task has been settled by the outcome
    of its operation, and an operation's outcome settles a promise only
    after the operation was called. *)
Theorem one_task_in_flight cfg env now0 ins s :
  run cfg env ins (init env now0) = Some s ->
  (forall pre t1 d1 mid t2 d2 post,
     trace s = pre ++ Invoked t1 d1 :: mid ++ Invoked t2 d2 :: post ->
     exists r, In (settlement t1 r) mid) /\
  (forall pre t r post,
     trace s = pre ++ settlement t r :: post ->
     exists d, In (Invoked t d) pre).
Proof.
  intros Hrun. pose proof (reachable_bracket _ _ _ _ _ Hrun) as Hb. split.
  - intros pre t1 d1 mid t2 d2 post Htr. rewrite Htr, bracket_app in Hb.
    destruct (bracket None pre) as [c|]; [|discriminate]. cbn in Hb.
    destruct c; [discriminate|]. eapply bracket_settles_before_next. exact Hb.
  - intros pre t r post Htr. rewrite Htr, bracket_app in Hb.
    destruct (bracket None pre) as [c|] eqn:Hpre; [|discriminate]. cbn in Hb.
    assert (Hc : c = Some t).
    { destruct r as [v|e]; cbn in Hb; (destruct c as [t'|]; [|discriminate]);
        case_decide; congruence. }
    subst c. destruct (bracket_flying_was_dispatched _ _ _ Hpre) as [[=] | Hd]. exact Hd.
Qed.

Lemma one_task_in_flight_witness :
  let s := default (init utc 59000)
             (run two_per_minute utc five_instant_tasks (init utc 59000)) in
  (forall pre t1 d1 mid t2 d2 post,
     trace s = pre ++ Invoked t1 d1 :: mid ++ Invoked t2 d2 :: post ->
     exists r, In (settlement t1 r) mid) /\
  (forall pre t r post,
     trace s = pre ++ settlement t r :: post ->
     exists d, In (Invoked t d) pre).
Proof.
  apply (one_task_in_flight two_per_minute utc 59000 five_instant_tasks).
  vm_compute. reflexivity.
Defined.

(** ** First in, first out *)

Lemma sorted_snoc (l : list nat) n :
  StronglySorted lt l -> Forall (fun x => (x < n)%nat) l -> StronglySorted lt (l ++ [n]).
Proof.
  induction 1 as [|x l Hs IH Hx]; intros Hall; cbn.
  - constructor; constructor.
  - apply Forall_cons in Hall. destruct Hall as (Hxn & Hall).
    constructor; [apply IH, Hall|].
    apply Forall_app. split; [exact Hx | constructor; [exact Hxn | constructor]].
Qed.

Lemma ordered_quiet new l :
  Forall (fun x => is_invoked x = false) new -> ordered l -> ordered (new ++ l).
Proof.
  induction 1 as [|x new Hx _ IH]; cbn; [tauto|].
  intros H. split; [|auto]. destruct x; try exact I; discriminate.
Qed.

Lemma ordered_split newer : forall t2 d2 older t1 d1,
  ordered (newer ++ Invoked t2 d2 :: older) -> In (Invoked t1 d1) older ->
  (tid t1 < tid t2)%nat.
Proof.
  induction newer as [|x newer IH]; intros t2 d2 older t1 d1; cbn.
  - intros (H & _) Hin. eapply H, Hin.
  - intros (_ & H). eapply IH, H.
Qed.

(** What [loop_head] needs of the state it starts from; the task the state
    holds is the one just settled, or none. *)
Lemma fifo_loop_head cfg env now r1 r2 s :
  StronglySorted lt (map tid (queue s)) ->
  Forall (fun q => (tid q < nextTid s)%nat) (queue s) ->
  (forall t d, In (Invoked t d) (effects s) ->
     (tid t < nextTid s)%nat /\ Forall (fun q => (tid t < tid q)%nat) (queue s)) ->
  ordered (effects s) ->
  fifo_inv (loop_head cfg env now r1 r2 s).
Proof.
  intros F1 F2 F4 F5.
  destruct (loop_head_cases cfg env now r1 r2 s) as (_ & _ & _ & _ & Hn & _ & _ & Hc).
  cbv zeta in Hc. unfold fifo_inv. rewrite Hn.
  destruct Hc as [(Hq0 & Hpc & _ & Hq & He) | (t0 & rest & Hq0 & _ & [Hc | [Hc | Hc]])].
  - rewrite Hq, Hpc, He. cbn. refine (conj _ (conj _ (conj _ (conj _ F5)))).
    + constructor.
    + constructor.
    + intros t Ht. discriminate.
    + intros t d Hin. destruct (F4 t d Hin) as (? & _). auto.
  - destruct Hc as (_ & Hq & Hpc & He). rewrite Hq, Hpc, He. cbn.
    refine (conj F1 (conj F2 (conj _ (conj _ (conj I F5))))).
    + intros t Ht. discriminate.
    + intros t d [Hin | Hin]; [discriminate|]. destruct (F4 t d Hin). auto.
  - destruct Hc as (_ & _ & Hq & Hpc & He). rewrite Hq, Hpc, He. cbn.
    refine (conj F1 (conj F2 (conj _ (conj _ F5)))).
    + intros t Ht. discriminate.
    + intros t d Hin. destruct (F4 t d Hin). auto.
  - destruct Hc as (_ & _ & Hq & He & Hpc). rewrite Hq, He.
    rewrite Hq0 in F1, F2, F4. cbn in F1.
    apply StronglySorted_inv in F1. destruct F1 as (F1 & F1h).
    apply Forall_cons in F2. destruct F2 as (F2h & F2).
    assert (F1h' : Forall (fun q => (tid t0 < tid q)%nat) rest).
    { apply Forall_forall. intros q Hq'. rewrite Forall_forall in F1h. apply F1h.
      apply list_elem_of_In, in_map, list_elem_of_In, Hq'. }
    assert (Hpt : pc_task (pc (loop_head cfg env now r1 r2 s)) = Some t0).
    { destruct Hpc as [(l & _ & _ & _ & Hpc) | (_ & Hpc)]; rewrite Hpc; reflexivity. }
    refine (conj F1 (conj F2 (conj _ (conj _ F5)))).
    + intros t Ht. rewrite Hpt in Ht. injection Ht as <-. auto.
    + intros t d Hin. destruct (F4 t d Hin) as (Hlt & Hall).
      apply Forall_cons in Hall. destruct Hall as (Hh & Hall).
      split; [exact Hlt|]. split; [exact Hall|].
      destruct Hpc as [(l & _ & _ & _ & Hpc) | (_ & Hpc)]; rewrite Hpc; exact Hh.
Qed.

Lemma fifo_step cfg env i s s' :
  fifo_inv s -> step cfg env i s = Some s' -> fifo_inv s'.
Proof.
  intros (F1 & F2 & F3 & F4 & F5) Hs.
  assert (F4' : forall t d, In (Invoked t d) (effects s) ->
            (tid t < nextTid s)%nat /\ Forall (fun q => (tid t < tid q)%nat) (queue s)).
  { intros t d Hin. destruct (F4 t d Hin) as (? & ? & _). auto. }
  unfold_step Hs i s.
  - injection Hs as <-. unfold enqueue, _process. cbn.
    set (new := mkTask j (nextTid s) (at_ i)).
    assert (G1 : StronglySorted lt (map tid (queue s ++ [new]))).
    { rewrite map_app. apply sorted_snoc; [exact F1|].
      apply Forall_forall. intros x Hx.
      apply list_elem_of_In, in_map_iff in Hx. destruct Hx as (q & <- & Hq).
      rewrite Forall_forall in F2. apply F2, list_elem_of_In, Hq. }
    assert (G2 : Forall (fun q => (tid q < S (nextTid s))%nat) (queue s ++ [new])).
    { apply Forall_app. split.
      - eapply Forall_impl; [exact F2|]. cbn. intros; lia.
      - constructor; [cbn; lia | constructor]. }
    assert (G4 : forall t d, In (Invoked t d) (effects s) ->
              (tid t < S (nextTid s))%nat /\
              Forall (fun q => (tid t < tid q)%nat) (queue s ++ [new])).
    { intros t d Hin. destruct (F4' t d Hin) as (Hlt & Hall). split; [lia|].
      apply Forall_app. split; [exact Hall | constructor; [exact Hlt | constructor]]. }
    destruct (processing s) eqn:Hp; cbn.
    + unfold fifo_inv. cbn. refine (conj G1 (conj G2 (conj _ (conj _ (conj I F5))))).
      * intros t Ht. destruct (F3 t Ht) as (Hlt & Hall). split; [lia|].
        apply Forall_app. split; [exact Hall | constructor; [exact Hlt | constructor]].
      * intros t d [Hin | Hin]; [discriminate|].
        destruct (G4 t d Hin) as (? & ?). destruct (F4 t d Hin) as (_ & _ & ?). auto.
    + apply fifo_loop_head; cbn; try assumption.
      * intros t d [Hin | Hin]; [discriminate | exact (G4 t d Hin)].
      * split; [exact I | exact F5].
  - injection Hs as <-. unfold fifo_inv. cbn.
    assert (Hin' : forall t d,
              In (Invoked t d) (rev (map (fun t => Rejected t QueueCleared) (queue s))
                                ++ effects s) -> In (Invoked t d) (effects s)).
    { intros t d Hin. apply in_app_or in Hin. destruct Hin as [Hin | Hin]; [|exact Hin].
      apply in_rev, in_map_iff in Hin. destruct Hin as (q & Hq & _). discriminate. }
    refine (conj _ (conj _ (conj _ (conj _ _)))).
    + constructor.
    + constructor.
    + intros t Ht. destruct (F3 t Ht). auto.
    + intros t d Hin. apply Hin' in Hin. destruct (F4 t d Hin) as (? & _ & ?). auto.
    + apply ordered_quiet; [|exact F5]. apply Forall_forall. intros x Hx.
      apply list_elem_of_In, in_rev, in_map_iff in Hx. destruct Hx as (q & <- & _).
      reflexivity.
  - cbn in Hs. destruct (minuteResetAt s <=? at_ i); [|discriminate].
    injection Hs as <-. unfold fifo_inv. cbn. auto.
  - cbn in Hs. destruct (dayResetAt s <=? at_ i); [|discriminate].
    injection Hs as <-. unfold fifo_inv. cbn. auto.
  - cbn in Hs. destruct (pc s) as [|w|w|t w|t w|t] eqn:Hpc; try discriminate;
      destruct (w <=? at_ i); try discriminate; injection Hs as <-.
    + apply fifo_loop_head; cbn; assumption.
    + apply fifo_loop_head; cbn; assumption.
    + unfold fifo_inv. cbn. refine (conj F1 (conj F2 (conj _ (conj _ F5)))).
      * intros t' [= <-]. apply (F3 t). reflexivity.
      * intros t' d Hin. apply (F4 t' d Hin).
    + unfold fifo_inv. cbn. destruct (F3 t eq_refl) as (Hlt & Hall).
      refine (conj F1 (conj F2 (conj _ (conj _ (conj _ F5))))).
      * intros t' [= <-]. auto.
      * intros t' d [Heq | Hin].
        -- injection Heq as <- <-. auto.
        -- destruct (F4 t' d Hin) as (? & ? & ?). repeat split; try assumption. lia.
      * intros t' d' Hin. destruct (F4 t' d' Hin) as (_ & _ & ?). assumption.
  - cbn in Hs. destruct (pc s) as [|w|w|t w|t w|t] eqn:Hpc; try discriminate.
    injection Hs as <-.
    destruct r as [v|e]; apply fifo_loop_head; cbn; try assumption.
    + intros t' d [Hin | Hin]; [discriminate | exact (F4' t' d Hin)].
    + split; [exact I | exact F5].
    + intros t' d [Hin | Hin]; [discriminate | exact (F4' t' d Hin)].
    + split; [exact I | exact F5].
Qed.

(** Strict first in, first out: along every run, a task whose operation is
    called later was enqueued later (its number, given by [enqueue], is
    larger). *)
Theorem tasks_are_dispatched_in_the_order_of_enqueue cfg env now0 ins s
    pre t1 d1 mid t2 d2 post :
  run cfg env ins (init env now0) = Some s ->
  trace s = pre ++ Invoked t1 d1 :: mid ++ Invoked t2 d2 :: post ->
  (tid t1 < tid t2)%nat.
Proof.
  intros Hrun Htr.
  assert (Hinv : fifo_inv s).
  { revert Hrun. apply (run_invariant cfg env fifo_inv).
    - intros i s0 s1. apply fifo_step.
    - unfold fifo_inv. cbn. refine (conj _ (conj _ (conj _ (conj _ I)))).
      + constructor.
      + constructor.
      + intros t Ht. discriminate.
      + intros t d []. }
  destruct Hinv as (_ & _ & _ & _ & F5).
  assert (He : effects s = rev post ++ Invoked t2 d2 :: rev mid ++ Invoked t1 d1 :: rev pre).
  { rewrite <- (rev_involutive (effects s)). fold (trace s). rewrite Htr.
    rewrite rev_app_distr. simpl. rewrite rev_app_distr. simpl.
    rewrite <- !app_assoc. reflexivity. }
  rewrite He in F5. eapply ordered_split; [exact F5|].
  apply in_or_app. right. left. reflexivity.
Qed.

Lemma tasks_are_dispatched_in_the_order_of_enqueue_witness : (1 < 3)%nat.
Proof.
  apply (tasks_are_dispatched_in_the_order_of_enqueue two_per_minute utc 59000
           five_instant_tasks
           (default (init utc 59000)
              (run two_per_minute utc five_instant_tasks (init utc 59000)))
           [OnRateLimited "a" 1; OnRateLimited "b" 1; OnRateLimited "c" 2;
            OnRateLimited "d" 3; OnRateLimited "e" 4;
            Invoked (mkTask "a" 0 59850) 59950; Resolved (mkTask "a" 0 59850) "sent"]
           (mkTask "b" 1 59850) 60050
           [Resolved (mkTask "b" 1 59850) "sent";
            Invoked (mkTask "c" 2 59850) 60150; Resolved (mkTask "c" 2 59850) "sent"]
           (mkTask "d" 3 59850) 120100
           [Resolved (mkTask "d" 3 59850) "sent";
            Invoked (mkTask "e" 4 59850) 120200; Resolved (mkTask "e" 4 59850) "sent"]).
  - vm_compute. reflexivity.
  - vm_compute. reflexivity.
Defined.

(** ** The counters of [stats] *)

Lemma day_loop_head cfg env now r1 r2 s :
  0 <= sentToday s -> sentToday s <= Z.max 0 (messagesPerDay cfg) ->
  day_inv cfg (loop_head cfg env now r1 r2 s).
Proof.
  intros H0 H1.
  destruct (loop_head_cases cfg env now r1 r2 s) as (_ & Hd & _ & _ & _ & _ & _ & Hc).
  unfold day_inv. rewrite Hd. refine (conj H0 (conj H1 _)).
  intros t Ht.
  destruct Hc as [(_ & Hpc & _) | (t0 & rest & _ & _ & [Hc | [Hc | Hc]])].
  - rewrite Hpc in Ht. discriminate.
  - destruct Hc as (_ & _ & Hpc & _). rewrite Hpc in Ht. discriminate.
  - destruct Hc as (_ & _ & _ & Hpc & _). rewrite Hpc in Ht. discriminate.
  - destruct Hc as (Hlt & _). exact Hlt.
Qed.

Lemma day_step cfg env i s s' :
  day_inv cfg s -> step cfg env i s = Some s' -> day_inv cfg s'.
Proof.
  intros (H0 & H1 & H2) H. unfold_step H i s.
  - injection H as <-. unfold enqueue, _process. cbn.
    destruct (processing s) eqn:Hp; cbn.
    + exact (conj H0 (conj H1 H2)).
    + apply day_loop_head; cbn; assumption.
  - injection H as <-. exact (conj H0 (conj H1 H2)).
  - cbn in H. destruct (minuteResetAt s <=? at_ i); [|discriminate].
    injection H as <-. exact (conj H0 (conj H1 H2)).
  - cbn in H. destruct (dayResetAt s <=? at_ i); [|discriminate].
    injection H as <-. unfold day_inv. cbn. split; [lia|]. split; [lia|].
    intros t Ht. specialize (H2 t Ht). lia.
  - cbn in H. destruct (pc s) as [|w|w|t w|t w|t] eqn:Hpc; try discriminate;
      destruct (w <=? at_ i); try discriminate; injection H as <-.
    + apply day_loop_head; cbn; assumption.
    + apply day_loop_head; cbn; assumption.
    + exact (conj H0 (conj H1 H2)).
    + exact (conj H0 (conj H1 H2)).
  - cbn in H. destruct (pc s) as [|w|w|t w|t w|t] eqn:Hpc; try discriminate.
    injection H as <-. specialize (H2 t eq_refl).
    destruct r as [v|e]; apply day_loop_head; cbn; lia.
Qed.

(** What [stats] shows never leaves the limits: with limits that are not
    negative, in every state the queue can reach [sentThisMinute] lies
    between 0 and [rateLimitPerMinute] and [sentToday] between 0 and
    [rateLimitPerDay]. *)
Theorem stats_stay_within_limits cfg env now0 ins s :
  0 <= messagesPerMinute cfg -> 0 <= messagesPerDay cfg ->
  run cfg env ins (init env now0) = Some s ->
  0 <= stats_sentThisMinute (stats cfg s) <= rateLimitPerMinute (stats cfg s) /\
  0 <= stats_sentToday (stats cfg s) <= rateLimitPerDay (stats cfg s) /\
  stats_queueDepth (stats cfg s) = queueDepth s.
Proof.
  intros Hm Hd Hrun.
  destruct (reachable_budget _ _ _ _ _ Hrun) as ((M0 & M1 & _) & _).
  assert (Hday : day_inv cfg s).
  { revert Hrun. apply (run_invariant cfg env (day_inv cfg)).
    - intros i s0 s1. apply day_step.
    - unfold day_inv. cbn. split; [lia|]. split; [lia|]. discriminate. }
  destruct Hday as (D0 & D1 & _). cbn. split; [lia|]. split; [lia | reflexivity].
Qed.

Lemma stats_stay_within_limits_witness :
  let s := default (init utc 59000)
             (run two_per_minute utc (firstn 12 five_instant_tasks) (init utc 59000)) in
  0 <= stats_sentThisMinute (stats two_per_minute s) <= rateLimitPerMinute (stats two_per_minute s) /\
  0 <= stats_sentToday (stats two_per_minute s) <= rateLimitPerDay (stats two_per_minute s) /\
  stats_queueDepth (stats two_per_minute s) = queueDepth s.
Proof.
  apply (stats_stay_within_limits two_per_minute utc 59000 (firstn 12 five_instant_tasks)).
  - vm_compute. discriminate.
  - vm_compute. discriminate.
  - vm_compute. reflexivity.
Defined.

(** ** The two delays the loop computes *)

(** The pacing delay is at least 100 ms, and with [Math.random] in [0, 1),
    [minDelayMs <= maxDelayMs] and a jitter that is not negative it stays
    in the band from [minDelayMs - jitterMs / 2] to
    [maxDelayMs + jitterMs / 2], up to the rounding, unless the floor of
    100 ms lifts it. *)
Theorem randomDelay_stays_in_band cfg r1 r2 :
  minDelayMs cfg <= maxDelayMs cfg -> 0 <= jitterMs cfg ->
  (0 <= r1)%Q -> (r1 < 1)%Q -> (0 <= r2)%Q -> (r2 < 1)%Q ->
  100 <= _randomDelay cfg r1 r2 /\
  2 * minDelayMs cfg - jitterMs cfg <= 2 * _randomDelay cfg r1 r2 /\
  2 * _randomDelay cfg r1 r2 <= Z.max 200 (2 * maxDelayMs cfg + jitterMs cfg + 1).
Proof.
  intros Hmm Hj H1 H1' H2 H2'. unfold _randomDelay, Math_round.
  set (D := inject_Z (maxDelayMs cfg - minDelayMs cfg)).
  set (J := inject_Z (jitterMs cfg)).
  set (x := (inject_Z (minDelayMs cfg) + r1 * D + (r2 - (1 # 2)) * J + (1 # 2))%Q).
  assert (HD : (0 <= D)%Q) by (unfold D; rewrite <- (Zle_Qle 0); lia).
  assert (HJ : (0 <= J)%Q) by (unfold J; rewrite <- (Zle_Qle 0); lia).
  assert (Hb1 : (0 <= r1 * D)%Q) by (apply Qmult_le_0_compat; assumption).
  assert (Hb2 : (r1 * D <= D)%Q).
  { rewrite <- (Qmult_1_l D) at 2. apply Qmult_le_compat_r; [apply Qlt_le_weak|]; assumption. }
  assert (Hj1 : (- (1 # 2) * J <= (r2 - (1 # 2)) * J)%Q).
  { apply Qmult_le_compat_r; [lra | exact HJ]. }
  assert (Hj2 : ((r2 - (1 # 2)) * J <= (1 # 2) * J)%Q).
  { apply Qmult_le_compat_r; [lra | exact HJ]. }
  pose proof (Qfloor_le x) as Hfl. pose proof (Qlt_floor x) as Hfu.
  assert (HDz : D == inject_Z (maxDelayMs cfg) - inject_Z (minDelayMs cfg)).
  { unfold D, Z.sub. rewrite inject_Z_plus, inject_Z_opp. reflexivity. }
  assert (Hlow : 2 * minDelayMs cfg - jitterMs cfg - 1 < 2 * Qfloor x).
  { rewrite Zlt_Qlt. unfold Z.sub. rewrite !inject_Z_plus, !inject_Z_mult, !inject_Z_opp.
    rewrite inject_Z_plus in Hfu. fold J. unfold x in *.
    change (inject_Z 2) with 2%Q. change (inject_Z 1) with 1%Q in *. lra. }
  assert (Hup : 2 * Qfloor x <= 2 * maxDelayMs cfg + jitterMs cfg + 1).
  { rewrite Zle_Qle. rewrite !inject_Z_plus, !inject_Z_mult. fold J. unfold x in *.
    change (inject_Z 2) with 2%Q. change (inject_Z 1) with 1%Q. lra. }
  fold D J. fold x.
  replace (inject_Z (minDelayMs cfg) + r1 * D + (r2 - (1 # 2)) * J + (1 # 2))%Q
    with x by reflexivity.
  lia.
Qed.

Lemma randomDelay_stays_in_band_witness :
  100 <= _randomDelay DEFAULT_CONFIG (1 # 2) (1 # 4) /\
  2 * 800 - 400 <= 2 * _randomDelay DEFAULT_CONFIG (1 # 2) (1 # 4) /\
  2 * _randomDelay DEFAULT_CONFIG (1 # 2) (1 # 4) <= Z.max 200 (2 * 3000 + 400 + 1).
Proof.
  apply (randomDelay_stays_in_band DEFAULT_CONFIG (1 # 2) (1 # 4)).
  - vm_compute. discriminate.
  - vm_compute. discriminate.
  - vm_compute. discriminate.
  - vm_compute. reflexivity.
  - vm_compute. discriminate.
  - vm_compute. reflexivity.
Defined.

(** The wait for the next minute: on a clock that shows no negative time it
    lasts between 1 ms and a whole minute, a whole minute when it starts on
    a boundary, and it ends on a minute boundary. *)
Theorem nextMinuteMs_ends_on_the_boundary now :
  0 <= now ->
  1 <= _nextMinuteMs now <= 60000 /\
  (now + _nextMinuteMs now) mod 60000 = 0 /\
  (now mod 60000 = 0 -> _nextMinuteMs now = 60000).
Proof.
  intros H0. unfold _nextMinuteMs. rewrite Z.rem_mod_nonneg by lia.
  pose proof (Z.mod_pos_bound now 60000 ltac:(lia)) as Hb.
  split; [lia|]. split.
  - replace (now + (60000 - now mod 60000)) with (60000 * (now / 60000 + 1))
      by (pose proof (Z.div_mod now 60000 ltac:(lia)); lia).
    rewrite Z.mul_comm. apply Z.mod_mul. lia.
  - intros ->. lia.
Qed.

Lemma nextMinuteMs_ends_on_the_boundary_witness :
  1 <= _nextMinuteMs 59850 <= 60000 /\
  (59850 + _nextMinuteMs 59850) mod 60000 = 0 /\
  (59850 mod 60000 = 0 -> _nextMinuteMs 59850 = 60000).
Proof.
  apply (nextMinuteMs_ends_on_the_boundary 59850). vm_compute. discriminate.
Defined.

(** ** The loop runs while tasks are queued *)

Lemma running_loop_head cfg env now r1 r2 s :
  running_inv (loop_head cfg env now r1 r2 s).
Proof.
  destruct (loop_head_cases cfg env now r1 r2 s) as (_ & _ & _ & _ & _ & _ & _ & Hc).
  cbv zeta in Hc. unfold running_inv.
  destruct Hc as [(_ & Hpc & Hp & Hq & _) | (t0 & rest & _ & Hp & [Hc | [Hc | Hc]])].
  - rewrite Hpc, Hp, Hq. auto.
  - destruct Hc as (_ & _ & Hpc & _). rewrite Hpc, Hp. split; discriminate.
  - destruct Hc as (_ & _ & _ & Hpc & _). rewrite Hpc, Hp. split; discriminate.
  - destruct Hc as (_ & _ & _ & _ & [(l & _ & _ & _ & Hpc) | (_ & Hpc)]);
      rewrite Hpc, Hp; split; discriminate.
Qed.

Lemma running_step cfg env i s s' :
  running_inv s -> step cfg env i s = Some s' -> running_inv s'.
Proof.
  intros (R1 & R2) H. unfold_step H i s.
  - injection H as <-. unfold enqueue, _process. cbn.
    destruct (processing s) eqn:Hp; cbn; [|apply running_loop_head].
    unfold running_inv. cbn. split; [discriminate|].
    intros Hpc. destruct (R2 Hpc) as (Hf & _). congruence.
  - injection H as <-. unfold running_inv. cbn. split; [exact R1|].
    intros Hpc. destruct (R2 Hpc) as (Hf & _). auto.
  - cbn in H. destruct (minuteResetAt s <=? at_ i); [|discriminate].
    injection H as <-. exact (conj R1 R2).
  - cbn in H. destruct (dayResetAt s <=? at_ i); [|discriminate].
    injection H as <-. exact (conj R1 R2).
  - cbn in H. destruct (pc s) as [|w|w|t w|t w|t] eqn:Hpc; try discriminate;
      destruct (w <=? at_ i); try discriminate; injection H as <-.
    + apply running_loop_head.
    + apply running_loop_head.
    + unfold running_inv. cbn. split; discriminate.
    + unfold running_inv. cbn. split; discriminate.
  - cbn in H. destruct (pc s) as [|w|w|t w|t w|t] eqn:Hpc; try discriminate.
    injection H as <-. destruct r as [v|e]; apply running_loop_head.
Qed.

(** No task is stranded: in every state the queue can reach, [processing]
    is set exactly while the loop is suspended at one of its [await]s, and
    whenever a task is in the queue the loop is running. *)
Theorem loop_runs_while_tasks_are_queued cfg env now0 ins s :
  run cfg env ins (init env now0) = Some s ->
  (processing s = true <-> pc s <> Idle) /\
  (queue s <> [] -> processing s = true /\ pc s <> Idle).
Proof.
  intros Hrun.
  assert (Hinv : running_inv s).
  { revert Hrun. apply (run_invariant cfg env running_inv).
    - intros i s0 s1. apply running_step.
    - split; cbn; auto. }
  destruct Hinv as (R1 & R2).
  assert (Hiff : processing s = true <-> pc s <> Idle).
  { split.
    - intros Hp Hpc. destruct (R2 Hpc) as (Hf & _). congruence.
    - intros Hpc. destruct (processing s) eqn:Hp; [reflexivity|]. elim Hpc. auto. }
  split; [exact Hiff|]. intros Hq.
  assert (Hpc : pc s <> Idle) by (intros Hpc; destruct (R2 Hpc) as (_ & He); auto).
  split; [apply Hiff, Hpc | exact Hpc].
Qed.

Lemma loop_runs_while_tasks_are_queued_witness :
  let s := default (init utc 59000)
             (run two_per_minute utc (firstn 9 five_instant_tasks) (init utc 59000)) in
  (processing s = true <-> pc s <> Idle) /\
  (queue s <> [] -> processing s = true /\ pc s <> Idle).
Proof.
  apply (loop_runs_while_tasks_are_queued two_per_minute utc 59000
           (firstn 9 five_instant_tasks)).
  vm_compute. reflexivity.
Defined.

(** ** At least 100 ms between two dispatches *)

Lemma apart_quiet gap new l :
  Forall (fun x => is_invoked x = false) new -> apart gap l -> apart gap (new ++ l).
Proof.
  induction 1 as [|x new Hx _ IH]; cbn; [tauto|].
  intros H. split; [|auto]. destruct x; try exact I; discriminate.
Qed.

Lemma apart_split gap newer : forall t2 d2 older t1 d1,
  apart gap (newer ++ Invoked t2 d2 :: older) -> In (Invoked t1 d1) older ->
  d1 + gap <= d2.
Proof.
  induction newer as [|x newer IH]; intros t2 d2 older t1 d1; cbn.
  - intros (H & _) Hin. eapply H, Hin.
  - intros (_ & H). eapply IH, H.
Qed.

Lemma gap_loop_head cfg env now r1 r2 s :
  (forall t d, In (Invoked t d) (effects s) -> d <= clock s) ->
  clock s <= now ->
  apart 100 (effects s) ->
  gap_inv (loop_head cfg env now r1 r2 s).
Proof.
  intros G1 Hnow G3.
  destruct (loop_head_cases cfg env now r1 r2 s) as (_ & _ & _ & Hck & _ & _ & _ & Hc).
  cbv zeta in Hc, Hck. unfold gap_inv. rewrite Hck.
  pose proof (randomDelay_min cfg r1 r2) as Hrd.
  destruct Hc as [(_ & Hpc & _ & _ & He) | (t0 & rest & _ & _ & [Hc | [Hc | Hc]])].
  - rewrite Hpc, He. refine (conj G1 (conj _ G3)). intros t w Hw. discriminate.
  - destruct Hc as (_ & _ & Hpc & He). rewrite Hpc, He. cbn.
    refine (conj _ (conj _ (conj I G3))).
    + intros t d [Hin | Hin]; [discriminate | exact (G1 t d Hin)].
    + intros t w Hw. discriminate.
  - destruct Hc as (_ & _ & _ & Hpc & He). rewrite Hpc, He.
    refine (conj G1 (conj _ G3)). intros t w Hw. discriminate.
  - destruct Hc as (_ & _ & _ & He & [(l & _ & _ & _ & Hpc) | (_ & Hpc)]); rewrite Hpc, He;
      refine (conj G1 (conj _ G3)).
    + intros t w Hw. discriminate.
    + intros t w [= <- <-] t' d Hin. specialize (G1 t' d Hin). lia.
Qed.

Lemma gap_step cfg env i s s' :
  gap_inv s -> step cfg env i s = Some s' -> gap_inv s'.
Proof.
  intros (G1 & G2 & G3) Hs. unfold_step Hs i s.
  - injection Hs as <-. unfold enqueue, _process. cbn.
    destruct (processing s) eqn:Hp; cbn.
    + unfold gap_inv. cbn. refine (conj _ (conj _ (conj I G3))).
      * intros t d [Hin | Hin]; [discriminate|]. specialize (G1 t d Hin). lia.
      * intros t w Hw t' d [Hin | Hin]; [discriminate | exact (G2 t w Hw t' d Hin)].
    + apply gap_loop_head; cbn.
      * intros t d [Hin | Hin]; [discriminate|]. specialize (G1 t d Hin). lia.
      * lia.
      * split; [exact I | exact G3].
  - injection Hs as <-. unfold gap_inv. cbn.
    assert (Hin' : forall t d,
              In (Invoked t d) (rev (map (fun t => Rejected t QueueCleared) (queue s))
                                ++ effects s) -> In (Invoked t d) (effects s)).
    { intros t d Hin. apply in_app_or in Hin. destruct Hin as [Hin | Hin]; [|exact Hin].
      apply in_rev, in_map_iff in Hin. destruct Hin as (q & Hq & _). discriminate. }
    refine (conj _ (conj _ _)).
    + intros t d Hin. specialize (G1 t d (Hin' t d Hin)). lia.
    + intros t w Hw t' d Hin. exact (G2 t w Hw t' d (Hin' t' d Hin)).
    + apply apart_quiet; [|exact G3]. apply Forall_forall. intros x Hx.
      apply list_elem_of_In, in_rev, in_map_iff in Hx. destruct Hx as (q & <- & _).
      reflexivity.
  - cbn in Hs. destruct (minuteResetAt s <=? at_ i); [|discriminate].
    injection Hs as <-. unfold gap_inv. cbn. refine (conj _ (conj G2 G3)).
    intros t d Hin. specialize (G1 t d Hin). lia.
  - cbn in Hs. destruct (dayResetAt s <=? at_ i); [|discriminate].
    injection Hs as <-. unfold gap_inv. cbn. refine (conj _ (conj G2 G3)).
    intros t d Hin. specialize (G1 t d Hin). lia.
  - cbn in Hs. destruct (pc s) as [|w|w|t w|t w|t] eqn:Hpc; try discriminate;
      destruct (Z.leb_spec w (at_ i)); try discriminate; injection Hs as <-.
    + apply gap_loop_head; cbn; [|lia|exact G3].
      intros t d Hin. specialize (G1 t d Hin). lia.
    + apply gap_loop_head; cbn; [|lia|exact G3].
      intros t d Hin. specialize (G1 t d Hin). lia.
    + pose proof (randomDelay_min cfg (rnd1 i) (rnd2 i)) as Hrd.
      unfold gap_inv, pace. cbn. refine (conj _ (conj _ G3)).
      * intros t' d Hin. specialize (G1 t' d Hin). lia.
      * intros t' w' [= <- <-] t'' d Hin. specialize (G1 t'' d Hin). lia.
    + unfold gap_inv. cbn. refine (conj _ (conj _ (conj _ G3))).
      * intros t' d [Heq | Hin]; [injection Heq as <- <-; lia|].
        specialize (G1 t' d Hin). lia.
      * intros t' w' Hw. discriminate.
      * intros t1 d1 Hin. specialize (G2 t w eq_refl t1 d1 Hin). lia.
  - cbn in Hs. destruct (pc s) as [|w|w|t w|t w|t] eqn:Hpc; try discriminate.
    injection Hs as <-.
    destruct r as [v|e]; apply gap_loop_head; cbn; try lia.
    + intros t' d [Hin | Hin]; [discriminate|]. specialize (G1 t' d Hin). lia.
    + split; [exact I | exact G3].
    + intros t' d [Hin | Hin]; [discriminate|]. specialize (G1 t' d Hin). lia.
    + split; [exact I | exact G3].
Qed.

(** Whatever the configuration and whoever the recipients, two operations
    are never called less than 100 ms apart: the pacing delay before each
    call is at least 100 ms. *)
Theorem dispatches_are_100ms_apart cfg env now0 ins s pre t1 d1 mid t2 d2 post :
  run cfg env ins (init env now0) = Some s ->
  trace s = pre ++ Invoked t1 d1 :: mid ++ Invoked t2 d2 :: post ->
  d1 + 100 <= d2.
Proof.
  intros Hrun Htr.
  assert (Hinv : gap_inv s).
  { revert Hrun. apply (run_invariant cfg env gap_inv).
    - intros i s0 s1. apply gap_step.
    - unfold gap_inv. cbn. refine (conj _ (conj _ I)).
      + intros t d [].
      + intros t w Hw. discriminate. }
  destruct Hinv as (_ & _ & G3).
  assert (He : effects s = rev post ++ Invoked t2 d2 :: rev mid ++ Invoked t1 d1 :: rev pre).
  { rewrite <- (rev_involutive (effects s)). fold (trace s). rewrite Htr.
    rewrite rev_app_distr. simpl. rewrite rev_app_distr. simpl.
    rewrite <- !app_assoc. reflexivity. }
  rewrite He in G3. eapply apart_split; [exact G3|].
  apply in_or_app. right. left. reflexivity.
Qed.

Lemma dispatches_are_100ms_apart_witness : 59950 + 100 <= 60050.
Proof.
  apply (dispatches_are_100ms_apart two_per_minute utc 59000
           five_instant_tasks
           (default (init utc 59000)
              (run two_per_minute utc five_instant_tasks (init utc 59000)))
           [OnRateLimited "a" 1; OnRateLimited "b" 1; OnRateLimited "c" 2;
            OnRateLimited "d" 3; OnRateLimited "e" 4]
           (mkTask "a" 0 59850) 59950
           [Resolved (mkTask "a" 0 59850) "sent"]
           (mkTask "b" 1 59850) 60050
           [Resolved (mkTask "b" 1 59850) "sent";
            Invoked (mkTask "c" 2 59850) 60150; Resolved (mkTask "c" 2 59850) "sent";
            Invoked (mkTask "d" 3 59850) 120100; Resolved (mkTask "d" 3 59850) "sent";
            Invoked (mkTask "e" 4 59850) 120200; Resolved (mkTask "e" 4 59850) "sent"]).
  - vm_compute. reflexivity.
  - vm_compute. reflexivity.
Defined.

End RateLimiterMore.


(* ===================================================================== *)
(** * The Map, with distinct keys                                         *)
(* ===================================================================== *)

Module MapFacts.

Lemma map_get_Some_In {A} k (v : A) m : map_get k m = Some v -> In (k, v) m.
Proof.
  induction m as [|[k' v'] m IH]; cbn; [discriminate|].
  destruct (String.eqb k k') eqn:E.
  - apply String.eqb_eq in E. subst k'. intros [= ->]. left. reflexivity.
  - intros H. right. auto.
Qed.

Lemma map_get_None_keys {A} k (m : list (string * A)) :
  map_get k m = None -> ~ In k (map fst m).
Proof.
  induction m as [|[k' v'] m IH]; cbn; [tauto|].
  destruct (String.eqb k k') eqn:E; [discriminate|].
  apply String.eqb_neq in E. intros H [Heq | Hin]; [congruence | exact (IH H Hin)].
Qed.

Lemma map_get_In {A} k (v : A) m :
  NoDup (map fst m) -> In (k, v) m -> map_get k m = Some v.
Proof.
  induction m as [|[k' v'] m IH]; cbn; [tauto|].
  intros Hnd [Heq | Hin].
  - injection Heq as -> ->. rewrite String.eqb_refl. reflexivity.
  - apply NoDup_cons in Hnd. destruct Hnd as (Hni & Hnd).
    destruct (String.eqb k k') eqn:E; [|auto].
    apply String.eqb_eq in E. subst k'. exfalso. apply Hni.
    apply list_elem_of_In. change k with (fst (k, v)). apply in_map, Hin.
Qed.

Lemma map_get_set_ne {A} k k' (v : A) m :
  k' <> k -> map_get k' (map_set k v m) = map_get k' m.
Proof.
  intros Hne. induction m as [|[k0 v0] m IH]; cbn.
  - apply String.eqb_neq in Hne. rewrite Hne. reflexivity.
  - destruct (String.eqb k k0) eqn:E; cbn.
    + apply String.eqb_eq in E. subst k0. apply String.eqb_neq in Hne. rewrite Hne.
      reflexivity.
    + destruct (String.eqb k' k0); [reflexivity | exact IH].
Qed.

Lemma keys_map_set {A} k (v : A) m :
  map fst (map_set k v m) = if map_has k m then map fst m else map fst m ++ [k].
Proof.
  unfold map_has. induction m as [|[k' v'] m IH]; cbn; [reflexivity|].
  destruct (String.eqb k k') eqn:E; cbn.
  - apply String.eqb_eq in E. subst k'. reflexivity.
  - rewrite IH. destruct (map_get k m); reflexivity.
Qed.

Lemma NoDup_map_set {A} k (v : A) m :
  NoDup (map fst m) -> NoDup (map fst (map_set k v m)).
Proof.
  intros Hnd. rewrite keys_map_set. unfold map_has.
  destruct (map_get k m) eqn:E; [exact Hnd|].
  apply NoDup_app. split; [exact Hnd|]. split; [|apply NoDup_singleton].
  intros x Hx Hx'. apply list_elem_of_In in Hx'. destruct Hx' as [<- | []].
  apply (map_get_None_keys _ _ E), list_elem_of_In, Hx.
Qed.

Lemma In_map_set {A} k (v : A) m k' v' :
  NoDup (map fst m) -> In (k', v') (map_set k v m) ->
  (k' = k /\ v' = v) \/ (k' <> k /\ In (k', v') m).
Proof.
  induction m as [|[k0 v0] m IH]; cbn.
  - intros _ [[= <- <-] | []]. left. auto.
  - intros Hnd. apply NoDup_cons in Hnd. destruct Hnd as (Hni & Hnd).
    destruct (String.eqb k k0) eqn:E.
    + apply String.eqb_eq in E. subst k0. intros [[= <- <-] | Hin]; [left; auto|].
      right. split; [|right; exact Hin]. intros ->. apply Hni.
      apply list_elem_of_In. change k with (fst (k, v')). apply in_map, Hin.
    + apply String.eqb_neq in E. intros [[= <- <-] | Hin].
      * right. split; [congruence | left; reflexivity].
      * destruct (IH Hnd Hin) as [? | (? & ?)]; [left; assumption | right; auto].
Qed.

Lemma In_map_delete {A} k (m : list (string * A)) k' v' :
  NoDup (map fst m) -> In (k', v') (map_delete k m) -> k' <> k /\ In (k', v') m.
Proof.
  induction m as [|[k0 v0] m IH]; cbn; [tauto|].
  intros Hnd. apply NoDup_cons in Hnd. destruct Hnd as (Hni & Hnd).
  destruct (String.eqb k k0) eqn:E.
  - apply String.eqb_eq in E. subst k0. intros Hin. split; [|right; exact Hin].
    intros ->. apply Hni. apply list_elem_of_In. change k with (fst (k, v')).
    apply in_map, Hin.
  - apply String.eqb_neq in E. intros [[= <- <-] | Hin].
    + split; [congruence | left; reflexivity].
    + destruct (IH Hnd Hin). auto.
Qed.

Lemma NoDup_map_delete {A} k (m : list (string * A)) :
  NoDup (map fst m) -> NoDup (map fst (map_delete k m)).
Proof.
  induction m as [|[k0 v0] m IH]; cbn; [auto|].
  intros Hnd. apply NoDup_cons in Hnd. destruct Hnd as (Hni & Hnd).
  destruct (String.eqb k k0) eqn:E; [exact Hnd|]. cbn.
  apply NoDup_cons. split; [|auto].
  intros Hin. apply Hni. apply list_elem_of_In, in_map_iff in Hin.
  destruct Hin as ([k1 v1] & Hk & Hin). cbn in Hk. subst k1.
  destruct (In_map_delete k m k0 v1 Hnd Hin) as (_ & Hin').
  apply list_elem_of_In. change k0 with (fst (k0, v1)). apply in_map, Hin'.
Qed.

Lemma map_has_delete {A} k (m : list (string * A)) :
  NoDup (map fst m) -> map_has k (map_delete k m) = false.
Proof.
  intros Hnd. unfold map_has. destruct (map_get k (map_delete k m)) as [v|] eqn:E; [|reflexivity].
  apply map_get_Some_In in E. destruct (In_map_delete k m k v Hnd E) as (Hne & _). congruence.
Qed.

Lemma map_get_delete_ne {A} k k' (m : list (string * A)) :
  k' <> k -> map_get k' (map_delete k m) = map_get k' m.
Proof.
  intros Hne. induction m as [|[k0 v0] m IH]; cbn; [reflexivity|].
  destruct (String.eqb k k0) eqn:E; cbn.
  - apply String.eqb_eq in E. subst k0. apply String.eqb_neq in Hne. rewrite Hne.
    reflexivity.
  - destruct (String.eqb k' k0); [reflexivity | exact IH].
Qed.

Lemma map_has_get {A} k (m : list (string * A)) :
  map_has k m = true <-> exists v, map_get k m = Some v.
Proof.
  unfold map_has. destruct (map_get k m); split; eauto; try discriminate.
  intros (v & Hv). discriminate.
Qed.

Lemma map_id_ext {A} (f : A -> A) l : (forall x, f x = x) -> map f l = l.
Proof. intros Hf. induction l; cbn; congruence. Qed.

End MapFacts.

(* ===================================================================== *)
(** * More on the session manager                                         *)
(* ===================================================================== *)

Module SessionManagerMore.
Import SessionManager SessionManagerSpec MapFacts.

(** ** The registry stays well formed *)

Lemma owned_mutate_heap st st' r0 f r i :
  (forall o, id (f o) = id o) ->
  heap st' = mutate_heap r0 f (heap st) ->
  owned st r i -> owned st' r i.
Proof.
  intros Hf Hh (o & Ho & Hid). unfold owned. rewrite Hh, mutate_heap_lookup.
  case_decide; rewrite Ho; cbn; eauto. exists (f o). rewrite Hf. auto.
Qed.

Lemma owned_app st st' l r i :
  heap st' = heap st ++ l -> owned st r i -> owned st' r i.
Proof.
  intros Hh (o & Ho & Hid). exists o. rewrite Hh. split; [|exact Hid].
  apply lookup_app_l_Some, Ho.
Qed.

Lemma owned_same st st' r i : heap st' = heap st -> owned st r i -> owned st' r i.
Proof. intros Hh. unfold owned. rewrite Hh. auto. Qed.

Lemma update_info_id cfg now u o : id (update_info cfg now u o) = id o.
Proof.
  unfold update_info, close_info, open_info, qr_info.
  destruct (u_connection u) as [[| |]|]; try destruct (is_loggedOut cfg u);
    (destruct (u_qr u) as [q|]; [destruct (String.eqb q "")|]); reflexivity.
Qed.

Lemma redirect_idem i r m : redirect i r (redirect i r m) = redirect i r m.
Proof.
  unfold redirect. destruct (map_get i m) as [a|] eqn:E.
  - rewrite map_get_set_eq. cbn. apply map_set_same, map_get_set_eq.
  - rewrite E. reflexivity.
Qed.

Lemma updateStatus_sessions i r st :
  sessions (_updateStatus i r st) = redirect i r (sessions st).
Proof.
  unfold _updateStatus, redirect.
  destruct (map_get i (sessions st)) as [a|]; cbn;
    destruct (heap st !! r) as [o|]; reflexivity.
Qed.

Lemma on_qr_sessions i r u st :
  sessions (on_qr i r u st) = sessions st \/
  sessions (on_qr i r u st) = redirect i r (sessions st).
Proof.
  unfold on_qr. destruct (u_qr u) as [q|]; [|auto].
  destruct (String.eqb q ""); [auto|]. right.
  match goal with |- context [emit ?e ?x] => destruct (emit_frame e x) as (-> & _) end.
  rewrite updateStatus_sessions.
  match goal with |- context [mutate r ?f st] =>
    destruct (mutate_frame r f st) as (-> & _) end. reflexivity.
Qed.

Lemma on_open_sessions now i r u st :
  sessions (on_open now i r u st) = sessions st \/
  sessions (on_open now i r u st) = redirect i r (sessions st).
Proof.
  unfold on_open. destruct (u_connection u) as [[| |]|]; auto. right.
  match goal with |- context [emit ?e ?x] => destruct (emit_frame e x) as (-> & _) end.
  rewrite updateStatus_sessions. cbn [set_attempts sessions].
  match goal with |- context [mutate r ?f st] =>
    destruct (mutate_frame r f st) as (-> & _) end. reflexivity.
Qed.

(** The [close] block always goes through [_updateStatus]. *)
Lemma on_close_sessions cfg now i r u st :
  u_connection u = Some conn_close ->
  sessions (on_close cfg now i r u st) = redirect i r (sessions st).
Proof.
  intros Hc. unfold on_close. rewrite Hc.
  destruct (is_loggedOut cfg u).
  - match goal with |- context [emit ?e ?x] => destruct (emit_frame e x) as (-> & _) end.
    rewrite updateStatus_sessions.
    match goal with |- context [mutate r ?f st] =>
      destruct (mutate_frame r f st) as (-> & _) end. reflexivity.
  - match goal with |- context [emit ?e (_updateStatus i r ?x)] =>
      set (st1 := emit e (_updateStatus i r x));
      assert (Hs1 : sessions st1 = redirect i r (sessions st)) end.
    { subst st1.
      match goal with |- context [emit ?e ?x] => destruct (emit_frame e x) as (-> & _) end.
      rewrite updateStatus_sessions.
      match goal with |- context [mutate r ?f st] =>
        destruct (mutate_frame r f st) as (-> & _) end. reflexivity. }
    destruct (autoReconnect cfg && map_has i (sessions st1)); [|exact Hs1].
    match goal with |- context [Z.of_nat ?k <=? ?m] => destruct (Z.of_nat k <=? m) end;
      exact Hs1.
Qed.

Lemma on_close_sessions_other cfg now i r u st :
  u_connection u <> Some conn_close -> on_close cfg now i r u st = st.
Proof.
  intros Hc. unfold on_close. destruct (u_connection u) as [[| |]|]; congruence.
Qed.

(** The registry after the handler ran: as it was, or with the info of the
    session replaced by the object the handler holds. *)
Lemma handler_sessions cfg now i r u st :
  sessions (on_connection_update cfg now i r u st) = sessions st \/
  sessions (on_connection_update cfg now i r u st) = redirect i r (sessions st).
Proof.
  unfold on_connection_update.
  assert (H12 : sessions (on_open now i r u (on_qr i r u st)) = sessions st \/
                sessions (on_open now i r u (on_qr i r u st)) = redirect i r (sessions st)).
  { destruct (on_qr_sessions i r u st) as [H1 | H1];
      destruct (on_open_sessions now i r u (on_qr i r u st)) as [H2 | H2];
      rewrite H2, H1, ?redirect_idem; auto. }
  destruct (u_connection u) as [c|] eqn:Hc;
    [destruct c|]; try (rewrite on_close_sessions_other by congruence; exact H12).
  right. rewrite on_close_sessions by exact Hc.
  destruct H12 as [-> | ->]; rewrite ?redirect_idem; reflexivity.
Qed.

(** After [open] or [close] the registry, if it has the session, points
    to the object of the socket that reported. *)
Lemma handler_sessions_status cfg now i r u st :
  u_connection u = Some conn_open \/ u_connection u = Some conn_close ->
  sessions (on_connection_update cfg now i r u st) = redirect i r (sessions st).
Proof.
  intros Hc. unfold on_connection_update.
  destruct (on_qr_sessions i r u st) as [H1 | H1].
  - destruct Hc as [Hc | Hc].
    + rewrite on_close_sessions_other by congruence.
      unfold on_open at 1. rewrite Hc.
      match goal with |- context [emit ?e ?x] => destruct (emit_frame e x) as (-> & _) end.
      rewrite updateStatus_sessions. cbn [set_attempts sessions].
      match goal with |- context [mutate r ?f ?x] =>
        destruct (mutate_frame r f x) as (-> & _) end. rewrite H1. reflexivity.
    + rewrite on_close_sessions by exact Hc.
      destruct (on_open_sessions now i r u (on_qr i r u st)) as [-> | ->];
        rewrite H1, ?redirect_idem; reflexivity.
  - destruct Hc as [Hc | Hc].
    + rewrite on_close_sessions_other by congruence.
      destruct (on_open_sessions now i r u (on_qr i r u st)) as [-> | ->];
        rewrite H1, ?redirect_idem; reflexivity.
    + rewrite on_close_sessions by exact Hc.
      destruct (on_open_sessions now i r u (on_qr i r u st)) as [-> | ->];
        rewrite H1, ?redirect_idem; reflexivity.
Qed.

Lemma handler_wf cfg now sk s u st :
  wf st -> socks st !! sk = Some s ->
  wf (on_connection_update cfg now (s_session s) (s_info s) u st).
Proof.
  intros (K & O1 & O2) Hs.
  destruct (handler_frame cfg now (s_session s) (s_info s) u st) as (Hh & Hsk & _).
  cbv zeta in Hh, Hsk.
  pose proof (handler_sessions cfg now (s_session s) (s_info s) u st) as Hsess.
  set (st' := on_connection_update cfg now (s_session s) (s_info s) u st) in *.
  assert (Hown : forall r i, owned st r i -> owned st' r i).
  { intros r i. eapply owned_mutate_heap; [|exact Hh]. intros o. apply update_info_id. }
  refine (conj _ (conj _ _)).
  - destruct Hsess as [He | He]; rewrite He; [exact K|].
    unfold redirect. destruct (map_get (s_session s) (sessions st));
      [apply NoDup_map_set|]; exact K.
  - intros sk' s' Hs'. rewrite Hsk in Hs'. apply Hown, (O1 sk' s' Hs').
  - intros i a Hin. rewrite Hsk.
    destruct Hsess as [He | He]; rewrite He in Hin.
    + destruct (O2 i a Hin) as (Ho & Hsock). split; [apply Hown, Ho | exact Hsock].
    + unfold redirect in Hin.
      destruct (map_get (s_session s) (sessions st)) as [a0|] eqn:E.
      * destruct (In_map_set _ _ _ _ _ K Hin) as [(-> & ->) | (Hne & Hin')].
        -- apply map_get_Some_In in E. destruct (O2 _ _ E) as (_ & Hsock).
           split; [apply Hown, (O1 sk s Hs) | exact Hsock].
        -- destruct (O2 i a Hin') as (Ho & Hsock). split; [apply Hown, Ho | exact Hsock].
      * destruct (O2 i a Hin) as (Ho & Hsock). split; [apply Hown, Ho | exact Hsock].
Qed.

Lemma boot_wf i st : wf st -> wf (_boot i st).
Proof.
  intros (K & O1 & O2). unfold _boot.
  destruct (map_get i (sessions st)) as [a0|] eqn:E; cbn.
  - apply map_get_Some_In in E. destruct (O2 _ _ E) as (Ho0 & _).
    refine (conj (NoDup_map_set _ _ _ K) (conj _ _)); cbn.
    + intros sk s Hs. apply lookup_app_Some in Hs.
      destruct Hs as [Hs | (_ & Hs)]; [exact (O1 sk s Hs)|].
      destruct (sk - length (socks st))%nat; [|discriminate]. injection Hs as <-. exact Ho0.
    + intros j a Hin. destruct (In_map_set _ _ _ _ _ K Hin) as [(-> & ->) | (Hne & Hin')].
      * split; [exact Ho0|]. cbn. eexists. split; [apply list_lookup_middle; reflexivity|].
        auto.
      * destruct (O2 j a Hin') as (Ho & (s & Hs & Hrest)). split; [exact Ho|].
        exists s. split; [apply lookup_app_l_Some, Hs | exact Hrest].
  - set (fresh := mkInfo i initializing None None None None None).
    assert (Hown : forall r j, owned st r j ->
              owned (set_heap (heap st ++ [fresh]) st) r j).
    { intros r j. eapply owned_app. reflexivity. }
    assert (Hnew : owned (set_heap (heap st ++ [fresh]) st) (length (heap st)) i).
    { exists fresh. split; [apply list_lookup_middle; reflexivity | reflexivity]. }
    refine (conj (NoDup_map_set _ _ _ K) (conj _ _)); cbn.
    + intros sk s Hs. apply lookup_app_Some in Hs.
      destruct Hs as [Hs | (_ & Hs)]; [apply Hown, (O1 sk s Hs)|].
      destruct (sk - length (socks st))%nat; [|discriminate]. injection Hs as <-. exact Hnew.
    + intros j a Hin. destruct (In_map_set _ _ _ _ _ K Hin) as [(-> & ->) | (Hne & Hin')].
      * split; [exact Hnew|]. cbn. eexists. split; [apply list_lookup_middle; reflexivity|].
        auto.
      * destruct (O2 j a Hin') as (Ho & (s & Hs & Hrest)). split; [apply Hown, Ho|].
        exists s. split; [apply lookup_app_l_Some, Hs | exact Hrest].
Qed.

Lemma destroy_wf i st : wf st -> wf (fst (destroySession i st)).
Proof.
  intros (K & O1 & O2). unfold destroySession.
  destruct (map_get i (sessions st)) as [a0|] eqn:E; [|exact (conj K (conj O1 O2))].
  apply map_get_Some_In in E. destruct (O2 _ _ E) as (_ & (s0 & Hs0 & Hid0 & _)).
  rewrite Hs0. cbn.
  refine (conj (NoDup_map_delete _ _ K) (conj _ _)); cbn.
  - intros sk s Hs. apply list_lookup_insert_Some in Hs.
    destruct Hs as [(<- & <- & _) | (_ & Hs)]; [exact (O1 _ _ Hs0) | exact (O1 sk s Hs)].
  - intros j a Hin. destruct (In_map_delete _ _ _ _ K Hin) as (Hne & Hin').
    destruct (O2 j a Hin') as (Ho & (s & Hs & Hid & Hcl)). split; [exact Ho|].
    exists s. split; [|auto]. rewrite list_lookup_insert_ne; [exact Hs|].
    intros Heq. rewrite Heq in Hs0. rewrite Hs0 in Hs. injection Hs as <-. congruence.
Qed.

Lemma step_wf cfg now e st st' : wf st -> step cfg now e st = Some st' -> wf st'.
Proof.
  intros Hwf H. destruct e as [i ok|i|i ms|k|sk u|k ok]; cbn in H.
  - injection H as <-. unfold createSession.
    destruct (map_has i (sessions st)); [exact Hwf|].
    destruct ok; cbn; [apply boot_wf|]; exact Hwf.
  - injection H as <-. apply destroy_wf, Hwf.
  - injection H as <-. unfold waitForConnected.
    destruct (is_connected st (getInfo st i)); exact Hwf.
  - destruct (waiters st !! k) as [w|]; [|discriminate].
    destruct (w_timer w && (w_deadline w <=? now)); [|discriminate].
    injection H as <-. exact Hwf.
  - destruct (socks st !! sk) as [s|] eqn:Hs; [|discriminate]. injection H as <-.
    eapply handler_wf; eassumption.
  - destruct (timers st !! k) as [t|]; [|discriminate].
    destruct (t_pending t && Qle_bool (inject_Z (t_setAt t) + t_delay t) (inject_Z now));
      [|discriminate].
    injection H as <-. destruct ok; [apply boot_wf|]; exact Hwf.
Qed.

Lemma run_wf cfg evs : forall st st', wf st -> run cfg evs st = Some st' -> wf st'.
Proof.
  induction evs as [|[now e] evs IH]; intros st st' Hwf H; cbn in H.
  - injection H as <-. exact Hwf.
  - destruct (step cfg now e st) as [st1|] eqn:E; [|discriminate].
    eapply IH; [|exact H]. eapply step_wf; eassumption.
Qed.

Lemma empty_wf : wf empty.
Proof.
  refine (conj _ (conj _ _)); cbn.
  - constructor.
  - intros sk s Hs. discriminate.
  - intros i a [].
Qed.

(** ** The waiters *)

Lemma evolves_refl w : evolves w w.
Proof. left. reflexivity. Qed.

Lemma settle_settle r1 r2 w : settle r1 (settle r2 w) = settle r2 w.
Proof. unfold settle. cbn. destruct (w_settled w); reflexivity. Qed.

Lemma evolves_trans w1 w2 w3 : evolves w1 w2 -> evolves w2 w3 -> evolves w1 w3.
Proof.
  intros [-> | (r & ->)] [-> | (r' & ->)].
  - left. reflexivity.
  - right. eauto.
  - right. eauto.
  - right. exists r. apply settle_settle.
Qed.

Lemma evolves_session w w' : evolves w w' -> w_session w' = w_session w.
Proof. intros [-> | (r & ->)]; reflexivity. Qed.

Lemma evolves_ok w w' : waiter_ok w -> evolves w w' -> waiter_ok w'.
Proof.
  intros Hok [-> | (r & ->)]; [exact Hok|]. right. unfold settle. cbn.
  destruct (w_settled w); conjs; try reflexivity; discriminate.
Qed.

Lemma evolves_settled w w' v : evolves w w' -> w_settled w = Some v -> w_settled w' = Some v.
Proof. intros [-> | (r & ->)] Hv; [exact Hv|]. unfold settle. cbn. rewrite Hv. reflexivity. Qed.

Lemma touches_refl i ws : touches i ws ws.
Proof. unfold touches. induction ws; constructor; auto. split; [left|]; reflexivity. Qed.

Lemma touches_trans i a b c : touches i a b -> touches i b c -> touches i a c.
Proof.
  unfold touches. apply Forall2_trans. intros x y z (E1 & U1) (E2 & U2).
  split; [eapply evolves_trans; eassumption|]. intros Hne.
  transitivity y; [|apply U1, Hne]. apply U2. rewrite (evolves_session _ _ E1). exact Hne.
Qed.

Lemma touches_map i f ws :
  (forall w, evolves w (f w) /\ (w_session w <> i -> f w = w)) -> touches i ws (map f ws).
Proof. intros Hf. unfold touches. induction ws; cbn; constructor; auto. Qed.

Lemma touches_eq i ws ws' : ws' = ws -> touches i ws ws'.
Proof. intros ->. apply touches_refl. Qed.

Lemma onConnected_touches st i w :
  evolves w (onConnected st i w) /\ (w_session w <> i -> onConnected st i w = w).
Proof.
  unfold onConnected. destruct (w_onConnected w); cbn; [|split; [left|]; reflexivity].
  destruct (String.eqb i (w_session w)) eqn:E.
  - split; [right; eauto|]. apply String.eqb_eq in E. congruence.
  - split; [left|]; reflexivity.
Qed.

Lemma onStatus_touches o w :
  evolves w (onStatus o w) /\ (w_session w <> id o -> onStatus o w = w).
Proof.
  unfold onStatus. destruct (w_onStatus w); cbn; [|split; [left|]; reflexivity].
  destruct (String.eqb (id o) (w_session w)) eqn:E; cbn.
  - destruct (status_eqb (status o) logged_out); [|split; [left|]; reflexivity].
    split; [right; eauto|]. apply String.eqb_eq in E. congruence.
  - split; [left|]; reflexivity.
Qed.

(** Which session an event is about. *)
Lemma emit_touches i e st :
  match e with
  | session_status o => id o = i
  | session_connected j _ => j = i
  | _ => True
  end ->
  touches i (waiters st) (waiters (emit e st)).
Proof.
  destruct e as [o|j q|j p|j why|j]; cbn; intros He; try apply touches_refl.
  - subst i. apply touches_map, onStatus_touches.
  - subst i. apply touches_map. intros w. apply onConnected_touches.
Qed.

Lemma updateStatus_touches i r st :
  owned st r i -> touches i (waiters st) (waiters (_updateStatus i r st)).
Proof.
  intros (o & Ho & Hid). unfold _updateStatus.
  destruct (map_get i (sessions st)) as [a|]; cbn [set_sessions heap]; rewrite Ho;
    exact (emit_touches i (session_status o) _ Hid).
Qed.

Lemma owned_mutate i r f st :
  (forall o, id (f o) = id o) -> owned st r i -> owned (mutate r f st) r i.
Proof.
  intros Hf. apply owned_mutate_heap with (r0 := r) (f := f); [exact Hf|].
  apply mutate_frame.
Qed.

Lemma on_qr_touches i r u st :
  owned st r i -> touches i (waiters st) (waiters (on_qr i r u st)).
Proof.
  intros Ho. unfold on_qr. destruct (u_qr u) as [q|]; [|apply touches_refl].
  destruct (String.eqb q ""); [apply touches_refl|].
  match goal with |- context [mutate r ?f0 st] => set (f := f0) end.
  eapply touches_trans; [|apply emit_touches; exact I].
  eapply touches_trans; [|apply updateStatus_touches, owned_mutate; [reflexivity | exact Ho]].
  apply touches_eq, mutate_frame.
Qed.

Lemma on_open_touches now i r u st :
  owned st r i -> touches i (waiters st) (waiters (on_open now i r u st)).
Proof.
  intros Ho. unfold on_open. destruct (u_connection u) as [[| |]|]; try apply touches_refl.
  match goal with |- context [mutate r ?f0 st] => set (f := f0) end.
  eapply touches_trans; [|apply emit_touches; reflexivity].
  eapply touches_trans; [|apply updateStatus_touches].
  - cbn [set_attempts waiters]. apply touches_eq, mutate_frame.
  - apply (owned_same (mutate r f st)); [reflexivity|].
    apply owned_mutate; [reflexivity | exact Ho].
Qed.

Lemma on_close_touches cfg now i r u st :
  owned st r i -> touches i (waiters st) (waiters (on_close cfg now i r u st)).
Proof.
  intros Ho. unfold on_close. destruct (u_connection u) as [[| |]|]; try apply touches_refl.
  destruct (is_loggedOut cfg u).
  - match goal with |- context [mutate r ?f0 st] => set (f := f0) end.
    eapply touches_trans; [|apply emit_touches; exact I].
    eapply touches_trans; [|apply updateStatus_touches, owned_mutate; [reflexivity | exact Ho]].
    apply touches_eq, mutate_frame.
  - match goal with |- context [mutate r ?f0 st] => set (f := f0) end.
    match goal with |- context [emit ?e (_updateStatus i r ?x)] =>
      set (st1 := emit e (_updateStatus i r x));
      assert (H1 : touches i (waiters st) (waiters st1)) end.
    { subst st1. eapply touches_trans; [|apply emit_touches; exact I].
      eapply touches_trans;
        [|apply updateStatus_touches, owned_mutate; [reflexivity | exact Ho]].
      apply touches_eq, mutate_frame. }
    destruct (autoReconnect cfg && map_has i (sessions st1)); [|exact H1].
    match goal with |- context [Z.of_nat ?k <=? ?m] => destruct (Z.of_nat k <=? m) end;
      exact H1.
Qed.

Lemma qr_info_id u o : id (qr_info u o) = id o.
Proof. unfold qr_info. destruct (u_qr u) as [q|]; [destruct (String.eqb q "")|]; reflexivity. Qed.

Lemma open_info_id now u o : id (open_info now u o) = id o.
Proof. unfold open_info. destruct (u_connection u) as [[| |]|]; reflexivity. Qed.

(** The handler of a socket of session [i] settles waiters of [i] only. *)
Lemma handler_touches cfg now i r u st :
  owned st r i ->
  touches i (waiters st) (waiters (on_connection_update cfg now i r u st)).
Proof.
  intros Ho. unfold on_connection_update.
  assert (Ho1 : owned (on_qr i r u st) r i).
  { eapply owned_mutate_heap; [apply (qr_info_id u) | apply on_qr_frame | exact Ho]. }
  assert (Ho2 : owned (on_open now i r u (on_qr i r u st)) r i).
  { eapply owned_mutate_heap; [apply (open_info_id now u) | apply on_open_frame | exact Ho1]. }
  eapply touches_trans; [|apply on_close_touches, Ho2].
  eapply touches_trans; [|apply on_open_touches, Ho1].
  apply on_qr_touches, Ho.
Qed.

(** The attempts of the other sessions and the timers, through the handler. *)
Lemma handler_others cfg now i r u st :
  let st' := on_connection_update cfg now i r u st in
  (forall j, j <> i -> reconnectAttempts st' !! j = reconnectAttempts st !! j) /\
  (timers st' = timers st \/
   exists k : nat, (1 <= k)%nat /\ Z.of_nat k <= maxReconnectAttempts cfg /\
     autoReconnect cfg = true /\
     timers st' = timers st ++ [mkTimer i (reconnectDelay cfg k) now true]).
Proof.
  cbv zeta. unfold on_connection_update.
  destruct (on_qr_frame i r u st) as (Qa & Qh & Qs & Qt & Qm & Qg & _).
  set (st1 := on_qr i r u st) in *.
  destruct (on_open_frame now i r u st1) as (Oh & Os & Ot & Om & Og & Oa1 & Oa2 & _).
  set (st2 := on_open now i r u st1) in *.
  destruct (on_close_frame cfg now i r u st2) as (Ch & Cs & Cm & Cg & _ & Ca1 & Ca2).
  set (st3 := on_close cfg now i r u st2) in *.
  assert (A2 : forall j, j <> i -> reconnectAttempts st2 !! j = reconnectAttempts st !! j).
  { intros j Hj. destruct (u_connection u) as [[| |]|] eqn:Hc.
    - rewrite Oa1 by reflexivity. rewrite lookup_insert_ne by congruence.
      rewrite Qa. reflexivity.
    - rewrite Oa2 by congruence. rewrite Qa. reflexivity.
    - rewrite Oa2 by congruence. rewrite Qa. reflexivity.
    - rewrite Oa2 by congruence. rewrite Qa. reflexivity. }
  assert (T2 : timers st2 = timers st) by (rewrite Ot, Qt; reflexivity).
  destruct (u_connection u) as [[| |]|] eqn:Hc.
  1,3,4: destruct Ca1 as (Ea & Et); [left; congruence|]; rewrite Ea, Et, T2;
         split; [exact A2 | left; reflexivity].
  destruct (is_loggedOut cfg u) eqn:Hlo.
  { destruct Ca1 as (Ea & Et); [right; left; reflexivity|]. rewrite Ea, Et, T2.
    split; [exact A2 | left; reflexivity]. }
  destruct (autoReconnect cfg && map_has i (sessions st2)) eqn:Hre.
  - destruct (Ca2 eq_refl eq_refl eq_refl) as (Ea & Et). cbv zeta in Ea, Et.
    rewrite Ea, Et, T2. split.
    + intros j Hj. rewrite lookup_insert_ne by congruence. apply A2, Hj.
    + destruct (Z.of_nat (S (default 0%nat (reconnectAttempts st2 !! i)))
                <=? maxReconnectAttempts cfg) eqn:Hmax; [|left; reflexivity].
      right. eexists. refine (conj _ (conj _ (conj _ eq_refl))).
      * lia.
      * apply Z.leb_le, Hmax.
      * apply andb_true_iff in Hre. tauto.
  - destruct Ca1 as (Ea & Et); [right; right; reflexivity|]. rewrite Ea, Et, T2.
    split; [exact A2 | left; reflexivity].
Qed.

Lemma run_inv cfg (P : State -> Prop) :
  (forall now e st st', P st -> step cfg now e st = Some st' -> P st') ->
  forall evs st st', P st -> run cfg evs st = Some st' -> P st'.
Proof.
  intros Hstep. induction evs as [|[now e] evs IH]; intros st st' HP H; cbn in H.
  - injection H as <-. exact HP.
  - destruct (step cfg now e st) as [st1|] eqn:E; [|discriminate].
    eapply IH; [|exact H]. eapply Hstep; eassumption.
Qed.

Lemma reachable_wf cfg evs st : run cfg evs empty = Some st -> wf st.
Proof. apply run_wf, empty_wf. Qed.

Lemma owned_unique st r i j : owned st r i -> owned st r j -> i = j.
Proof. intros (o & Ho & <-) (o' & Ho' & <-). congruence. Qed.

Lemma infos_NoDup st (m : list (string * ActiveSession)) :
  NoDup (map fst m) -> (forall i a, In (i, a) m -> owned st (info a) i) ->
  NoDup (map (fun kv => info (snd kv)) m).
Proof.
  induction m as [|[k v] m IH]; cbn; intros Hnd Hown; [constructor|].
  apply NoDup_cons in Hnd. destruct Hnd as (Hni & Hnd). apply NoDup_cons. split.
  - intros Hin. apply list_elem_of_In, in_map_iff in Hin.
    destruct Hin as ([j b] & Heq & Hin). cbn in Heq.
    assert (j = k).
    { eapply owned_unique; [apply (Hown j b); right; exact Hin|].
      rewrite Heq. apply Hown. left. reflexivity. }
    subst j. apply Hni, list_elem_of_In. change k with (fst (k, b)). apply in_map, Hin.
  - apply IH; [exact Hnd|]. intros i a Hin. apply Hown. right. exact Hin.
Qed.

(** ** The registry and its readers *)

(** Every session is registered once, under the id its info object
    carries, and no two sessions share an info object: [listSessions]
    returns one object per session, the one [getInfo] returns for its id. *)
Theorem listSessions_has_one_info_per_session cfg evs st :
  run cfg evs empty = Some st ->
  NoDup (listSessions st) /\
  (forall r, In r (listSessions st) ->
     exists i o, getInfo st i = Some r /\ hasSession st i = true /\
                 deref st r = Some o /\ id o = i) /\
  (forall i, hasSession st i = true ->
     exists r o, getInfo st i = Some r /\ In r (listSessions st) /\
                 deref st r = Some o /\ id o = i).
Proof.
  intros Hrun. destruct (reachable_wf _ _ _ Hrun) as (K & O1 & O2).
  refine (conj _ (conj _ _)).
  - unfold listSessions. apply (infos_NoDup st); [exact K|]. intros i a Hin. apply (O2 i a Hin).
  - intros r Hin. unfold listSessions in Hin. apply in_map_iff in Hin.
    destruct Hin as ([i a] & <- & Hin). cbn.
    destruct (O2 i a Hin) as ((o & Ho & Hid) & _).
    pose proof (map_get_In _ _ _ K Hin) as Hg.
    exists i, o. unfold getInfo, hasSession, map_has, deref. rewrite Hg. auto.
  - intros i Hhas. apply map_has_get in Hhas. destruct Hhas as (a & Hg).
    destruct (O2 i a (map_get_Some_In _ _ _ Hg)) as ((o & Ho & Hid) & _).
    exists (info a), o. refine (conj _ (conj _ (conj Ho Hid))).
    + unfold getInfo. rewrite Hg. reflexivity.
    + apply getInfo_listed with (i := i). unfold getInfo. rewrite Hg. reflexivity.
Qed.

Lemma listSessions_has_one_info_per_session_witness :
  let st := after DEFAULT_CONFIG reconnected in
  NoDup (listSessions st) /\
  (forall r, In r (listSessions st) ->
     exists i o, getInfo st i = Some r /\ hasSession st i = true /\
                 deref st r = Some o /\ id o = i) /\
  (forall i, hasSession st i = true ->
     exists r o, getInfo st i = Some r /\ In r (listSessions st) /\
                 deref st r = Some o /\ id o = i).
Proof.
  apply (listSessions_has_one_info_per_session DEFAULT_CONFIG reconnected).
  vm_compute. reflexivity.
Defined.

Lemma destroy_registered st i :
  wf st -> hasSession st i = true ->
  exists st',
    destroySession i st = (st', inr tt) /\
    getInfo st' i = None /\ getSocket st' i = None /\
    destroySession i st' = (st', inl NotFound).
Proof.
  intros (K & O1 & O2) Hhas.
  apply map_has_get in Hhas. destruct Hhas as (a & Hg).
  destruct (O2 i a (map_get_Some_In _ _ _ Hg)) as (_ & (s & Hs & _)).
  assert (Hgone : map_get i (map_delete i (sessions st)) = None).
  { pose proof (map_has_delete i (sessions st) K) as Hd. unfold map_has in Hd.
    destruct (map_get i (map_delete i (sessions st))); [discriminate | reflexivity]. }
  unfold destroySession. rewrite Hg, Hs. cbn. eexists. split; [reflexivity|].
  unfold getSocket, getInfo. cbn. rewrite Hgone. auto.
Qed.

(** [destroySession] of a registered session closes its socket, removes
    the session and its attempts and emits [session.destroyed]; the other
    sessions keep their entries, and a second call throws. *)
Theorem destroySession_unregisters_the_session cfg evs st i :
  run cfg evs empty = Some st -> hasSession st i = true ->
  exists st' sk s,
    destroySession i st = (st', inr tt) /\
    getSocket st i = Some sk /\ socks st !! sk = Some s /\ s_closed s = false /\
    socks st' !! sk = Some (mkSocket i (s_info s) true) /\
    hasSession st' i = false /\ getInfo st' i = None /\ getSocket st' i = None /\
    reconnectAttempts st' !! i = None /\
    emitted st' = session_destroyed i :: emitted st /\
    heap st' = heap st /\
    destroySession i st' = (st', inl NotFound) /\
    (forall j, j <> i ->
       getInfo st' j = getInfo st j /\ getSocket st' j = getSocket st j /\
       reconnectAttempts st' !! j = reconnectAttempts st !! j).
Proof.
  intros Hrun Hhas. destruct (reachable_wf _ _ _ Hrun) as (K & O1 & O2).
  apply map_has_get in Hhas. destruct Hhas as (a & Hg).
  destruct (O2 i a (map_get_Some_In _ _ _ Hg)) as (_ & (s & Hs & Hid & Hcl)).
  assert (Hgone : map_get i (map_delete i (sessions st)) = None).
  { pose proof (map_has_delete i (sessions st) K) as Hd. unfold map_has in Hd.
    destruct (map_get i (map_delete i (sessions st))); [discriminate | reflexivity]. }
  unfold destroySession. rewrite Hg, Hs. cbn.
  eexists _, (sock a), s. refine (conj eq_refl _). cbn.
  unfold getSocket, getInfo, hasSession, map_has. cbn. rewrite Hg, Hgone. cbn.
  conjs; try reflexivity; try assumption.
  - rewrite Hid. apply list_lookup_insert_eq. eapply lookup_lt_Some; exact Hs.
  - apply lookup_delete_eq.
  - intros j Hj. rewrite map_get_delete_ne by exact Hj.
    rewrite lookup_delete_ne by congruence. auto.
Qed.

Lemma destroySession_unregisters_the_session_witness :
  let st := after DEFAULT_CONFIG reconnected in
  exists st' sk s,
    destroySession "s1" st = (st', inr tt) /\
    getSocket st "s1" = Some sk /\ socks st !! sk = Some s /\ s_closed s = false /\
    socks st' !! sk = Some (mkSocket "s1" (s_info s) true) /\
    hasSession st' "s1" = false /\ getInfo st' "s1" = None /\ getSocket st' "s1" = None /\
    reconnectAttempts st' !! "s1" = None /\
    emitted st' = session_destroyed "s1" :: emitted st /\
    heap st' = heap st /\
    destroySession "s1" st' = (st', inl NotFound) /\
    (forall j, j <> "s1" ->
       getInfo st' j = getInfo st j /\ getSocket st' j = getSocket st j /\
       reconnectAttempts st' !! j = reconnectAttempts st !! j).
Proof.
  apply (destroySession_unregisters_the_session DEFAULT_CONFIG reconnected).
  - vm_compute. reflexivity.
  - vm_compute. reflexivity.
Defined.

(** ** [createSession], in its two halves *)

(** With nothing in between, the pieces are the call. *)
Lemma createSession_in_pieces i ok st :
  createSession i ok st =
  match createSession_call i st with
  | (st1, Some f) => (st1, inl f)
  | (st1, None) =>
      if ok then (_boot i st1, inr (createSession_return i (_boot i st1)))
      else (st1, inl AuthLoadFailed)
  end.
Proof.
  unfold createSession, createSession_call, createSession_return.
  destruct (map_has i (sessions st)); reflexivity.
Qed.

Lemma has_false_get {A} i (m : list (string * A)) : map_has i m = false -> map_get i m = None.
Proof. unfold map_has. destruct (map_get i m); [discriminate | reflexivity]. Qed.

(** What the second half of [_boot] leaves. *)
Lemma boot_spec i st :
  let r := default (length (heap st)) (getInfo st i) in
  getInfo (_boot i st) i = Some r /\
  getSocket (_boot i st) i = Some (length (socks st)) /\
  socks (_boot i st) = socks st ++ [mkSocket i r false] /\
  heap (_boot i st)
  = (if hasSession st i then heap st
     else heap st ++ [mkInfo i initializing None None None None None]) /\
  (forall j, j <> i -> map_get j (sessions (_boot i st)) = map_get j (sessions st)) /\
  emitted (_boot i st) = emitted st /\ waiters (_boot i st) = waiters st.
Proof.
  cbv zeta. unfold _boot, getInfo, getSocket, hasSession, map_has.
  destruct (map_get i (sessions st)) as [a|] eqn:E; cbn; rewrite map_get_set_eq; cbn;
    conjs; try reflexivity; intros j Hj; apply map_get_set_ne, Hj.
Qed.

(** [createSession] is suspended between its test of the registry and
    the registration.  The call throws at once for an id that is
    registered; otherwise it emits the status event of a fresh
    [initializing] object, which settles no waiter, and is suspended,
    leaving the registry as it is.  When the auth state has loaded, in
    whatever state [st2] the manager is by then, [_boot] registers a new
    open socket under the id and leaves every socket there was as it is;
    the other sessions keep their entries; what [getInfo] returns for the
    id is what the call returns if nothing else runs before it does; and
    from then on a call for the id throws.  If the id is still not
    registered in [st2], its info is a new [initializing] object; if it has
    been registered in between, by a call or a reconnect that overlaps, the
    info object it has is kept, and the socket it had is still there beside
    the new one. *)
Theorem createSession_registers_when_the_auth_state_loads i st st2 :
  let fresh := mkInfo i initializing None None None None None in
  (hasSession st i = true -> createSession_call i st = (st, Some AlreadyExists)) /\
  (hasSession st i = false ->
     exists st1, createSession_call i st = (st1, None) /\
       emitted st1 = session_status fresh :: emitted st /\
       sessions st1 = sessions st /\ heap st1 = heap st /\ socks st1 = socks st /\
       timers st1 = timers st /\ waiters st1 = waiters st) /\
  exists r sk,
    getInfo (_boot i st2) i = Some r /\
    createSession_return i (_boot i st2) = Some r /\
    getSocket (_boot i st2) i = Some sk /\
    socks st2 !! sk = None /\ socks (_boot i st2) !! sk = Some (mkSocket i r false) /\
    (forall k s, socks st2 !! k = Some s -> socks (_boot i st2) !! k = Some s) /\
    (forall j, j <> i ->
       getInfo (_boot i st2) j = getInfo st2 j /\ getSocket (_boot i st2) j = getSocket st2 j) /\
    createSession_call i (_boot i st2) = (_boot i st2, Some AlreadyExists) /\
    (hasSession st2 i = false -> deref st2 r = None /\ deref (_boot i st2) r = Some fresh) /\
    (hasSession st2 i = true -> getInfo st2 i = Some r /\ heap (_boot i st2) = heap st2).
Proof.
  cbv zeta. refine (conj _ (conj _ _)).
  - unfold hasSession, createSession_call. intros ->. reflexivity.
  - unfold hasSession, createSession_call. intros ->. eexists. split; [reflexivity|].
    cbn. conjs; try reflexivity.
    apply map_id_ext. intros w. unfold onStatus. cbn. rewrite andb_false_r. reflexivity.
  - destruct (boot_spec i st2) as (Hgi & Hgs & Hsk & Hh & Hoth & _). cbv zeta in *.
    exists (default (length (heap st2)) (getInfo st2 i)), (length (socks st2)).
    refine (conj Hgi (conj Hgi (conj Hgs _))).
    refine (conj _ (conj _ (conj _ (conj _ (conj _ (conj _ _)))))).
    + apply lookup_ge_None. lia.
    + rewrite Hsk. apply list_lookup_middle. reflexivity.
    + intros k s Hs. rewrite Hsk. apply lookup_app_l_Some, Hs.
    + intros j Hj. unfold getInfo, getSocket. rewrite (Hoth j Hj). auto.
    + unfold createSession_call.
      assert (Hhas : map_has i (sessions (_boot i st2)) = true).
      { unfold map_has. unfold getInfo in Hgi.
        destruct (map_get i (sessions (_boot i st2))); [reflexivity | discriminate]. }
      rewrite Hhas. reflexivity.
    + intros Hno. unfold deref. rewrite Hh, Hno. unfold hasSession in Hno.
      unfold getInfo. rewrite (has_false_get _ _ Hno). cbn.
      split; [apply lookup_ge_None; lia | apply list_lookup_middle; reflexivity].
    + intros Hyes. rewrite Hh, Hyes. split; [|reflexivity].
      unfold hasSession, map_has in Hyes. unfold getInfo.
      destruct (map_get i (sessions st2)); [reflexivity | discriminate].
Qed.

(** Two calls for one id that overlap: both pass the test and both boot;
    the id ends with one info object and two open sockets, of which the
    registry holds the second. *)
Lemma overlapping_createSession_calls :
  exists st1 st2,
    createSession_call "s1" empty = (st1, None) /\
    createSession_call "s1" st1 = (st2, None) /\
    createSession_return "s1" (_boot "s1" st2) = Some 0%nat /\
    createSession_return "s1" (_boot "s1" (_boot "s1" st2)) = Some 0%nat /\
    heap (_boot "s1" (_boot "s1" st2)) = [mkInfo "s1" initializing None None None None None] /\
    socks (_boot "s1" (_boot "s1" st2)) = [mkSocket "s1" 0 false; mkSocket "s1" 0 false] /\
    getSocket (_boot "s1" (_boot "s1" st2)) "s1" = Some 1%nat.
Proof. do 2 eexists. conjs; reflexivity. Qed.

Lemma wf_frame st st' :
  sessions st' = sessions st -> heap st' = heap st -> socks st' = socks st ->
  wf st -> wf st'.
Proof. intros Hs Hh Hk. unfold wf, owned. rewrite Hs, Hh, Hk. auto. Qed.

(** The first half of a call for an id that is not registered. *)
Lemma call_suspends i st :
  hasSession st i = false ->
  let st1 := emit (session_status (mkInfo i initializing None None None None None)) st in
  createSession_call i st = (st1, None) /\
  hasSession st1 i = false /\ (wf st -> wf st1).
Proof.
  intros Hhas. cbv zeta. unfold hasSession in *. unfold createSession_call. rewrite Hhas.
  refine (conj eq_refl (conj Hhas _)). apply wf_frame; reflexivity.
Qed.

(** ** C2: what [getInfo] and [listSessions] return, in every state *)

Lemma boot_live i st : wf st -> live st -> live (_boot i st).
Proof.
  intros (K & _ & _) L. unfold _boot.
  destruct (map_get i (sessions st)) as [a0|] eqn:E; cbn;
    intros j a Hin; cbn in Hin |- *;
    (destruct (In_map_set _ _ _ _ _ K Hin) as [(-> & ->) | (Hne & Hin')];
     [eexists _, _; split; [apply list_lookup_middle; reflexivity | split; reflexivity]|];
     destruct (L j a Hin') as (sk & s & Hs & Hrest);
     exists sk, s; split; [apply lookup_app_l_Some, Hs | exact Hrest]).
Qed.

Lemma destroy_live i st : wf st -> live st -> live (fst (destroySession i st)).
Proof.
  intros (K & _ & _) L. unfold destroySession.
  destruct (map_get i (sessions st)) as [a0|] eqn:E; [|exact L].
  assert (Hdel : forall j a, In (j, a) (map_delete i (sessions st)) ->
            exists sk s, socks st !! sk = Some s /\ s_session s = j /\ s_info s = info a).
  { intros j a Hin. destruct (In_map_delete _ _ _ _ K Hin) as (_ & Hin'). exact (L j a Hin'). }
  destruct (socks st !! sock a0) as [s0|] eqn:Hs0; cbn; intros j a Hin; cbn in Hin |- *;
    destruct (Hdel j a Hin) as (sk & s & Hs & Hj & Hi); [|eauto].
  destruct (decide (sk = sock a0)) as [-> | Hne].
  - rewrite Hs0 in Hs. injection Hs as <-.
    eexists (sock a0), _. split; [apply list_lookup_insert_eq; eapply lookup_lt_Some; exact Hs0|].
    cbn. auto.
  - exists sk, s. split; [|auto]. rewrite list_lookup_insert_ne by congruence. exact Hs.
Qed.

Lemma handler_live cfg now sk s u st :
  wf st -> socks st !! sk = Some s -> live st ->
  live (on_connection_update cfg now (s_session s) (s_info s) u st).
Proof.
  intros (K & _ & _) Hs L.
  destruct (handler_frame cfg now (s_session s) (s_info s) u st) as (_ & Hsk & _).
  cbv zeta in Hsk.
  pose proof (handler_sessions cfg now (s_session s) (s_info s) u st) as Hsess.
  intros j a Hin. rewrite Hsk. destruct Hsess as [He | He]; rewrite He in Hin.
  - exact (L j a Hin).
  - unfold redirect in Hin. destruct (map_get (s_session s) (sessions st)) as [a0|];
      [|exact (L j a Hin)].
    destruct (In_map_set _ _ _ _ _ K Hin) as [(-> & ->) | (_ & Hin')]; [|exact (L j a Hin')].
    exists sk, s. auto.
Qed.

Lemma step_live cfg now e st st' :
  wf st -> live st -> step cfg now e st = Some st' -> live st'.
Proof.
  intros Hwf L H. destruct e as [i ok|i|i ms|k|sk u|k ok]; cbn in H.
  - injection H as <-. unfold createSession.
    destruct (map_has i (sessions st)); [exact L|].
    destruct ok; cbn; [|exact L]. apply boot_live; [|exact L].
    destruct Hwf as (K & O1 & O2). exact (conj K (conj O1 O2)).
  - injection H as <-. apply destroy_live; assumption.
  - injection H as <-. unfold waitForConnected.
    destruct (is_connected st (getInfo st i)); exact L.
  - destruct (waiters st !! k) as [w|]; [|discriminate].
    destruct (w_timer w && (w_deadline w <=? now)); [|discriminate].
    injection H as <-. exact L.
  - destruct (socks st !! sk) as [s|] eqn:Hs; [|discriminate]. injection H as <-.
    eapply handler_live; eassumption.
  - destruct (timers st !! k) as [t|]; [|discriminate].
    destruct (t_pending t && Qle_bool (inject_Z (t_setAt t) + t_delay t) (inject_Z now));
      [|discriminate].
    injection H as <-. destruct ok; [|exact L]. apply boot_live; [|exact L].
    destruct Hwf as (K & O1 & O2). exact (conj K (conj O1 O2)).
Qed.

Lemma reachable_live cfg evs st : run cfg evs empty = Some st -> wf st /\ live st.
Proof.
  intros Hrun.
  refine (run_inv cfg (fun x => wf x /\ live x) _ evs empty st _ Hrun).
  - intros now e s0 s1 (Hwf & L) Hstep.
    split; [eapply step_wf | eapply step_live]; eassumption.
  - split; [apply empty_wf | intros i a []].
Qed.

(** A socket keeps the session and the info object of its handler, and an
    info object keeps its id. *)
Lemma step_socket cfg now e st st' sk s :
  step cfg now e st = Some st' -> socks st !! sk = Some s ->
  exists s', socks st' !! sk = Some s' /\ s_session s' = s_session s /\ s_info s' = s_info s.
Proof.
  intros H Hs.
  assert (Hsame : forall x, socks x = socks st ->
            exists s', socks x !! sk = Some s' /\ s_session s' = s_session s /\
                       s_info s' = s_info s) by (intros x ->; eauto).
  assert (Hboot : forall j x, socks x = socks st ->
            exists s', socks (_boot j x) !! sk = Some s' /\ s_session s' = s_session s /\
                       s_info s' = s_info s).
  { intros j x Hx. destruct (boot_spec j x) as (_ & _ & Hsk & _). rewrite Hsk, Hx.
    exists s. split; [apply lookup_app_l_Some, Hs | auto]. }
  destruct e as [i ok|i|i ms|k|k u|k ok]; cbn in H.
  - injection H as <-. unfold createSession.
    destruct (map_has i (sessions st)); [eauto|].
    destruct ok; cbn [fst]; [apply Hboot | apply Hsame]; apply emit_frame.
  - injection H as <-. unfold destroySession.
    destruct (map_get i (sessions st)) as [a|]; [|eauto].
    destruct (socks st !! sock a) as [s0|] eqn:Hs0; cbn; [|eauto].
    destruct (decide (sk = sock a)) as [-> | Hne].
    + rewrite Hs0 in Hs. injection Hs as <-. eexists.
      split; [apply list_lookup_insert_eq; eapply lookup_lt_Some; exact Hs0 | auto].
    + exists s. rewrite list_lookup_insert_ne by congruence. auto.
  - injection H as <-. apply Hsame. unfold waitForConnected.
    destruct (is_connected st (getInfo st i)); reflexivity.
  - destruct (waiters st !! k) as [w|]; [|discriminate].
    destruct (w_timer w && (w_deadline w <=? now)); [|discriminate].
    injection H as <-. eauto.
  - destruct (socks st !! k) as [s0|]; [|discriminate]. injection H as <-.
    apply Hsame. apply handler_frame.
  - destruct (timers st !! k) as [t|]; [|discriminate].
    destruct (t_pending t && Qle_bool (inject_Z (t_setAt t) + t_delay t) (inject_Z now));
      [|discriminate].
    injection H as <-. destruct ok; [apply Hboot | apply Hsame]; reflexivity.
Qed.

Lemma step_owned cfg now e st st' r i :
  step cfg now e st = Some st' -> owned st r i -> owned st' r i.
Proof.
  intros H (o & Ho & Hid).
  destruct (step_heap cfg now e st st' r o H Ho) as [Ho' | (sk & s & u & _ & _ & _ & Ho')].
  - exists o. auto.
  - eexists. split; [exact Ho'|]. rewrite update_info_id. exact Hid.
Qed.

Lemma run_holder cfg evs : forall st st' sk s r i,
  run cfg evs st = Some st' ->
  socks st !! sk = Some s -> s_session s = i -> s_info s = r -> owned st r i ->
  (exists s', socks st' !! sk = Some s' /\ s_session s' = i /\ s_info s' = r) /\
  owned st' r i.
Proof.
  induction evs as [|[now e] evs IH]; intros st st' sk s r i H Hs Hi Hr Ho; cbn in H.
  - injection H as <-. eauto.
  - destruct (step cfg now e st) as [st1|] eqn:E; [|discriminate].
    destruct (step_socket _ _ _ _ _ _ _ E Hs) as (s1 & Hs1 & Hi1 & Hr1).
    eapply (IH st1 st' sk s1); [exact H | exact Hs1 | congruence | congruence |].
    eapply step_owned; eassumption.
Qed.

(** An update from a socket changes the object of its handler in place. *)
Lemma update_in_place cfg now sk s u st o :
  socks st !! sk = Some s -> deref st (s_info s) = Some o ->
  exists st',
    step cfg now (ConnectionUpdate sk u) st = Some st' /\
    deref st' (s_info s) = Some (update_info cfg now u o) /\
    status_at st' (s_info s) = Some (next_status cfg u (status o)).
Proof.
  intros Hs Ho. cbn. rewrite Hs. eexists. split; [reflexivity|].
  destruct (handler_frame cfg now (s_session s) (s_info s) u st) as (Hh & _).
  cbv zeta in Hh. unfold status_at, deref in *. rewrite Hh, mutate_heap_lookup.
  case_decide; [|congruence]. rewrite Ho. cbn. rewrite update_info_status. auto.
Qed.

(** C2, as the code has it: in every state the manager can reach and for
    every registered session id, [getInfo] and [listSessions] return the
    info object that the registry holds, not a copy.  It carries the id and
    is the object that the [connection.update] handler of a socket of the
    session closes over.  When that socket emits a [connection.update]
    next, the registry still holds the same reference afterwards, and the
    object read through it is the updated one, its status being the one
    the update leads to; what the manager has emitted, the copies carried
    by [session.status] among it, is only added to.  And whatever happens
    in between, a [connection.update] of that socket at any later time
    changes the object that was returned, in place. *)
Theorem getInfo_returns_live_object cfg evs st i r :
  run cfg evs empty = Some st ->
  getInfo st i = Some r ->
  In r (listSessions st) /\
  (forall r', In r' (listSessions st) -> exists i', getInfo st i' = Some r') /\
  exists o sk s,
    deref st r = Some o /\ id o = i /\
    socks st !! sk = Some s /\ s_session s = i /\ s_info s = r /\
    (forall now u, exists st',
       step cfg now (ConnectionUpdate sk u) st = Some st' /\
       getInfo st' i = Some r /\
       listSessions st' = listSessions st /\
       In r (listSessions st') /\
       deref st' r = Some (update_info cfg now u o) /\
       status_at st' r = Some (next_status cfg u (status o)) /\
       exists new, emitted st' = new ++ emitted st) /\
    (forall later st2, run cfg later st = Some st2 ->
       exists o2, deref st2 r = Some o2 /\ id o2 = i /\
         forall now u, exists st3,
           step cfg now (ConnectionUpdate sk u) st2 = Some st3 /\
           deref st3 r = Some (update_info cfg now u o2) /\
           status_at st3 r = Some (next_status cfg u (status o2))).
Proof.
  intros Hrun Hg. destruct (reachable_live _ _ _ Hrun) as ((K & O1 & O2) & L).
  refine (conj (getInfo_listed _ _ _ Hg) (conj _ _)).
  - intros r' Hin. unfold listSessions in Hin. apply in_map_iff in Hin.
    destruct Hin as ([i' a] & <- & Hin). exists i'. unfold getInfo.
    rewrite (map_get_In _ _ _ K Hin). reflexivity.
  - unfold getInfo in Hg. destruct (map_get i (sessions st)) as [a|] eqn:E; [|discriminate].
    injection Hg as <-. apply map_get_Some_In in E.
    destruct (O2 i a E) as ((o & Ho & Hid) & _).
    destruct (L i a E) as (sk & s & Hs & Hsi & Hsr).
    exists o, sk, s. refine (conj Ho (conj Hid (conj Hs (conj Hsi (conj Hsr (conj _ _)))))).
    + intros now u.
      assert (Hg' : getInfo st (s_session s) = Some (s_info s)).
      { rewrite Hsi, Hsr. unfold getInfo.
        rewrite (map_get_In _ _ _ K E). reflexivity. }
      assert (Ho' : deref st (s_info s) = Some o) by (rewrite Hsr; exact Ho).
      destruct (registered_object_is_updated_in_place cfg now sk s u st o Hs Hg' Ho')
        as (st' & Hstep & H1 & H2 & H3 & H4 & H5 & H6).
      rewrite Hsi, Hsr in *. exists st'. auto 10.
    + intros later st2 Hlater.
      destruct (run_holder cfg later st st2 sk s (info a) i Hlater Hs Hsi Hsr)
        as ((s2 & Hs2 & Hsi2 & Hsr2) & (o2 & Ho2 & Hid2)).
      { exists o. auto. }
      exists o2. refine (conj Ho2 (conj Hid2 _)). intros now u.
      assert (Ho2' : deref st2 (s_info s2) = Some o2) by (rewrite Hsr2; exact Ho2).
      destruct (update_in_place cfg now sk s2 u st2 o2 Hs2 Ho2') as (st3 & Hstep & H1 & H2).
      rewrite Hsr2 in *. exists st3. auto.
Qed.

Lemma getInfo_returns_live_object_witness :
  let st := after DEFAULT_CONFIG old_socket_closes in
  In 0%nat (listSessions st) /\
  (forall r', In r' (listSessions st) -> exists i', getInfo st i' = Some r') /\
  exists o sk s,
    deref st 0%nat = Some o /\ id o = "s1" /\
    socks st !! sk = Some s /\ s_session s = "s1" /\ s_info s = 0%nat /\
    (forall now u, exists st',
       step DEFAULT_CONFIG now (ConnectionUpdate sk u) st = Some st' /\
       getInfo st' "s1" = Some 0%nat /\
       listSessions st' = listSessions st /\
       In 0%nat (listSessions st') /\
       deref st' 0%nat = Some (update_info DEFAULT_CONFIG now u o) /\
       status_at st' 0%nat = Some (next_status DEFAULT_CONFIG u (status o)) /\
       exists new, emitted st' = new ++ emitted st) /\
    (forall later st2, run DEFAULT_CONFIG later st = Some st2 ->
       exists o2, deref st2 0%nat = Some o2 /\ id o2 = "s1" /\
         forall now u, exists st3,
           step DEFAULT_CONFIG now (ConnectionUpdate sk u) st2 = Some st3 /\
           deref st3 0%nat = Some (update_info DEFAULT_CONFIG now u o2) /\
           status_at st3 0%nat = Some (next_status DEFAULT_CONFIG u (status o2))).
Proof.
  apply (getInfo_returns_live_object DEFAULT_CONFIG old_socket_closes).
  - vm_compute. reflexivity.
  - vm_compute. reflexivity.
Defined.

(** In the state of the witness the registry holds the object of the first
    socket, which has closed, and not the one of the socket it holds. *)
Lemma registry_holds_the_object_of_the_old_socket :
  let st := after DEFAULT_CONFIG old_socket_closes in
  getInfo st "s1" = Some 0%nat /\ getSocket st "s1" = Some 1%nat /\
  socks st !! 0%nat = Some (mkSocket "s1" 0 true) /\
  socks st !! 1%nat = Some (mkSocket "s1" 1 false) /\
  status_at st 0%nat = Some disconnected /\ status_at st 1%nat = Some initializing.
Proof. cbv zeta. conjs; vm_compute; reflexivity. Qed.

(** ** The reconnect timers *)

Lemma createSession_frame i ok st :
  timers (fst (createSession i ok st)) = timers st /\
  waiters (fst (createSession i ok st)) = waiters st.
Proof.
  assert (Hw : map (onStatus (mkInfo i initializing None None None None None)) (waiters st)
               = waiters st).
  { apply map_id_ext. intros w. unfold onStatus. cbn. rewrite andb_false_r. reflexivity. }
  unfold createSession. destruct (map_has i (sessions st)); [split; reflexivity|].
  destruct ok; cbn.
  - unfold _boot. cbn. destruct (map_get i (sessions st)); cbn; rewrite Hw; split; reflexivity.
  - rewrite Hw. split; reflexivity.
Qed.

Lemma boot_frame i st :
  timers (_boot i st) = timers st /\ waiters (_boot i st) = waiters st.
Proof. unfold _boot. destruct (map_get i (sessions st)); split; reflexivity. Qed.

Lemma destroySession_waiters i st : waiters (fst (destroySession i st)) = waiters st.
Proof.
  unfold destroySession. destruct (map_get i (sessions st)) as [session|]; [|reflexivity].
  destruct (socks st !! sock session); reflexivity.
Qed.

Lemma step_timers cfg now e st st' :
  step cfg now e st = Some st' ->
  Forall (scheduled cfg) (timers st) /\ (autoReconnect cfg = false -> timers st = []) ->
  Forall (scheduled cfg) (timers st') /\ (autoReconnect cfg = false -> timers st' = []).
Proof.
  intros H (Hs & Hoff). destruct e as [i ok|i|i ms|k|sk u|k ok]; cbn in H.
  - injection H as <-. destruct (createSession_frame i ok st) as (-> & _). auto.
  - injection H as <-. rewrite destroySession_keeps_timers. auto.
  - injection H as <-. unfold waitForConnected.
    destruct (is_connected st (getInfo st i)); auto.
  - destruct (waiters st !! k) as [w|]; [|discriminate].
    destruct (w_timer w && (w_deadline w <=? now)); [|discriminate].
    injection H as <-. auto.
  - destruct (socks st !! sk) as [s|]; [|discriminate]. injection H as <-.
    destruct (handler_others cfg now (s_session s) (s_info s) u st) as (_ & [-> | Hnew]);
      [auto|].
    destruct Hnew as (k & Hk1 & Hk2 & Hon & ->). split; [|congruence].
    apply Forall_app. split; [exact Hs|]. constructor; [|constructor].
    exists k. auto.
  - destruct (timers st !! k) as [t|] eqn:Ht; [|discriminate].
    destruct (t_pending t && Qle_bool (inject_Z (t_setAt t) + t_delay t) (inject_Z now));
      [|discriminate].
    injection H as <-.
    assert (Hst : forall x, timers x = <[k := mkTimer (t_session t) (t_delay t) (t_setAt t) false]>
                                         (timers st) ->
                  Forall (scheduled cfg) (timers x) /\
                  (autoReconnect cfg = false -> timers x = [])).
    { intros x ->. split.
      - apply Forall_insert; [exact Hs|]. apply (Forall_lookup_1 _ _ _ _ Hs Ht).
      - intros Hf. rewrite (Hoff Hf) in Ht. discriminate. }
    destruct ok; apply Hst; [|reflexivity].
    match goal with |- context [_boot ?j ?x] => destruct (boot_frame j x) as (-> & _) end.
    reflexivity.
Qed.

(** Every reconnect timer ever set has the delay of an attempt between 1
    and [maxReconnectAttempts]; with [autoReconnect] off, or a limit below
    1, there is never a timer. *)
Theorem reconnect_timers_respect_the_limit cfg evs st :
  run cfg evs empty = Some st ->
  Forall (scheduled cfg) (timers st) /\
  (autoReconnect cfg = false -> timers st = []) /\
  (maxReconnectAttempts cfg < 1 -> timers st = []).
Proof.
  intros Hrun.
  assert (Hinv : Forall (scheduled cfg) (timers st) /\
                 (autoReconnect cfg = false -> timers st = [])).
  { refine (run_inv cfg (fun x => Forall (scheduled cfg) (timers x) /\
                                  (autoReconnect cfg = false -> timers x = []))
                    _ evs empty st _ Hrun).
    - intros now e s0 s1 H0 Hstep. eapply step_timers; eassumption.
    - split; [constructor | reflexivity]. }
  destruct Hinv as (Hs & Hoff). refine (conj Hs (conj Hoff _)).
  intros Hmax. destruct (timers st) as [|t ts]; [reflexivity|].
  apply Forall_cons in Hs. destruct Hs as ((k & Hk1 & Hk2 & _) & _). lia.
Qed.

Lemma reconnect_timers_respect_the_limit_witness :
  let st := after DEFAULT_CONFIG four_closes in
  Forall (scheduled DEFAULT_CONFIG) (timers st) /\
  (autoReconnect DEFAULT_CONFIG = false -> timers st = []) /\
  (maxReconnectAttempts DEFAULT_CONFIG < 1 -> timers st = []).
Proof.
  apply (reconnect_timers_respect_the_limit DEFAULT_CONFIG four_closes).
  vm_compute. reflexivity.
Defined.

Lemma map_get_redirect_eq i r m a :
  map_get i m = Some a -> map_get i (redirect i r m) = Some (mkSession r (sock a)).
Proof. intros H. unfold redirect. rewrite H. apply map_get_set_eq. Qed.

Lemma map_get_redirect_ne i j r (m : list (string * ActiveSession)) :
  j <> i -> map_get j (redirect i r m) = map_get j m.
Proof.
  intros H. unfold redirect. destruct (map_get i m); [|reflexivity].
  apply map_get_set_ne, H.
Qed.

(** A close beyond [maxReconnectAttempts] sets no timer: the session stays
    registered, [disconnected], with its attempts counted, and [getInfo]
    returns the object of the socket that closed. *)
Theorem close_beyond_the_limit_schedules_nothing cfg evs st now sk s u :
  run cfg evs empty = Some st ->
  socks st !! sk = Some s ->
  hasSession st (s_session s) = true ->
  autoReconnect cfg = true ->
  u_connection u = Some conn_close ->
  is_loggedOut cfg u = false ->
  maxReconnectAttempts cfg <= Z.of_nat (default 0%nat (reconnectAttempts st !! s_session s)) ->
  exists st',
    step cfg now (ConnectionUpdate sk u) st = Some st' /\
    timers st' = timers st /\
    reconnectAttempts st' !! s_session s
      = Some (S (default 0%nat (reconnectAttempts st !! s_session s))) /\
    hasSession st' (s_session s) = true /\
    getInfo st' (s_session s) = Some (s_info s) /\
    status_at st' (s_info s) = Some disconnected.
Proof.
  intros Hrun Hs Hhas Hauto Hc Hlo Hmax. cbn. rewrite Hs. eexists. split; [reflexivity|].
  destruct (reachable_wf _ _ _ Hrun) as (K & O1 & O2).
  destruct (handler_frame cfg now (s_session s) (s_info s) u st)
    as (Hh & _ & Hm & _ & _ & _ & _ & Hcl).
  cbv zeta in Hh, Hm, Hcl. unfold hasSession in *.
  destruct (Hcl Hc Hlo) as (Ha & Ht); [rewrite Hauto, Hhas; reflexivity|].
  destruct (Z.leb_spec (Z.of_nat (S (default 0%nat (reconnectAttempts st !! s_session s))))
                       (maxReconnectAttempts cfg)) as [Hle|_]; [lia|].
  apply map_has_get in Hhas. destruct Hhas as (a & Hg).
  destruct (O1 sk s Hs) as (o & Ho & Hid).
  conjs.
  - exact Ht.
  - rewrite Ha. apply lookup_insert_eq.
  - rewrite Hm. apply map_has_get. eauto.
  - unfold getInfo. rewrite handler_sessions_status by auto.
    rewrite (map_get_redirect_eq _ _ _ _ Hg). reflexivity.
  - unfold status_at. rewrite Hh, mutate_heap_lookup.
    case_decide; [|congruence]. rewrite Ho. cbn. rewrite update_info_status.
    unfold next_status. rewrite Hc, Hlo. reflexivity.
Qed.

Lemma close_beyond_the_limit_schedules_nothing_witness :
  let cfg := mkConfig true 1 3000 401 in
  let st := after cfg reconnected in
  exists st',
    step cfg 3020 (ConnectionUpdate 1 (close_update 428)) st = Some st' /\
    timers st' = timers st /\
    reconnectAttempts st' !! "s1" = Some 2%nat /\
    hasSession st' "s1" = true /\
    getInfo st' "s1" = Some 0%nat /\
    status_at st' 0%nat = Some disconnected.
Proof.
  apply (close_beyond_the_limit_schedules_nothing (mkConfig true 1 3000 401) reconnected
           (after (mkConfig true 1 3000 401) reconnected) 3020 1
           (mkSocket "s1" 0 false) (close_update 428)).
  - vm_compute. reflexivity.
  - vm_compute. reflexivity.
  - vm_compute. reflexivity.
  - reflexivity.
  - reflexivity.
  - reflexivity.
  - vm_compute. discriminate.
Defined.

(** A [connection.update] of a socket of one session leaves every other
    session as it is: its registry entry, its info object, its attempts,
    its timers and the promises that wait for it. *)
Theorem update_leaves_other_sessions_alone cfg evs st now sk s u j :
  run cfg evs empty = Some st ->
  socks st !! sk = Some s ->
  j <> s_session s ->
  exists st',
    step cfg now (ConnectionUpdate sk u) st = Some st' /\
    getInfo st' j = getInfo st j /\
    getSocket st' j = getSocket st j /\
    (forall r, getInfo st j = Some r -> deref st' r = deref st r) /\
    reconnectAttempts st' !! j = reconnectAttempts st !! j /\
    (forall k t, t_session t = j -> timers st' !! k = Some t <-> timers st !! k = Some t) /\
    (forall k w, w_session w = j -> waiters st !! k = Some w -> waiters st' !! k = Some w).
Proof.
  intros Hrun Hs Hj. cbn. rewrite Hs. eexists. split; [reflexivity|].
  destruct (reachable_wf _ _ _ Hrun) as (K & O1 & O2).
  pose proof (O1 sk s Hs) as Hown.
  destruct (handler_frame cfg now (s_session s) (s_info s) u st) as (Hh & _).
  destruct (handler_others cfg now (s_session s) (s_info s) u st) as (Hat & Htm).
  pose proof (handler_touches cfg now (s_session s) (s_info s) u st Hown) as Hw.
  pose proof (handler_sessions cfg now (s_session s) (s_info s) u st) as Hsess.
  cbv zeta in Hh, Hat, Htm.
  set (st' := on_connection_update cfg now (s_session s) (s_info s) u st) in *.
  assert (Hget : map_get j (sessions st') = map_get j (sessions st)).
  { destruct Hsess as [-> | ->]; [reflexivity | apply map_get_redirect_ne, Hj]. }
  conjs.
  - unfold getInfo. rewrite Hget. reflexivity.
  - unfold getSocket. rewrite Hget. reflexivity.
  - intros r Hr. unfold deref. rewrite Hh, mutate_heap_lookup.
    case_decide as Hd; [|reflexivity]. exfalso. apply Hj. subst r.
    unfold getInfo in Hr. destruct (map_get j (sessions st)) as [a|] eqn:Hg; [|discriminate].
    injection Hr as Hr. destruct (O2 j a (map_get_Some_In _ _ _ Hg)) as (Hoj & _).
    rewrite Hr in Hoj. eapply owned_unique; eassumption.
  - apply Hat, Hj.
  - intros k t Ht. destruct Htm as [-> | (n & _ & _ & _ & ->)]; [tauto|].
    split.
    + intros Hl. apply lookup_app_Some in Hl. destruct Hl as [Hl | (_ & Hl)]; [exact Hl|].
      destruct (k - length (timers st))%nat; [|discriminate].
      injection Hl as <-. cbn in Ht. congruence.
    + apply lookup_app_l_Some.
  - intros k w Hwj Hl. destruct (Forall2_lookup_l _ _ _ _ _ Hw Hl) as (w' & Hl' & _ & Hsame).
    rewrite Hl', Hsame by congruence. reflexivity.
Qed.

Lemma update_leaves_other_sessions_alone_witness :
  let evs := [(0, CreateSession "s1" true); (1, CreateSession "s2" true);
              (2, WaitForConnected "s2" 5000)] in
  let st := after DEFAULT_CONFIG evs in
  exists st',
    step DEFAULT_CONFIG 10 (ConnectionUpdate 0 (close_update 401)) st = Some st' /\
    getInfo st' "s2" = getInfo st "s2" /\
    getSocket st' "s2" = getSocket st "s2" /\
    (forall r, getInfo st "s2" = Some r -> deref st' r = deref st r) /\
    reconnectAttempts st' !! "s2" = reconnectAttempts st !! "s2" /\
    (forall k t, t_session t = "s2" -> timers st' !! k = Some t <-> timers st !! k = Some t) /\
    (forall k w, w_session w = "s2" -> waiters st !! k = Some w -> waiters st' !! k = Some w).
Proof.
  apply (update_leaves_other_sessions_alone DEFAULT_CONFIG
           [(0, CreateSession "s1" true); (1, CreateSession "s2" true);
            (2, WaitForConnected "s2" 5000)]
           (after DEFAULT_CONFIG
              [(0, CreateSession "s1" true); (1, CreateSession "s2" true);
               (2, WaitForConnected "s2" 5000)])
           10 0 (mkSocket "s1" 0 false) (close_update 401) "s2").
  - vm_compute. reflexivity.
  - vm_compute. reflexivity.
  - cbn. discriminate.
Defined.

(** ** The promises of [waitForConnected] over a run *)

Lemma Forall2_refl_own {A} (R : A -> A -> Prop) l : (forall z, R z z) -> Forall2 R l l.
Proof. intros Hrefl. induction l; constructor; auto. Qed.

Lemma Forall2_insert_same {A} (R : A -> A -> Prop) l k x y :
  (forall z, R z z) -> l !! k = Some x -> R x y -> Forall2 R l (<[k := y]> l).
Proof.
  intros Hrefl. revert k. induction l as [|z l IH]; intros [|k]; cbn; try discriminate.
  - intros [= ->] Hxy. constructor; [exact Hxy | apply Forall2_refl_own, Hrefl].
  - intros Hl Hxy. constructor; [apply Hrefl | apply IH; assumption].
Qed.

(** What a step does to the waiters: the old ones evolve, new ones are
    appended. *)
Lemma step_waiters cfg now e st st' :
  wf st -> step cfg now e st = Some st' ->
  exists ws new, waiters st' = ws ++ new /\ Forall2 evolves (waiters st) ws /\
                 Forall waiter_ok new.
Proof.
  intros (K & O1 & O2) H.
  assert (Hsame : forall x, waiters x = waiters st ->
            exists ws new, waiters x = ws ++ new /\ Forall2 evolves (waiters st) ws /\
                           Forall waiter_ok new).
  { intros x ->. exists (waiters st), []. rewrite app_nil_r.
    conjs; [reflexivity | apply Forall2_refl_own, evolves_refl | constructor]. }
  destruct e as [i ok|i|i ms|k|sk u|k ok]; cbn in H.
  - injection H as <-. apply Hsame, createSession_frame.
  - injection H as <-. apply Hsame, destroySession_waiters.
  - injection H as <-. unfold waitForConnected.
    destruct (is_connected st (getInfo st i)); cbn; eexists _, [_];
      (refine (conj eq_refl (conj (Forall2_refl_own _ _ evolves_refl) _)));
      (constructor; [|constructor]).
    + right. cbn. conjs; try reflexivity. discriminate.
    + left. cbn. conjs; reflexivity.
  - destruct (waiters st !! k) as [w|] eqn:Hw; [|discriminate].
    destruct (w_timer w && (w_deadline w <=? now)); [|discriminate].
    injection H as <-. cbn. eexists _, []. rewrite app_nil_r.
    conjs; [reflexivity | | constructor].
    eapply Forall2_insert_same; [apply evolves_refl | exact Hw |].
    right. exists Timeout. reflexivity.
  - destruct (socks st !! sk) as [s|] eqn:Hs; [|discriminate]. injection H as <-.
    eexists _, []. rewrite app_nil_r. conjs; [reflexivity | | constructor].
    eapply Forall2_impl; [apply handler_touches, (O1 sk s Hs)|].
    cbn. intros w w' (Hev & _). exact Hev.
  - destruct (timers st !! k) as [t|]; [|discriminate].
    destruct (t_pending t && Qle_bool (inject_Z (t_setAt t) + t_delay t) (inject_Z now));
      [|discriminate].
    injection H as <-. apply Hsame. destruct ok; [|reflexivity].
    match goal with |- context [_boot ?j ?x] => destruct (boot_frame j x) as (_ & ->) end.
    reflexivity.
Qed.

Lemma run_waiters cfg evs : forall st st',
  wf st -> run cfg evs st = Some st' ->
  forall k w, waiters st !! k = Some w ->
    exists w', waiters st' !! k = Some w' /\ evolves w w'.
Proof.
  induction evs as [|[now e] evs IH]; intros st st' Hwf H k w Hw; cbn in H.
  - injection H as <-. exists w. split; [exact Hw | apply evolves_refl].
  - destruct (step cfg now e st) as [st1|] eqn:E; [|discriminate].
    destruct (step_waiters _ _ _ _ _ Hwf E) as (ws & new & Heq & Hev & _).
    destruct (Forall2_lookup_l _ _ _ _ _ Hev Hw) as (w1 & Hw1 & Hev1).
    destruct (IH st1 st' (step_wf _ _ _ _ _ Hwf E) H k w1) as (w' & Hw' & Hev').
    { rewrite Heq. apply lookup_app_l_Some, Hw1. }
    exists w'. split; [exact Hw' | eapply evolves_trans; eassumption].
Qed.

(** Each promise of [waitForConnected] is pending, with its timer armed
    and its two listeners subscribed, or settled, with the timer cleared
    and both listeners removed; and a promise that is settled keeps what
    it was settled with, whatever happens later. *)
Theorem waitForConnected_promises_settle_once cfg evs st :
  run cfg evs empty = Some st ->
  Forall waiter_ok (waiters st) /\
  (forall evs' st' k w v,
     run cfg evs' st = Some st' ->
     waiters st !! k = Some w ->
     w_settled w = Some v ->
     exists w', waiters st' !! k = Some w' /\ w_settled w' = Some v /\
                w_session w' = w_session w /\ w_timer w' = false /\
                w_onConnected w' = false /\ w_onStatus w' = false).
Proof.
  intros Hrun.
  assert (Hinv : wf st /\ Forall waiter_ok (waiters st)).
  { refine (run_inv cfg (fun x => wf x /\ Forall waiter_ok (waiters x))
              _ evs empty st _ Hrun).
    - intros now e s0 s1 (Hwf & Hok) Hstep. split; [eapply step_wf; eassumption|].
      destruct (step_waiters _ _ _ _ _ Hwf Hstep) as (ws & new & -> & Hev & Hnew).
      apply Forall_app. split; [|exact Hnew].
      clear -Hok Hev. induction Hev; [constructor|].
      apply Forall_cons in Hok. destruct Hok as (Hx & Hl).
      constructor; [eapply evolves_ok; eassumption | auto].
    - split; [apply empty_wf | constructor]. }
  destruct Hinv as (Hwf & Hok). split; [exact Hok|].
  intros evs' st' k w v Hrun' Hw Hv.
  destruct (run_waiters cfg evs' st st' Hwf Hrun' k w Hw) as (w' & Hw' & Hev).
  exists w'. split; [exact Hw'|]. split; [eapply evolves_settled; eassumption|].
  split; [apply evolves_session, Hev|].
  pose proof (Forall_lookup_1 _ _ _ _ Hok Hw) as [(Hn & _) | (_ & H1 & H2 & H3)];
    [congruence|].
  destruct Hev as [-> | (r & ->)]; [auto|]. cbn. auto.
Qed.

Lemma waitForConnected_promises_settle_once_witness :
  let evs := [(0, CreateSession "s1" true); (10, WaitForConnected "s1" 5000);
              (20, ConnectionUpdate 0 open_update); (30, WaitForConnected "s1" 5000);
              (40, WaitForConnected "s2" 100); (140, WaitTimer 2)] in
  let st := after DEFAULT_CONFIG evs in
  Forall waiter_ok (waiters st) /\
  (forall evs' st' k w v,
     run DEFAULT_CONFIG evs' st = Some st' ->
     waiters st !! k = Some w ->
     w_settled w = Some v ->
     exists w', waiters st' !! k = Some w' /\ w_settled w' = Some v /\
                w_session w' = w_session w /\ w_timer w' = false /\
                w_onConnected w' = false /\ w_onStatus w' = false).
Proof.
  apply (waitForConnected_promises_settle_once DEFAULT_CONFIG
           [(0, CreateSession "s1" true); (10, WaitForConnected "s1" 5000);
            (20, ConnectionUpdate 0 open_update); (30, WaitForConnected "s1" 5000);
            (40, WaitForConnected "s2" 100); (140, WaitTimer 2)]).
  vm_compute. reflexivity.
Defined.

(** ** The order of the events *)

Lemma updateStatus_emitted i r st o :
  heap st !! r = Some o ->
  emitted (_updateStatus i r st) = session_status o :: emitted st.
Proof.
  intros Ho. unfold _updateStatus.
  destruct (map_get i (sessions st)); cbn [set_sessions heap]; rewrite Ho; reflexivity.
Qed.

Lemma mutate_lookup r f st o :
  heap st !! r = Some o -> heap (mutate r f st) !! r = Some (f o).
Proof.
  intros Ho. destruct (mutate_frame r f st) as (_ & _ & -> & _).
  rewrite mutate_heap_lookup. case_decide; [|congruence]. rewrite Ho. reflexivity.
Qed.

Lemma emit_emitted e x : emitted (emit e x) = e :: emitted x.
Proof. apply emit_frame. Qed.

(** [mutate], [_updateStatus] and [emit] in a row, as the three blocks of
    the handler have them. *)
Lemma block_emitted i r f e st o :
  heap st !! r = Some o ->
  announces e (f o) ->
  announced (emitted st) ->
  forall st1, heap st1 = heap (mutate r f st) -> emitted st1 = emitted (mutate r f st) ->
  match e with session_status _ | session_destroyed _ => False | _ => True end ->
  announced (emitted (emit e (_updateStatus i r st1))).
Proof.
  intros Ho Han Hold st1 Hh Hem Hkind.
  rewrite emit_emitted, (updateStatus_emitted i r st1 (f o)).
  - destruct (mutate_frame r f st) as (_ & _ & _ & _ & _ & _ & Hme).
    rewrite Hem, Hme. destruct e; cbn; try contradiction; auto.
  - rewrite Hh. apply mutate_lookup, Ho.
Qed.

Ltac use_block Ho Hold :=
  match goal with
  | |- announced (emitted (emit ?e (_updateStatus ?i ?r ?x))) =>
      match x with
      | context [mutate r ?f ?st] =>
          refine (block_emitted i r f e st _ Ho _ Hold x eq_refl eq_refl I)
      end
  end.

Lemma on_qr_announced i r u st :
  owned st r i -> announced (emitted st) -> announced (emitted (on_qr i r u st)).
Proof.
  intros (o & Ho & Hid) Hold. unfold on_qr. destruct (u_qr u) as [q|]; [|exact Hold].
  destruct (String.eqb q ""); [exact Hold|].
  use_block Ho Hold.
  cbn. auto.
Qed.

Lemma on_open_announced now i r u st :
  owned st r i -> announced (emitted st) -> announced (emitted (on_open now i r u st)).
Proof.
  intros (o & Ho & Hid) Hold. unfold on_open.
  destruct (u_connection u) as [[| |]|]; try exact Hold.
  use_block Ho Hold.
  cbn. auto.
Qed.

Lemma on_close_announced cfg now i r u st :
  owned st r i -> announced (emitted st) -> announced (emitted (on_close cfg now i r u st)).
Proof.
  intros (o & Ho & Hid) Hold. unfold on_close.
  destruct (u_connection u) as [[| |]|]; try exact Hold.
  destruct (is_loggedOut cfg u).
  - use_block Ho Hold.
    cbn. auto.
  - match goal with |- context [emit ?e (_updateStatus i r ?x)] =>
      set (st1 := emit e (_updateStatus i r x));
      assert (H1 : announced (emitted st1)) end.
    { subst st1. use_block Ho Hold.
      cbn. auto. }
    destruct (autoReconnect cfg && map_has i (sessions st1)); [|exact H1].
    match goal with |- context [Z.of_nat ?k <=? ?m] => destruct (Z.of_nat k <=? m) end;
      exact H1.
Qed.

Lemma handler_announced cfg now i r u st :
  owned st r i -> announced (emitted st) ->
  announced (emitted (on_connection_update cfg now i r u st)).
Proof.
  intros Ho Hold. unfold on_connection_update.
  assert (Ho1 : owned (on_qr i r u st) r i).
  { eapply owned_mutate_heap; [apply (qr_info_id u) | apply on_qr_frame | exact Ho]. }
  assert (Ho2 : owned (on_open now i r u (on_qr i r u st)) r i).
  { eapply owned_mutate_heap; [apply (open_info_id now u) | apply on_open_frame | exact Ho1]. }
  apply on_close_announced; [exact Ho2|].
  apply on_open_announced; [exact Ho1|].
  apply on_qr_announced; assumption.
Qed.

Lemma step_announced cfg now e st st' :
  wf st -> step cfg now e st = Some st' ->
  announced (emitted st) -> announced (emitted st').
Proof.
  intros (K & O1 & O2) H Hold. destruct e as [i ok|i|i ms|k|sk u|k ok]; cbn in H.
  - injection H as <-. unfold createSession.
    destruct (map_has i (sessions st)); [exact Hold|].
    destruct ok; cbn.
    + unfold _boot. cbn. destruct (map_get i (sessions st)); cbn; auto.
    + auto.
  - injection H as <-. unfold destroySession.
    destruct (map_get i (sessions st)) as [a|]; [|exact Hold].
    destruct (socks st !! sock a); cbn; auto.
  - injection H as <-. unfold waitForConnected.
    destruct (is_connected st (getInfo st i)); exact Hold.
  - destruct (waiters st !! k) as [w|]; [|discriminate].
    destruct (w_timer w && (w_deadline w <=? now)); [|discriminate].
    injection H as <-. exact Hold.
  - destruct (socks st !! sk) as [s|] eqn:Hs; [|discriminate]. injection H as <-.
    apply handler_announced; [exact (O1 sk s Hs) | exact Hold].
  - destruct (timers st !! k) as [t|]; [|discriminate].
    destruct (t_pending t && Qle_bool (inject_Z (t_setAt t) + t_delay t) (inject_Z now));
      [|discriminate].
    injection H as <-. destruct ok; [|exact Hold].
    unfold _boot. cbn. destruct (map_get (t_session t) (sessions st)); exact Hold.
Qed.

(** Listeners can rely on the order of the events: every [session.qr],
    [session.connected] and [session.disconnected] is emitted right after
    a [session.status] of the same session, whose copy of the info shows
    the state the event tells: [qr_ready] with that QR code, [connected]
    with that phone number and neither QR code nor error, [logged_out], or
    [disconnected] with that reason as its error. *)
Theorem status_event_comes_first cfg evs st :
  run cfg evs empty = Some st ->
  forall newer e older,
    emitted st = newer ++ e :: older ->
    match e with
    | session_status _ | session_destroyed _ => True
    | _ => exists o rest, older = session_status o :: rest /\ announces e o
    end.
Proof.
  intros Hrun.
  assert (Hinv : wf st /\ announced (emitted st)).
  { refine (run_inv cfg (fun x => wf x /\ announced (emitted x)) _ evs empty st _ Hrun).
    - intros now e s0 s1 (Hwf & Hok) Hstep.
      split; [eapply step_wf | eapply step_announced]; eassumption.
    - split; [apply empty_wf | exact I]. }
  destruct Hinv as (_ & Han). revert Han. generalize (emitted st). clear.
  intros l Han newer. revert l Han.
  induction newer as [|x newer IH]; intros l Han e older ->; cbn in Han.
  - destruct Han as (He & _). destruct e; try exact I;
      (destruct older as [|[o| | | |] rest]; try contradiction; eauto).
  - destruct Han as (_ & Han). eapply IH; [exact Han | reflexivity].
Qed.

Lemma status_event_comes_first_witness :
  exists o rest,
    [session_status (mkInfo "s1" qr_ready (Some "2@abc") None None None None);
     session_status (mkInfo "s1" initializing None None None None None)]
    = session_status o :: rest /\
    announces (session_qr "s1" "2@abc") o.
Proof.
  apply (status_event_comes_first DEFAULT_CONFIG
           [(0, CreateSession "s1" true); (5, ConnectionUpdate 0 (qr_update "2@abc"));
            (10, ConnectionUpdate 0 open_update)]
           (after DEFAULT_CONFIG
              [(0, CreateSession "s1" true); (5, ConnectionUpdate 0 (qr_update "2@abc"));
               (10, ConnectionUpdate 0 open_update)])
           eq_refl
           [session_connected "s1" "15551234567";
            session_status (mkInfo "s1" connected None (Some "15551234567") (Some "Ada")
                              (Some 10) None)]
           (session_qr "s1" "2@abc")).
  vm_compute. reflexivity.
Defined.

End SessionManagerMore.


(* ===================================================================== *)
(** * More properties of the webhook bridge                               *)
(* ===================================================================== *)

Module WebhookBridgeMore.
Import WebhookBridge WebhookBridgeSpec MapFacts.


(** ** One delivery, against any receiving end *)

(** The shape of a retry sequence from attempt [a] on: it ends at an
    attempt [n], the first that succeeds or the last one allowed. *)
Lemma send_shape c remote :
  forall k a now, (retries_of c - a)%nat = k -> (a <= retries_of c)%nat ->
    let r := _sendWithRetry c remote now a in
    exists n, (a <= n <= retries_of c)%nat /\
      attempts (fst r) = seq a (S n - a) /\
      sleeps (fst r) = map (backoff c) (seq a (n - a)) /\
      errors (fst r) = [] /\
      (forall m, (a <= m < n)%nat -> exists e, _httpPost (snd (remote m)) = inl e) /\
      (exists f rest, posts (fst r) = (a, now, f) :: rest) /\
      (0 <= retryDelay_of c -> sequential (posts (fst r))) /\
      ((exists code, _httpPost (snd (remote n)) = inr code /\ snd r = None /\
                     successes (fst r) = (if onSuccess c then [code] else []) /\
                     (onSuccess c = true -> last (fst r) = Some (OnSuccess code))) \/
       (n = retries_of c /\
        exists e, _httpPost (snd (remote n)) = inl e /\ snd r = Some e /\
                  successes (fst r) = [])).
Proof.
  intros k. induction k as [|k IH]; intros a now Hk Ha; cbv zeta;
    rewrite send_unfold; cbv zeta;
    destruct (_httpPost (snd (remote a))) as [e|code] eqn:He.
  - case_decide; [lia|]. exists a. cbn [fst snd].
    replace (S a - a)%nat with 1%nat by lia. replace (a - a)%nat with 0%nat by lia.
    refine (conj _ (conj eq_refl (conj eq_refl (conj eq_refl (conj _ (conj _ (conj _ _))))))).
    + lia.
    + intros m Hm. lia.
    + eauto.
    + intros _. cbn. lia.
    + right. split; [lia|]. exists e. auto.
  - exists a. cbn [fst snd].
    replace (S a - a)%nat with 1%nat by lia. replace (a - a)%nat with 0%nat by lia.
    refine (conj _ (conj _ (conj _ (conj _ (conj _ (conj _ (conj _ _))))))).
    + lia.
    + destruct (onSuccess c); reflexivity.
    + destruct (onSuccess c); reflexivity.
    + destruct (onSuccess c); reflexivity.
    + intros m Hm. lia.
    + destruct (onSuccess c); eauto.
    + intros _. destruct (onSuccess c); cbn; lia.
    + left. exists code. destruct (onSuccess c); cbn; auto.
      refine (conj He (conj eq_refl (conj eq_refl _))). discriminate.
  - case_decide; [|lia].
    destruct (IH (S a) (now + Z.of_nat (fst (remote a)) + setTimeout_after (backoff c a))) as
      (n & Hn & Hp & Hs & Herr & Hfail & (f & rest & Hhd) & Hseq & Hout); [lia | lia |].
    exists n. cbn [fst snd]. unfold attempts in *.
    rewrite !posts_Post, !posts_Sleep, sleeps_Post, sleeps_Sleep, errors_Post, errors_Sleep.
    refine (conj _ (conj _ (conj _ (conj Herr (conj _ (conj _ (conj _ _))))))).
    + lia.
    + cbn [map fst]. rewrite Hp. replace (S n - a)%nat with (S (S n - S a)) by lia.
      reflexivity.
    + rewrite Hs. replace (n - a)%nat with (S (n - S a)) by lia. reflexivity.
    + intros m Hm. destruct (decide (m = a)) as [-> | Hne]; [eauto|]. apply Hfail. lia.
    + eauto.
    + intros Hd. cbn [sequential]. rewrite Hhd. rewrite Hhd in Hseq.
      pose proof (setTimeout_after_pos (backoff c a)).
      split; [lia|]. split; [lia|]. apply Hseq, Hd.
    + destruct Hout as [(code & Hc & Hnone & Hsuc & Hlast) | (Hlast & e' & He' & Hsome & Hsuc)].
      * left. exists code. refine (conj Hc (conj Hnone (conj Hsuc _))).
        intros Hon. specialize (Hlast Hon).
        destruct (fst (_sendWithRetry c remote
                        (now + Z.of_nat (fst (remote a)) + setTimeout_after (backoff c a))
                        (S a))) as [|x l] eqn:El; [discriminate|].
        exact Hlast.
      * right. split; [exact Hlast|]. exists e'. auto.
  - exists a. cbn [fst snd].
    replace (S a - a)%nat with 1%nat by lia. replace (a - a)%nat with 0%nat by lia.
    refine (conj _ (conj _ (conj _ (conj _ (conj _ (conj _ (conj _ _))))))).
    + lia.
    + destruct (onSuccess c); reflexivity.
    + destruct (onSuccess c); reflexivity.
    + destruct (onSuccess c); reflexivity.
    + intros m Hm. lia.
    + destruct (onSuccess c); eauto.
    + intros _. destruct (onSuccess c); cbn; lia.
    + left. exists code. destruct (onSuccess c); cbn; auto.
      refine (conj He (conj eq_refl (conj eq_refl _))). discriminate.
Qed.


(** A delivery stops at the first request that the receiving end answers
    with a status from 200 to 299: with the failures before it, it takes
    [n + 1] requests and [n] delays, and nothing is retried or reported as
    an error after it. *)
Theorem delivery_stops_at_the_first_success c remote now n code :
  (n <= retries_of c)%nat ->
  (forall m, (m < n)%nat -> exists e, _httpPost (snd (remote m)) = inl e) ->
  snd (remote n) = HttpStatus (Some code) ->
  200 <= code < 300 ->
  let acts := deliver c remote now in
  attempts acts = seq 0 (S n) /\
  sleeps acts = map (fun attempt => retryDelay_of c * 2 ^ Z.of_nat attempt) (seq 0 n) /\
  errors acts = [] /\
  successes acts = (if onSuccess c then [code] else []).
Proof.
  intros Hn Hfail Hresp Hcode. cbv zeta.
  assert (Hok : _httpPost (snd (remote n)) = inr code).
  { rewrite Hresp. cbn. destruct (Z.eqb_spec code 0); [lia|].
    destruct (Z.leb_spec 200 code); [|lia]. destruct (Z.ltb_spec code 300); [|lia].
    reflexivity. }
  destruct (send_shape c remote (retries_of c) 0%nat now) as
    (k & Hk & Hp & Hs & Herr & Hf & _ & _ & Hout); [lia | lia |].
  cbv zeta in *. rewrite Nat.sub_0_r in Hp, Hs.
  assert (k = n).
  { destruct (lt_eq_lt_dec k n) as [[Hlt | Heq] | Hgt]; [|exact Heq|].
    - destruct Hout as [(code' & Hc' & _) | (Hlast & _)]; [|lia].
      destruct (Hfail k Hlt) as (e & He). congruence.
    - destruct (Hf n) as (e & He); [lia|]. congruence. }
  subst k.
  destruct Hout as [(code' & Hc' & Hnone & Hsuc & _) | (_ & e & He & _)]; [|congruence].
  assert (code' = code) by congruence. subst code'.
  unfold deliver. rewrite Hnone. auto.
Qed.

Lemma delivery_stops_at_the_first_success_witness :
  let remote : Remote :=
    fun n => if (n <? 2)%nat then (5%nat, HttpStatus (Some 503))
             else (5%nat, HttpStatus (Some 204)) in
  let acts := deliver registered remote 0 in
  attempts acts = seq 0 3 /\
  sleeps acts = map (fun attempt => 1000 * 2 ^ Z.of_nat attempt) (seq 0 2) /\
  errors acts = [] /\
  successes acts = [].
Proof.
  apply (delivery_stops_at_the_first_success registered
           (fun n => if (n <? 2)%nat then (5%nat, HttpStatus (Some 503))
                     else (5%nat, HttpStatus (Some 204)))
           0 2 204).
  - vm_compute. lia.
  - intros m Hm. destruct m as [|[|m]]; [eexists; reflexivity | eexists; reflexivity | lia].
  - reflexivity.
  - lia.
Defined.

(** ** Which endpoints an event reaches *)

Lemma subscribed_In c event :
  subscribed c event = true <-> In event (default DEFAULT_EVENTS (events c)).
Proof.
  unfold subscribed. rewrite existsb_exists. split.
  - intros (x & Hin & Heq). apply String.eqb_eq in Heq. subst x. exact Hin.
  - intros Hin. exists event. split; [exact Hin | apply String.eqb_refl].
Qed.

Lemma dispatch_In st remotes event now i acts :
  In (i, acts) (_dispatch st remotes event now) ->
  exists c, In (i, c) (configs st) /\ In event (default DEFAULT_EVENTS (events c)) /\
            acts = deliver c (remotes i) now.
Proof.
  intros Hin. apply list_elem_of_In in Hin. unfold _dispatch in Hin.
  apply list_elem_of_omap in Hin. destruct Hin as ([j c] & Hin & Heq). cbn in Heq.
  destruct (subscribed c event) eqn:Hsub; [|discriminate]. injection Heq as <- <-.
  exists c. split; [apply list_elem_of_In, Hin|]. split; [|reflexivity].
  apply subscribed_In, Hsub.
Qed.

(** An event is delivered to the endpoints whose [events] list it is in
    (the default list for an endpoint that has none), to each of them
    once, in the order of their registration, and to no other. *)
Theorem dispatch_reaches_the_subscribed_endpoints st remotes event now :
  map fst (_dispatch st remotes event now)
  = map fst (List.filter (fun kv => subscribed (snd kv) event) (configs st)) /\
  (forall i acts, In (i, acts) (_dispatch st remotes event now) ->
     exists c, In (i, c) (configs st) /\ In event (default DEFAULT_EVENTS (events c)) /\
               acts = deliver c (remotes i) now) /\
  (forall i c, In (i, c) (configs st) -> In event (default DEFAULT_EVENTS (events c)) ->
     In (i, deliver c (remotes i) now) (_dispatch st remotes event now)).
Proof.
  refine (conj _ (conj _ _)).
  - unfold _dispatch. induction (configs st) as [|[i c] m IH]; cbn; [reflexivity|].
    destruct (subscribed c event); cbn; rewrite IH; reflexivity.
  - intros i acts. apply dispatch_In.
  - intros i c Hin Hev. apply dispatch_delivers; [exact Hin | apply subscribed_In, Hev].
Qed.

(** ** The registry *)

Lemma addEndpoint_stores i c st :
  configs (addEndpoint i c st) = map_set i (merged c) (configs st).
Proof.
  unfold addEndpoint, merged, or_default. cbn.
  destruct (events c), (timeoutMs c), (retries c), (retryDelayMs c); reflexivity.
Qed.

Lemma apply_op_NoDup o st :
  NoDup (map fst (configs st)) -> NoDup (map fst (configs (apply_op o st))).
Proof.
  intros Hnd. destruct o as [i c|i]; cbn [apply_op].
  - rewrite addEndpoint_stores. apply NoDup_map_set, Hnd.
  - cbn. apply NoDup_map_delete, Hnd.
Qed.

Lemma after_ops_NoDup ops : NoDup (map fst (configs (after_ops ops))).
Proof.
  unfold after_ops.
  assert (H0 : NoDup (map fst (configs (mkState [])))) by constructor.
  revert H0. generalize (mkState []). induction ops as [|o ops IH]; intros st Hst; cbn.
  - exact Hst.
  - apply IH, apply_op_NoDup, Hst.
Qed.

(** The registry holds one config per id.  [addEndpoint] stores the config
    with the defaults filled in, in place of the one the id had, and
    deliveries to the id use it; [removeEndpoint] tells whether the id was
    registered, and nothing is delivered to it afterwards; both leave the
    other endpoints alone. *)
Theorem endpoint_registry_keeps_one_config_per_id ops i c :
  let st := after_ops ops in
  NoDup (map fst (configs st)) /\
  map_get i (configs (addEndpoint i c st)) = Some (merged c) /\
  (forall remotes event now acts,
     In (i, acts) (_dispatch (addEndpoint i c st) remotes event now) ->
     acts = deliver (merged c) (remotes i) now) /\
  (forall j, j <> i -> map_get j (configs (addEndpoint i c st)) = map_get j (configs st)) /\
  snd (removeEndpoint i st) = map_has i (configs st) /\
  map_get i (configs (fst (removeEndpoint i st))) = None /\
  (forall remotes event now acts,
     ~ In (i, acts) (_dispatch (fst (removeEndpoint i st)) remotes event now)) /\
  (forall j, j <> i ->
     map_get j (configs (fst (removeEndpoint i st))) = map_get j (configs st)).
Proof.
  cbv zeta. pose proof (after_ops_NoDup ops) as K. set (st := after_ops ops) in *.
  refine (conj K (conj _ (conj _ (conj _ (conj eq_refl (conj _ (conj _ _))))))).
  - rewrite addEndpoint_stores. apply SessionManagerSpec.map_get_set_eq.
  - intros remotes event now acts Hin.
    destruct (dispatch_In _ _ _ _ _ _ Hin) as (c' & Hc' & _ & ->).
    rewrite addEndpoint_stores in Hc'.
    destruct (In_map_set _ _ _ _ _ K Hc') as [(_ & ->) | (Hne & _)]; [reflexivity|].
    congruence.
  - intros j Hj. rewrite addEndpoint_stores. apply map_get_set_ne, Hj.
  - cbn. pose proof (map_has_delete i (configs st) K) as Hd. unfold map_has in Hd.
    destruct (map_get i (map_delete i (configs st))); [discriminate | reflexivity].
  - intros remotes event now acts Hin.
    destruct (dispatch_In _ _ _ _ _ _ Hin) as (c' & Hc' & _). cbn in Hc'.
    destruct (In_map_delete _ _ _ _ K Hc') as (Hne & _). congruence.
  - intros j Hj. cbn. apply map_get_delete_ne, Hj.
Qed.

End WebhookBridgeMore.


(* ===================================================================== *)
(** * Properties of the REST server's session routes                      *)
(* ===================================================================== *)

Module ApiServerSpec.
Import SessionManager SessionManagerSpec MapFacts SessionManagerMore ApiServer.

Lemma status_eqb_eq a b : status_eqb a b = true <-> a = b.
Proof. destruct a, b; cbn; split; intros H; try reflexivity; discriminate. Qed.

(** [_requireSocket] hands out a socket only for a registered session
    whose info says [connected], and then it is the session's own socket,
    on which [destroySession] has not called [ws.close()]; it answers 404
    exactly for an id that is not registered and 409 for a registered
    session in any other status. *)
Theorem requireSocket_returns_an_open_connected_socket cfg evs st i :
  run cfg evs empty = Some st ->
  match _requireSocket st i with
  | inr sk =>
      exists s r o,
        getSocket st i = Some sk /\ socks st !! sk = Some s /\
        s_session s = i /\ s_closed s = false /\
        getInfo st i = Some r /\ deref st r = Some o /\ id o = i /\ status o = connected
  | inl c =>
      (c = 404 /\ hasSession st i = false) \/
      (c = 409 /\ hasSession st i = true /\
       exists r o, getInfo st i = Some r /\ deref st r = Some o /\ id o = i /\
                   status o <> connected)
  end.
Proof.
  intros Hrun. destruct (reachable_wf _ _ _ Hrun) as (K & O1 & O2).
  unfold _requireSocket, getSocket, getInfo, hasSession, map_has, deref.
  destruct (map_get i (sessions st)) as [a|] eqn:Hg; cbn; [|left; auto].
  destruct (O2 i a (map_get_Some_In _ _ _ Hg)) as ((o & Ho & Hid) & (s & Hs & Hsi & Hcl)).
  rewrite Ho. destruct (status_eqb (status o) connected) eqn:E.
  - apply status_eqb_eq in E. exists s, (info a), o. auto 10.
  - right. refine (conj eq_refl (conj eq_refl _)). exists (info a), o.
    refine (conj eq_refl (conj Ho (conj Hid _))). intros Hc.
    apply status_eqb_eq in Hc. congruence.
Qed.

Lemma requireSocket_returns_an_open_connected_socket_witness :
  let st := after DEFAULT_CONFIG
              [(0, CreateSession "s1" true); (10, ConnectionUpdate 0 open_update)] in
  exists s r o,
    getSocket st "s1" = Some 0%nat /\ socks st !! 0%nat = Some s /\
    s_session s = "s1" /\ s_closed s = false /\
    getInfo st "s1" = Some r /\ deref st r = Some o /\ id o = "s1" /\ status o = connected.
Proof.
  apply (requireSocket_returns_an_open_connected_socket DEFAULT_CONFIG
           [(0, CreateSession "s1" true); (10, ConnectionUpdate 0 open_update)]
           (after DEFAULT_CONFIG
              [(0, CreateSession "s1" true); (10, ConnectionUpdate 0 open_update)])
           "s1").
  vm_compute. reflexivity.
Defined.

Lemma resume_answers_201 st i :
  _createSession_resume st i true = (_boot i st, 201).
Proof. reflexivity. Qed.

(** The session routes in a row.  A POST for an id that is not registered
    is suspended while the auth state loads and answers 201 when it has,
    and 500, with nothing registered, when it fails to load.
    With nothing else run in between, a POST for the id answers 500 from
    then on, changing nothing, and a send route answers 409, the session
    being [initializing]; DELETE answers 200, after which the session is
    not found (404) by the read and the send routes, and deleting again
    answers 500.  A second POST that arrives while the first is suspended
    is not refused: it answers 201 as well, and the session is left with
    two open sockets and the info object of the first. *)
Theorem session_routes_through_a_life cfg evs st i :
  run cfg evs empty = Some st ->
  i <> EmptyString ->
  hasSession st i = false ->
  exists st1 st2 st3,
    _createSession_call st (Some i) = (st1, None) /\
    _createSession_resume st1 i false = (st1, 500) /\
    _createSession_resume st1 i true = (st2, 201) /\
    _createSession_call st2 (Some i) = (st2, Some 500) /\
    fst (_getSession st2 i) = 200 /\
    _requireSocket st2 i = inl 409 /\
    _destroySession st2 i = (st3, 200) /\
    _getSession st3 i = (404, None) /\
    _requireSocket st3 i = inl 404 /\
    _destroySession st3 i = (st3, 500) /\
    exists st1' st2' st3' r k1 k2,
      _createSession_call st1 (Some i) = (st1', None) /\
      _createSession_resume st1' i true = (st2', 201) /\
      _createSession_resume st2' i true = (st3', 201) /\
      k1 <> k2 /\
      socks st3' !! k1 = Some (mkSocket i r false) /\
      socks st3' !! k2 = Some (mkSocket i r false) /\
      getSocket st3' i = Some k2 /\ getInfo st3' i = Some r.
Proof.
  intros Hrun Hne Hhas.
  assert (Heq : String.eqb i "" = false) by (apply String.eqb_neq; exact Hne).
  destruct (call_suspends i st Hhas) as (Hcall & Hhas1 & Hwf1). cbv zeta in *.
  set (st1 := emit (session_status (mkInfo i initializing None None None None None)) st) in *.
  specialize (Hwf1 (reachable_wf _ _ _ Hrun)).
  destruct (boot_spec i st1) as (Hgi & Hgs & Hsk & Hh & _). cbv zeta in *.
  set (st2 := _boot i st1) in *.
  assert (Hnone1 : getInfo st1 i = None).
  { unfold getInfo. unfold hasSession in Hhas1. rewrite (has_false_get _ _ Hhas1). reflexivity. }
  rewrite Hnone1 in Hgi, Hsk. simpl (default _ _) in Hgi, Hsk. rewrite Hhas1 in Hh.
  assert (Hhas2 : hasSession st2 i = true).
  { unfold hasSession, map_has. unfold getInfo in Hgi.
    destruct (map_get i (sessions st2)); [reflexivity | discriminate]. }
  assert (Hwf2 : wf st2) by (apply boot_wf, Hwf1).
  destruct (destroy_registered st2 i Hwf2 Hhas2) as (st3 & Hdes & Hgi3 & Hgs3 & Hdes3).
  exists st1, st2, st3.
  refine (conj _ (conj eq_refl (conj (resume_answers_201 st1 i) (conj _ (conj _ (conj _
            (conj _ (conj _ (conj _ (conj _ _)))))))))).
  - unfold _createSession_call. rewrite Heq, Hcall. reflexivity.
  - unfold _createSession_call, createSession_call. unfold hasSession in Hhas2.
    rewrite Heq, Hhas2. reflexivity.
  - unfold _getSession. rewrite Hgi. reflexivity.
  - unfold _requireSocket. rewrite Hgs, Hgi. unfold is_connected. rewrite Hh.
    rewrite list_lookup_middle by reflexivity. reflexivity.
  - unfold _destroySession. rewrite Hdes. reflexivity.
  - unfold _getSession. rewrite Hgi3. reflexivity.
  - unfold _requireSocket. rewrite Hgs3. reflexivity.
  - unfold _destroySession. rewrite Hdes3. reflexivity.
  - destruct (call_suspends i st1 Hhas1) as (Hcall' & Hhas1' & _). cbv zeta in *.
    set (st1' := emit (session_status (mkInfo i initializing None None None None None)) st1)
      in *.
    destruct (boot_spec i st1') as (Hgi' & Hgs' & Hsk' & _). cbv zeta in *.
    assert (Hnone1' : getInfo st1' i = None).
    { unfold getInfo. unfold hasSession in Hhas1'. rewrite (has_false_get _ _ Hhas1').
      reflexivity. }
    rewrite Hnone1' in Hgi', Hsk'. simpl (default _ _) in Hgi', Hsk'.
    destruct (boot_spec i (_boot i st1')) as (Hgi'' & Hgs'' & Hsk'' & _). cbv zeta in *.
    rewrite Hgi' in Hgi'', Hsk''. simpl (default _ _) in Hgi'', Hsk''.
    exists st1', (_boot i st1'), (_boot i (_boot i st1')), (length (heap st1')),
      (length (socks st1')), (length (socks (_boot i st1'))).
    refine (conj _ (conj (resume_answers_201 _ i) (conj (resume_answers_201 _ i) _))).
    + unfold _createSession_call. rewrite Heq, Hcall'. reflexivity.
    + rewrite Hsk'', Hsk'. rewrite !length_app. cbn [length].
      refine (conj _ (conj _ (conj _ (conj _ Hgi'')))).
      * lia.
      * rewrite <- app_assoc. apply list_lookup_middle. reflexivity.
      * apply list_lookup_middle. rewrite length_app. reflexivity.
      * rewrite Hgs'', Hsk', length_app. reflexivity.
Qed.

Lemma session_routes_through_a_life_witness :
  let st := after DEFAULT_CONFIG reconnected in
  exists st1 st2 st3,
    _createSession_call st (Some "s2") = (st1, None) /\
    _createSession_resume st1 "s2" false = (st1, 500) /\
    _createSession_resume st1 "s2" true = (st2, 201) /\
    _createSession_call st2 (Some "s2") = (st2, Some 500) /\
    fst (_getSession st2 "s2") = 200 /\
    _requireSocket st2 "s2" = inl 409 /\
    _destroySession st2 "s2" = (st3, 200) /\
    _getSession st3 "s2" = (404, None) /\
    _requireSocket st3 "s2" = inl 404 /\
    _destroySession st3 "s2" = (st3, 500) /\
    exists st1' st2' st3' r k1 k2,
      _createSession_call st1 (Some "s2") = (st1', None) /\
      _createSession_resume st1' "s2" true = (st2', 201) /\
      _createSession_resume st2' "s2" true = (st3', 201) /\
      k1 <> k2 /\
      socks st3' !! k1 = Some (mkSocket "s2" r false) /\
      socks st3' !! k2 = Some (mkSocket "s2" r false) /\
      getSocket st3' "s2" = Some k2 /\ getInfo st3' "s2" = Some r.
Proof.
  apply (session_routes_through_a_life DEFAULT_CONFIG reconnected
           (after DEFAULT_CONFIG reconnected) "s2").
  - vm_compute. reflexivity.
  - discriminate.
  - vm_compute. reflexivity.
Defined.

End ApiServerSpec.
